(** * DupliFind-Analyzer: the duplicate-detection engine of [src/duplicateLogic.ts]

    A shallow embedding of the engine and the proofs of its properties.

    - The syntax trees the parser returns are JSON-like values ([json]).
    - JavaScript objects have identity and are mutated in place, so the
      functions that walk or rewrite a tree ([extractFunctions],
      [normalizeAST]) run on an explicit object store ([heap]).
    - [parse] (@babel/parser), [generate] (@babel/generator), [hashCode]
      (SHA-256 of node's crypto) and [compareTwoStrings] (string-similarity)
      are libraries, not code of the repository: they are the variables of
      Section [Engine].
    - A string is a [string] and its [length] the number of its characters;
      a number (a similarity, the threshold) is a rational.
    - What a function throws, and what the promise of the [async]
      [findNearDuplicates] is rejected with, is the outcome [Throw]; what is
      written to the console is left out. *)

From Stdlib Require Import String Ascii List ZArith QArith Lia.
From stdpp Require Import base option list strings pretty gmap.

Set Warnings "-register-all".
Local Open Scope string_scope.
Local Open Scope list_scope.

(** ** Values of the embedding *)

(** What a thrown JavaScript value is in this program. *)
Inductive exn : Type :=
| ParseError (msg : string)    (* thrown by @babel/parser *)
| RenderError (msg : string)   (* thrown by @babel/generator *)
| TypeError (msg : string)     (* thrown by the language itself *)
| SyntaxError (msg : string).  (* thrown by JSON.parse *)

(** The result of a computation: a value, a thrown exception, or recursion
    that did not come to an end within the fuel it was given. *)
Inductive outcome (A : Type) : Type :=
| Ret (a : A)
| Throw (e : exn)
| OutOfFuel.
Arguments Ret {A} a.
Arguments Throw {A} e.
Arguments OutOfFuel {A}.

(** A JSON value: what [JSON.stringify] writes and [JSON.parse] reads, and
    the shape of the trees the parser returns. An object keeps its
    properties in insertion order, which is the order of [Object.keys]
    (property names of syntax-tree nodes are never array indices). *)
Inductive json : Type :=
| JNull
| JBool (b : bool)
| JNum (q : Q)
| JStr (s : string)
| JArr (elems : list json)
| JObj (props : list (string * json)).

(** A JavaScript value: a primitive, or a reference to an object of the
    store. *)
Inductive value : Type :=
| VUndef
| VNull
| VBool (b : bool)
| VNum (q : Q)
| VStr (s : string)
| VRef (l : nat).

(** An object of the store: a plain object, or an array with its elements
    and the named properties it may have been given besides. *)
Inductive object : Type :=
| Obj (props : list (string * value))
| Arr (elems : list value) (props : list (string * value)).

(** The store: the object a reference [VRef l] names is the [l]-th one; a new
    object is added at the end. *)
Abbreviation heap := (list object).

(** ** Sequencing *)

Definition outcome_bind {A B : Type} (m : outcome A) (k : A -> outcome B)
  : outcome B :=
  match m with
  | Ret a => k a
  | Throw e => Throw e
  | OutOfFuel => OutOfFuel
  end.

Notation "'let*' x ':=' m 'in' k" := (outcome_bind m (fun x => k))
  (at level 10, x pattern, m at level 100, k at level 200).

(** ** Property access *)

(** [props[key]] on an association list in insertion order. *)
Fixpoint assoc {K A : Type} `{EqDecision K} (key : K) (props : list (K * A))
  : option A :=
  match props with
  | [] => None
  | (k, v) :: rest => if bool_decide (k = key) then Some v else assoc key rest
  end.

(** [props[key] = v]: an existing property keeps its place, a new one goes
    to the end. *)
Fixpoint assoc_set {K A : Type} `{EqDecision K} (key : K) (v : A)
  (props : list (K * A)) : list (K * A) :=
  match props with
  | [] => [(key, v)]
  | (k, w) :: rest =>
      if bool_decide (k = key) then (k, v) :: rest
      else (k, w) :: assoc_set key v rest
  end.

Definition named_props (o : object) : list (string * value) :=
  match o with
  | Obj props => props
  | Arr _ props => props
  end.

(** [o[key]] for a property name that is no array index; a missing property
    reads as [undefined]. *)
Definition obj_get (o : object) (key : string) : value :=
  default VUndef (assoc key (named_props o)).

Definition obj_set (o : object) (key : string) (v : value) : object :=
  match o with
  | Obj props => Obj (assoc_set key v props)
  | Arr elems props => Arr elems (assoc_set key v props)
  end.

(** The values [Object.keys(o).forEach(key => ... o[key] ...)] visits when
    nothing changes [o] meanwhile: the elements of an array come first. *)
Definition obj_values (o : object) : list value :=
  match o with
  | Obj props => map snd props
  | Arr elems props => elems ++ map snd props
  end.

(** [n[key]] through a reference; anything that is no object of the store
    has no such property here. *)
Definition get_prop (h : heap) (n : value) (key : string) : value :=
  match n with
  | VRef l => match h !! l with Some o => obj_get o key | None => VUndef end
  | _ => VUndef
  end.

(** [n[key] = v] on the object at [l], in place. *)
Definition set_prop (h : heap) (l : nat) (key : string) (v : value) : heap :=
  match h !! l with
  | Some o => <[l := obj_set o key v]> h
  | None => h
  end.

(** [!v] is false. *)
Definition truthy (v : value) : bool :=
  match v with
  | VUndef | VNull => false
  | VBool b => b
  | VNum q => negb (Qeq_bool q 0)
  | VStr s => negb (String.eqb s "")
  | VRef _ => true
  end.

(** [typeof v === "object"]: objects, arrays and [null]. *)
Definition is_object (v : value) : bool :=
  match v with
  | VNull | VRef _ => true
  | _ => false
  end.

(** [n.type === name]. *)
Definition has_type (h : heap) (n : value) (name : string) : bool :=
  match get_prop h n "type" with
  | VStr s => String.eqb s name
  | _ => false
  end.

(** ** Trees in the store *)

(** Building the objects of a tree, as the parser and [JSON.parse] do: every
    node is a new object, added after the objects of its children. *)
Fixpoint alloc (t : json) (h : heap) : heap * value :=
  match t with
  | JNull => (h, VNull)
  | JBool b => (h, VBool b)
  | JNum q => (h, VNum q)
  | JStr s => (h, VStr s)
  | JArr elems =>
      let '(h', vs) :=
        (fix each (ts : list json) (h : heap) : heap * list value :=
           match ts with
           | [] => (h, [])
           | t :: rest =>
               let '(h1, v) := alloc t h in
               let '(h2, vs) := each rest h1 in
               (h2, v :: vs)
           end) elems h in
      (h' ++ [Arr vs []], VRef (length h'))
  | JObj props =>
      let '(h', ps) :=
        (fix each (ts : list (string * json)) (h : heap)
           : heap * list (string * value) :=
           match ts with
           | [] => (h, [])
           | (k, t) :: rest =>
               let '(h1, v) := alloc t h in
               let '(h2, ps) := each rest h1 in
               (h2, (k, v) :: ps)
           end) props h in
      (h' ++ [Obj ps], VRef (length h'))
  end.

(** Reading the tree below a value, as [JSON.stringify] does: it keeps the
    objects it is inside of ([stack]) and throws a [TypeError] when it meets
    one of them again; a property whose value is [undefined] is left out, an
    array element that is [undefined] is written [null], and the named
    properties of an array are not written. [None] stands for [undefined]. *)
Fixpoint readback (fuel : nat) (stack : list nat) (h : heap) (v : value)
  : outcome (option json) :=
  match fuel with
  | 0 => OutOfFuel
  | S fuel' =>
      match v with
      | VUndef => Ret None
      | VNull => Ret (Some JNull)
      | VBool b => Ret (Some (JBool b))
      | VNum q => Ret (Some (JNum q))
      | VStr s => Ret (Some (JStr s))
      | VRef l =>
          if bool_decide (l ∈ stack) then
            Throw (TypeError "Converting circular structure to JSON")
          else
            match h !! l with
            | None => Ret None
            | Some (Arr elems _) =>
                let* ts :=
                  (fix each (vs : list value) : outcome (list json) :=
                     match vs with
                     | [] => Ret []
                     | v :: rest =>
                         let* o := readback fuel' (l :: stack) h v in
                         let* ts := each rest in
                         Ret (default JNull o :: ts)
                     end) elems in
                Ret (Some (JArr ts))
            | Some (Obj props) =>
                let* ts :=
                  (fix each (ps : list (string * value))
                     : outcome (list (string * json)) :=
                     match ps with
                     | [] => Ret []
                     | (k, v) :: rest =>
                         let* o := readback fuel' (l :: stack) h v in
                         let* ts := each rest in
                         Ret (match o with
                              | Some t => (k, t) :: ts
                              | None => ts
                              end)
                     end) props in
                Ret (Some (JObj ts))
            end
      end
  end.

(** [JSON.stringify(v)]: no chain of distinct objects is longer than the
    store, so this fuel is never used up ([stringify_fuel]). *)
Definition stringify (h : heap) (v : value) : outcome (option json) :=
  readback (S (length h)) [] h v.

(** What a library call returns or throws. *)
Definition of_call {A : Type} (r : exn + A) : outcome A :=
  match r with
  | inl e => Throw e
  | inr a => Ret a
  end.

(** ** Statements that mutate the store *)

(** A statement inside the [try] block of a node: it runs on the store and
    either comes to its end ([true]) or throws ([false]); what it wrote before
    it threw stays written. [None]: out of fuel. *)
Definition step : Type := heap -> option (heap * bool).

Definition skip : step := fun h => Some (h, true).
Definition thrown : step := fun h => Some (h, false).

Definition and_then (a b : step) : step :=
  fun h =>
    match a h with
    | Some (h1, true) => b h1
    | r => r
    end.

Infix ";;;" := and_then (at level 65, right associativity).

Fixpoint for_each {A : Type} (f : A -> step) (xs : list A) : step :=
  match xs with
  | [] => skip
  | x :: rest => f x ;;; for_each f rest
  end.

(** [o.key = v] for the object at [l]. *)
Definition assign (l : nat) (key : string) (v : value) : step :=
  fun h => Some (set_prop h l key v, true).

(** [arr.forEach(f)]: a [TypeError] unless [arr] is an array. *)
Definition array_forEach (arr : value) (f : value -> step) : step :=
  fun h =>
    match arr with
    | VRef la =>
        match h !! la with
        | Some (Arr elems _) => for_each f elems h
        | _ => thrown h
        end
    | _ => thrown h
    end.

Definition placeholder : value := VStr "placeholder".

(** [quasi.value.raw = "placeholder"; quasi.value.cooked = "placeholder"]:
    a [TypeError] unless [quasi.value] is an object (the module is compiled
    in strict mode, where a property of a primitive cannot be created). *)
Definition set_quasi (quasi : value) : step :=
  fun h =>
    match get_prop h quasi "value" with
    | VRef lv =>
        match h !! lv with
        | Some _ =>
            (assign lv "raw" placeholder ;;; assign lv "cooked" placeholder) h
        | None => thrown h
        end
    | _ => thrown h
    end.

Definition array_elems (o : object) : list value :=
  match o with
  | Obj _ => []
  | Arr elems _ => elems
  end.

(** [Object.keys(n).forEach((key) => { if (typeof n[key] === "object")
    traverse(n[key]); })] for the object at [l]: the keys are those [n] has
    when the loop starts, and [n[key]] is read when its turn comes. *)
Definition generic_descent (visit : value -> step) (l : nat) : step :=
  fun h =>
    match h !! l with
    | Some o =>
        (for_each (fun v => if is_object v then visit v else skip)
           (array_elems o) ;;;
         for_each
           (fun key h =>
              let v := get_prop h (VRef l) key in
              if is_object v then visit v h else skip h)
           (map fst (named_props o))) h
    | None => skip h
    end.

(** The [try] block of [traverse] in [normalizeAST] for the object at [l];
    [visit] is the recursive call. *)
Definition node_body (visit : value -> step) (l : nat) : step :=
  fun h =>
    let n := VRef l in
    let visit_prop (key : string) : step :=
      fun h => visit (get_prop h n key) h in
    let forEach_prop (key : string) (f : value -> step) : step :=
      fun h => array_forEach (get_prop h n key) f h in
    ((if has_type h n "Identifier" then
        assign l "name" placeholder
      else if has_type h n "Literal" || has_type h n "StringLiteral" then
        assign l "value" placeholder
      else if has_type h n "TemplateLiteral" && truthy (get_prop h n "quasis")
      then
        forEach_prop "quasis" set_quasi ;;; forEach_prop "expressions" visit
      else if has_type h n "BinaryExpression" then
        visit_prop "left" ;;; visit_prop "right"
      else if has_type h n "CallExpression" then
        visit_prop "callee" ;;; forEach_prop "arguments" visit
      else if has_type h n "ReturnStatement" then
        visit_prop "argument"
      else if has_type h n "IfStatement" then
        visit_prop "test" ;;; visit_prop "consequent" ;;;
        (fun h =>
           if truthy (get_prop h n "alternate")
           then visit_prop "alternate" h else skip h)
      else skip) ;;;
     generic_descent visit l) h.

(** The inner function [traverse] of [normalizeAST]. It never throws: the
    [catch] of each node logs the error and returns, with the node as far as
    it was rewritten. *)
Fixpoint normalize_traverse (fuel : nat) (h : heap) (n : value) : option heap :=
  match fuel with
  | 0 => None
  | S fuel' =>
      match n with
      | VRef l =>
          let visit (v : value) : step :=
            fun h =>
              match normalize_traverse fuel' h v with
              | Some h' => Some (h', true)
              | None => None
              end in
          match node_body visit l h with
          | Some (h', _) => Some h'
          | None => None
          end
      | _ => Some h
      end
  end.

(** ** Strings *)

(** White space [trim] removes, among the characters of one byte. *)
Definition is_space (c : ascii) : bool :=
  let n := nat_of_ascii c in
  ((9 <=? n)%nat && (n <=? 13)%nat) || (n =? 32)%nat.

Fixpoint trimStart (s : string) : string :=
  match s with
  | EmptyString => EmptyString
  | String c rest => if is_space c then trimStart rest else s
  end.

Fixpoint trimEnd (s : string) : string :=
  match s with
  | EmptyString => EmptyString
  | String c rest =>
      match trimEnd rest with
      | EmptyString => if is_space c then EmptyString else String c EmptyString
      | rest' => String c rest'
      end
  end.

Definition trim (s : string) : string := trimEnd (trimStart s).

(** [[a, b].sort()]: the default order of [sort] is that of the code units. *)
Definition sort2 (a b : string) : list string :=
  if String.ltb b a then [b; a] else [a; b].

(** [parts.join(sep)]. *)
Definition join (sep : string) (parts : list string) : string :=
  String.concat sep parts.

(** ** Programs on the store *)

Definition prog (A : Type) : Type := heap -> heap * outcome A.

Definition prog_ret {A : Type} (a : A) : prog A := fun h => (h, Ret a).

Definition prog_bind {A B : Type} (m : prog A) (k : A -> prog B) : prog B :=
  fun h =>
    match m h with
    | (h1, Ret a) => k a h1
    | (h1, Throw e) => (h1, Throw e)
    | (h1, OutOfFuel) => (h1, OutOfFuel)
    end.

Notation "'run' x ':=' m 'in' k" := (prog_bind m (fun x => k))
  (at level 10, x pattern, m at level 100, k at level 200).

Definition prog_lift {A : Type} (m : heap -> outcome A) : prog A :=
  fun h => (h, m h).

(** [xs.forEach(x => { acc = body(x, acc) })] with a body that may throw. *)
Fixpoint prog_fold {A S : Type} (body : A -> S -> prog S) (xs : list A) (acc : S)
  : prog S :=
  match xs with
  | [] => prog_ret acc
  | x :: rest => run acc' := body x acc in prog_fold body rest acc'
  end.

(** ** The results *)

(** An entry of [hashes] in [findExactDuplicates]. *)
Record exact_entry : Type := { e_code : string; e_files : list string }.

(** [{ function, files }]. *)
Record exact_group : Type := { g_function : string; g_files : list string }.

(** [{ code, file }]. *)
Record func : Type := { f_code : string; f_file : string }.

(** [{ function, similarity, files }]. *)
Record near_match : Type :=
  { m_function : string; m_similarity : Q; m_files : list string }.

(** [{ function, file, matches }]. *)
Record near_result : Type :=
  { r_function : string; r_file : string; r_matches : list near_match }.

(** [{ file, function }]. *)
Record original : Type := { o_file : string; o_function : string }.

(** [{ normalizedFunction, originalFunctions }]. *)
Record structural_group : Type :=
  { normalizedFunction : string; originalFunctions : list original }.

(** ** The engine *)

Section Engine.

(** The libraries the engine calls. *)
Variable parse : string -> exn + json.
Variable generate : json -> exn + string.
Variable hashCode : string -> string.
Variable compareTwoStrings : string -> string -> Q.

(** [generate(node, { comments: false }).code]. The generator reads the tree
    below [node]; on a structure that contains itself its recursion has no
    end. *)
Definition nodeToString (h : heap) (node : value) : outcome string :=
  match stringify h node with
  | Ret (Some t) => of_call (generate t)
  | Ret None => Throw (TypeError "generate: not a node")
  | Throw _ => OutOfFuel
  | OutOfFuel => OutOfFuel
  end.

(** [node.type] is one of the three kinds of function. *)
Definition is_function_node (h : heap) (node : value) : bool :=
  has_type h node "FunctionDeclaration"
  || has_type h node "FunctionExpression"
  || has_type h node "ArrowFunctionExpression".

(** The values of the properties of [node], for [Object.keys(node)]. *)
Definition node_values (h : heap) (node : value) : list value :=
  match node with
  | VRef l => match h !! l with Some o => obj_values o | None => [] end
  | _ => []
  end.

(** The inner function [traverse] of [extractFunctions]; [functions] is the
    array it pushes to. There is no bound on the depth and no set of visited
    nodes: the recursion follows every property that is an object. *)
Fixpoint extract_traverse (fuel : nat) (h : heap) (node : value)
  (functions : list string) : outcome (list string) :=
  match fuel with
  | 0 => OutOfFuel
  | S fuel' =>
      if negb (truthy node) then Ret functions
      else
        let* functions1 :=
          (if is_function_node h node
           then let* code := nodeToString h node in Ret (functions ++ [code])
           else Ret functions) in
        (fix each (vs : list value) (functions : list string)
           : outcome (list string) :=
           match vs with
           | [] => Ret functions
           | v :: rest =>
               if is_object v
               then let* functions' := extract_traverse fuel' h v functions in
                    each rest functions'
               else each rest functions
           end) (node_values h node) functions1
  end.

Definition extractFunctions (fuel : nat) (h : heap) (ast : value)
  : outcome (list string) :=
  extract_traverse fuel h ast [].

(** [normalizeAST]: the tree is cloned through JSON, the clone is rewritten
    in place and rendered; whatever is thrown on the way is caught, and the
    result is then the empty string. *)
Definition normalizeAST (node : value) : prog string :=
  fun h =>
    match stringify h node with
    | Ret (Some t) =>
        let '(h1, clonedNode) := alloc t h in
        match normalize_traverse (S (length h1)) h1 clonedNode with
        | Some h2 =>
            match nodeToString h2 clonedNode with
            | Ret code => (h2, Ret code)
            | Throw _ => (h2, Ret "")
            | OutOfFuel => (h2, OutOfFuel)
            end
        | None => (h1, OutOfFuel)
        end
    | Ret None => (h, Ret "")
    | Throw _ => (h, Ret "")
    | OutOfFuel => (h, OutOfFuel)
    end.

(** [parse(text, { sourceType: "module", plugins: ["typescript", "jsx"] })]:
    the tree is made of new objects. *)
Definition parse_text (text : string) : prog value :=
  fun h =>
    match parse text with
    | inl e => (h, Throw e)
    | inr t => let '(h1, ast) := alloc t h in (h1, Ret ast)
    end.

(** [parse(fileMap[file], ...)]; the parser throws on an input that is no
    string. *)
Definition parse_file (fileMap : gmap string string) (file : string)
  : prog value :=
  match fileMap !! file with
  | Some text => parse_text text
  | None => fun h => (h, Throw (TypeError "parse: the input is undefined"))
  end.

(** [extractFunctions(ast)] on a tree that was just parsed: it is the last
    object of the store, and the fuel is more than the store is long. *)
Definition extract (ast : value) : prog (list string) :=
  prog_lift (fun h => extractFunctions (S (S (length h))) h ast).

(** *** Exact duplicates *)

(** The callback of [extractFunctions(ast).forEach] in
    [findExactDuplicates]. The keys of [hashes] are SHA-256 digests in
    hexadecimal: none is an array index or a name of [Object.prototype], so
    [Object.values] lists the entries in the order they were added. *)
Definition record_exact (file : string) (hashes : list (string * exact_entry))
  (func : string) : list (string * exact_entry) :=
  let funcCode := trim func in
  let hash := hashCode funcCode in
  let hashes1 :=
    match assoc hash hashes with
    | None => assoc_set hash {| e_code := funcCode; e_files := [] |} hashes
    | Some _ => hashes
    end in
  match assoc hash hashes1 with
  | Some entry =>
      if bool_decide (file ∈ e_files entry) then hashes1
      else assoc_set hash
             {| e_code := e_code entry; e_files := e_files entry ++ [file] |}
             hashes1
  | None => hashes1
  end.

(** The callback of [files.forEach] in [findExactDuplicates]. *)
Definition exact_file (fileMap : gmap string string) (file : string)
  (hashes : list (string * exact_entry)) : prog (list (string * exact_entry)) :=
  run ast := parse_file fileMap file in
  run functions := extract ast in
  prog_ret (fold_left (record_exact file) functions hashes).

Definition exact_table (files : list string) (fileMap : gmap string string)
  : prog (list (string * exact_entry)) :=
  prog_fold (exact_file fileMap) files [].

Definition exact_groups (hashes : list (string * exact_entry))
  : list exact_group :=
  map (fun entry => {| g_function := e_code entry; g_files := e_files entry |})
    (filter (fun entry => 1 < length (e_files entry)) (map snd hashes)).

Definition findExactDuplicates (files : list string)
  (fileMap : gmap string string) : prog (list exact_group) :=
  run hashes := exact_table files fileMap in
  prog_ret (exact_groups hashes).

(** *** Near duplicates *)

(** The callback of [files.forEach] in [findNearDuplicates]. *)
Definition near_file (fileMap : gmap string string) (file : string)
  (functions : list func) : prog (list func) :=
  run ast := parse_file fileMap file in
  run extracted := extract ast in
  prog_ret
    (fold_left
       (fun functions func =>
          functions ++ [{| f_code := trim func; f_file := file |}])
       extracted functions).

(** [groupFunctionsBySize]; a [Map] lists its values in the order their keys
    were first set. *)
Definition groupFunctionsBySize (functions : list func)
  : list (nat * list func) :=
  fold_left
    (fun grouped func =>
       let size := String.length (f_code func) in
       let bucket := (size / 100)%nat in
       let grouped1 :=
         match assoc bucket grouped with
         | None => assoc_set bucket [] grouped
         | Some _ => grouped
         end in
       match assoc bucket grouped1 with
       | Some members => assoc_set bucket (members ++ [func]) grouped1
       | None => grouped1
       end)
    functions [].

(** [[group[i].file, group[j].file].sort().join(":") + ":" + group[i].code]. *)
Definition pairKey (gi gj : func) : string :=
  join ":" (sort2 (f_file gi) (f_file gj)) +:+ ":" +:+ f_code gi.

(** The body of [for (let j = 0; j < group.length; j++)]. *)
Definition near_inner (threshold : Q) (group : list func) (i : nat)
  (st : list near_match * gset string) (j : nat)
  : list near_match * gset string :=
  let '(matches, seenPairs) := st in
  if bool_decide (i ≠ j) then
    match group !! i, group !! j with
    | Some gi, Some gj =>
        let sim := compareTwoStrings (f_code gi) (f_code gj) in
        if Qle_bool threshold sim then
          let key := pairKey gi gj in
          if bool_decide (key ∈ seenPairs) then (matches, seenPairs)
          else
            (matches ++
               [{| m_function := f_code gj; m_similarity := sim;
                   m_files := [f_file gj] |}],
             {[key]} ∪ seenPairs)
        else (matches, seenPairs)
    | _, _ => (matches, seenPairs)
    end
  else (matches, seenPairs).

(** The body of [for (let i = 0; i < group.length; i++)]. *)
Definition near_outer (threshold : Q) (group : list func)
  (st : list near_result * gset string) (i : nat)
  : list near_result * gset string :=
  let '(results, seenPairs) := st in
  let '(matches, seenPairs') :=
    fold_left (near_inner threshold group i) (seq 0 (length group))
      ([], seenPairs) in
  match group !! i with
  | Some gi =>
      if (0 <? length matches)%nat then
        (results ++
           [{| r_function := f_code gi; r_file := f_file gi;
               r_matches := matches |}],
         seenPairs')
      else (results, seenPairs')
  | None => (results, seenPairs')
  end.

(** The callback of [Array.from(grouped.values()).forEach]. *)
Definition near_group (threshold : Q) (st : list near_result * gset string)
  (group : list func) : list near_result * gset string :=
  fold_left (near_outer threshold group) (seq 0 (length group)) st.

(** The comparison of the functions, once they are extracted. *)
Definition near_compare (threshold : Q) (functions : list func)
  : list near_result :=
  let grouped := groupFunctionsBySize functions in
  fst (fold_left (near_group threshold) (map snd grouped) ([], ∅)).

Definition near_functions (files : list string) (fileMap : gmap string string)
  : prog (list func) :=
  prog_fold (near_file fileMap) files [].

Definition findNearDuplicates (files : list string)
  (fileMap : gmap string string) (threshold : Q) : prog (list near_result) :=
  run functions := near_functions files fileMap in
  prog_ret (near_compare threshold functions).

(** The default value of [threshold], [0.8]. *)
Definition default_threshold : Q := 8 # 10.

(** *** Structural duplicates *)

(** What [normalizedHashes] gains from one function, given its normalized
    code. *)
Definition record_structural (file originalFunction normalizedCode : string)
  (normalizedHashes : list (string * structural_group))
  : list (string * structural_group) :=
  let hash := hashCode normalizedCode in
  let hashes1 :=
    match assoc hash normalizedHashes with
    | None =>
        assoc_set hash
          {| normalizedFunction := normalizedCode; originalFunctions := [] |}
          normalizedHashes
    | Some _ => normalizedHashes
    end in
  match assoc hash hashes1 with
  | Some entry =>
      assoc_set hash
        {| normalizedFunction := normalizedFunction entry;
           originalFunctions :=
             originalFunctions entry ++
               [{| o_file := file; o_function := originalFunction |}] |}
        hashes1
  | None => hashes1
  end.

(** The callback of [functions.forEach] in [findStructuralDuplicates]: the
    [try] block, and the [catch] that logs the error and goes on. *)
Definition structural_function (file : string) (originalFunction : string)
  (normalizedHashes : list (string * structural_group))
  : prog (list (string * structural_group)) :=
  fun h =>
    match
      (run ast := parse_text originalFunction in
       run normalizedCode := normalizeAST ast in
       if String.eqb normalizedCode "" then prog_ret normalizedHashes
       else
         prog_ret
           (record_structural file originalFunction normalizedCode
              normalizedHashes)) h
    with
    | (h1, Throw _) => (h1, Ret normalizedHashes)
    | r => r
    end.

(** The callback of [files.forEach] in [findStructuralDuplicates]. *)
Definition structural_file (fileMap : gmap string string) (file : string)
  (normalizedHashes : list (string * structural_group))
  : prog (list (string * structural_group)) :=
  run ast := parse_file fileMap file in
  run functions := extract ast in
  prog_fold (structural_function file) functions normalizedHashes.

Definition structural_table (files : list string)
  (fileMap : gmap string string) : prog (list (string * structural_group)) :=
  prog_fold (structural_file fileMap) files [].

Definition structural_groups (normalizedHashes : list (string * structural_group))
  : list structural_group :=
  filter (fun entry => 1 < length (originalFunctions entry))
    (map snd normalizedHashes).

Definition findStructuralDuplicates (files : list string)
  (fileMap : gmap string string) : prog (list structural_group) :=
  run normalizedHashes := structural_table files fileMap in
  prog_ret (structural_groups normalizedHashes).

(** *** What the structural finder records *)

(** The functions [findStructuralDuplicates] does not skip, in the order it
    meets them, each with its normalized code: the walk over the files and
    their functions is that of [structural_table], and what it keeps is the
    list instead of the table. *)
Definition occurrences_function (file : string) (originalFunction : string)
  (occs : list (string * original)) : prog (list (string * original)) :=
  fun h =>
    match
      (run ast := parse_text originalFunction in
       run normalizedCode := normalizeAST ast in
       if String.eqb normalizedCode "" then prog_ret occs
       else
         prog_ret
           (occs ++
              [(normalizedCode,
                {| o_file := file; o_function := originalFunction |})])) h
    with
    | (h1, Throw _) => (h1, Ret occs)
    | r => r
    end.

Definition occurrences_file (fileMap : gmap string string) (file : string)
  (occs : list (string * original)) : prog (list (string * original)) :=
  run ast := parse_file fileMap file in
  run functions := extract ast in
  prog_fold (occurrences_function file) functions occs.

Definition occurrences (files : list string) (fileMap : gmap string string)
  : prog (list (string * original)) :=
  prog_fold (occurrences_file fileMap) files [].

(** The occurrences whose normalized code has the digest [hash]. *)
Definition with_hash (hash : string) (occs : list (string * original))
  : list (string * original) :=
  filter (fun occ => hashCode occ.1 = hash) occs.

(** The group of a digest: the normalized code of its first occurrence, and
    the originals of all its occurrences. *)
Definition group_of (hash : string) (occs : list (string * original))
  : option structural_group :=
  match with_hash hash occs with
  | [] => None
  | (code, _) :: _ =>
      Some {| normalizedFunction := code;
              originalFunctions := map snd (with_hash hash occs) |}
  end.

(** *** What the near finder reports *)

(** The key of a reported match, from the entry it is listed under: the two
    files sorted, and the function of the entry. *)
Definition match_key (e_file e_function : string) (m : near_match) : string :=
  join ":" (sort2 e_file (default "" (head (m_files m)))) +:+ ":" +:+ e_function.

(** The keys of all reported matches, in the order of the report. *)
Definition result_keys (results : list near_result) : list string :=
  flat_map
    (fun e => map (match_key (r_file e) (r_function e)) (r_matches e)) results.

(** The match that is pushed for the pair of [gi] and [gj]. *)
Definition match_of (gi gj : func) : near_match :=
  {| m_function := f_code gj;
     m_similarity := compareTwoStrings (f_code gi) (f_code gj);
     m_files := [f_file gj] |}.

(** [gi] and [gj] are at two different places of [group] and their
    similarity reaches the threshold. *)
Definition similar_pair (threshold : Q) (group : list func) (gi gj : func)
  : Prop :=
  exists i j, i <> j /\ group !! i = Some gi /\ group !! j = Some gj /\
    Qle_bool threshold (compareTwoStrings (f_code gi) (f_code gj)) = true.

(** *** The arguments in the store *)

(** The caller holds [files] as an array of strings and [fileMap] as an
    object whose properties are strings; the finders read both and take their
    contents from there. *)
Definition files_of (h : heap) (files : value) : option (list string) :=
  match files with
  | VRef l =>
      match h !! l with
      | Some (Arr elems _) =>
          mapM (fun v => match v with VStr s => Some s | _ => None end) elems
      | _ => None
      end
  | _ => None
  end.

Definition fileMap_of (h : heap) (fileMap : value) : option (gmap string string) :=
  match fileMap with
  | VRef l =>
      match h !! l with
      | Some (Obj props) =>
          list_to_map <$>
            mapM (fun kv => match kv.2 with
                            | VStr s => Some (kv.1, s)
                            | _ => None
                            end) props
      | _ => None
      end
  | _ => None
  end.

(** A finder called on arguments of the store. *)
Definition call {A : Type}
  (finder : list string -> gmap string string -> prog A)
  (files fileMap : value) : prog A :=
  fun h =>
    match files_of h files, fileMap_of h fileMap with
    | Some fs, Some fm => finder fs fm h
    | _, _ => (h, Throw (TypeError "files is no array of strings"))
    end.

(** *** What the proofs say of the walker *)

(** The renderings of [nodes], pushed to [functions] one after the other;
    the first error of the renderer ends it. *)
Fixpoint render_into (functions : list string) (nodes : list json)
  : outcome (list string) :=
  match nodes with
  | [] => Ret functions
  | t :: rest =>
      let* code := of_call (generate t) in
      render_into (functions ++ [code]) rest
  end.

(** *** What the proofs say of the loops *)

(** The table is the list of the occurrences, recorded one after the other. *)
Definition table_of (occs : list (string * original))
  : list (string * structural_group) :=
  fold_left
    (fun table occ =>
       record_structural (o_file occ.2) (o_function occ.2) occ.1 table)
    occs [].

(** What holds inside the loop over [j], for the entry of [gi] at [i]:
    the keys reported so far are all different, [seenPairs] holds exactly
    them, and every match stands for a pair of [group] that reaches the
    threshold. *)
Definition inner_invariant (threshold : Q) (group : list func) (i : nat)
  (gi : func) (results : list near_result)
  (st : list near_match * gset string) : Prop :=
  NoDup (result_keys results ++ map (match_key (f_file gi) (f_code gi)) st.1) /\
  (forall k, k ∈ st.2 <->
     k ∈ result_keys results ++ map (match_key (f_file gi) (f_code gi)) st.1) /\
  Forall
    (fun m => exists j gj, i <> j /\ group !! j = Some gj /\
       m = match_of gi gj /\
       Qle_bool threshold (compareTwoStrings (f_code gi) (f_code gj)) = true)
    st.1.

(** What holds between two entries: the keys reported so far are all
    different, [seenPairs] holds exactly them, and every reported match
    stands for a pair of one of the groups in [G] that reaches the threshold. *)
Definition outer_invariant (threshold : Q) (G : list func -> Prop)
  (st : list near_result * gset string) : Prop :=
  NoDup (result_keys st.1) /\
  (forall k, k ∈ st.2 <-> k ∈ result_keys st.1) /\
  Forall
    (fun e => Forall
       (fun m => exists group gi gj, G group /\
          similar_pair threshold group gi gj /\
          r_function e = f_code gi /\ r_file e = f_file gi /\
          m = match_of gi gj)
       (r_matches e))
    st.1.

End Engine.

(** ** Stand-ins for the libraries, for the examples *)

Module Demo.

(** A renderer: it writes every property of the tree it is given, and
    throws on what is no object. *)
Fixpoint show (t : json) : string :=
  match t with
  | JNull => "null"
  | JBool b => if b then "true" else "false"
  | JNum q => pretty (Qnum q) +:+ "/" +:+ pretty (Zpos (Qden q))
  | JStr s => "'" +:+ s +:+ "'"
  | JArr elems =>
      "[" +:+ (fix each (ts : list json) : string :=
                match ts with
                | [] => ""
                | t :: rest => show t +:+ ";" +:+ each rest
                end) elems +:+ "]"
  | JObj props =>
      "{" +:+ (fix each (ps : list (string * json)) : string :=
                match ps with
                | [] => ""
                | (k, t) :: rest => k +:+ ":" +:+ show t +:+ ";" +:+ each rest
                end) props +:+ "}"
  end.

Definition generate (t : json) : exn + string :=
  match t with
  | JObj _ => inr (show t)
  | _ => inl (RenderError "not a node")
  end.

(** Trees as the parser shapes them (positions left out). *)
Definition node (type : string) (props : list (string * json)) : json :=
  JObj (("type", JStr type) :: props).

Definition identifier (name : string) : json :=
  node "Identifier" [("name", JStr name)].

Definition returns (argument : json) : json :=
  node "ReturnStatement" [("argument", argument)].

Definition function_declaration (name : string) (body : list json) : json :=
  node "FunctionDeclaration"
    [("id", identifier name);
     ("params", JArr []);
     ("body", node "BlockStatement" [("body", JArr body)])].

Definition file_of (body : list json) : json :=
  node "File" [("program", node "Program" [("body", JArr body)])].

(** [function f() { return 1; }], [function g() { return 2; }]: the same
    shape, another name and another number. *)
Definition return_1 : json :=
  function_declaration "f" [returns (node "NumericLiteral" [("value", JNum 1)])].
Definition return_2 : json :=
  function_declaration "g" [returns (node "NumericLiteral" [("value", JNum 2)])].

(** [function f() { return 'a'; }], [function g() { return 'b'; }]. *)
Definition return_a : json :=
  function_declaration "f" [returns (node "StringLiteral" [("value", JStr "a")])].
Definition return_b : json :=
  function_declaration "g" [returns (node "StringLiteral" [("value", JStr "b")])].

(** [function name() { return make<T>(); }]: a call with a type argument
    and no arguments. The identifier of the type argument is under
    [typeParameters], which the walker of [normalizeAST] reaches by the
    descent over the properties of the call only. *)
Definition typed_call (name typeName : string) : json :=
  function_declaration name
    [returns
       (node "CallExpression"
          [("callee", identifier "make");
           ("arguments", JArr []);
           ("typeParameters",
            node "TSTypeParameterInstantiation"
              [("params",
                JArr [node "TSTypeReference"
                        [("typeName", identifier typeName)]])])])].

(** The functions of the examples, and the texts they are written as. *)
Definition functions : list json :=
  [return_1; return_2; return_a; return_b;
   typed_call "a" "T"; typed_call "b" "T";
   typed_call "c" "U"].

Definition sources : list (string * json) :=
  [("function f() { return 1; }", file_of [return_1]);
   ("function g() { return 2; }", file_of [return_2]);
   ("function f() { return 'a'; }", file_of [return_a]);
   ("function g() { return 'b'; }", file_of [return_b]);
   ("function f() { return 1; } function f() { return 1; }",
    file_of [return_1; return_1]);
   ("function a() { return make<T>(); }", file_of [typed_call "a" "T"]);
   ("function b() { return make<T>(); }", file_of [typed_call "b" "T"]);
   ("function c() { return make<U>(); }", file_of [typed_call "c" "U"])]
  ++ map (fun f => (show f, file_of [f])) functions.

(** A parser: it knows the texts of [sources], and throws on any other. *)
Definition parse (text : string) : exn + json :=
  match assoc text sources with
  | Some t => inr t
  | None => inl (ParseError "Unexpected token")
  end.

(** A digest without collisions. *)
Definition hashCode (content : string) : string := content.

Fixpoint without_spaces (s : string) : string :=
  match s with
  | EmptyString => EmptyString
  | String c rest =>
      if is_space c then without_spaces rest else String c (without_spaces rest)
  end.

(** A similarity: [1] for texts that are the same up to white space (as the
    library gives), [0] for the others. *)
Definition compareTwoStrings (first second : string) : Q :=
  if String.eqb (without_spaces first) (without_spaces second) then 1 else 0.

(** The files of the examples. *)
Definition fileMap : gmap string string :=
  list_to_map
    [("a.js", "function f() { return 1; }");
     ("b.js", "function g() { return 2; }");
     ("c.js", "function f() { return 'a'; }");
     ("d.js", "function g() { return 'b'; }");
     ("e.js", "function f() { return 1; }");
     ("twice.js", "function f() { return 1; } function f() { return 1; }");
     ("t1.js", "function a() { return make<T>(); }");
     ("t2.js", "function b() { return make<T>(); }");
     ("t3.js", "function c() { return make<U>(); }");
     ("bad.js", "function (")].

(** An object that is its own [body]. *)
Definition cyclic_store : heap :=
  [Obj [("type", VStr "Program"); ("body", VRef 0)]].

(** Four functions of one size bucket, each like the others up to white
    space. *)
Definition fA : func := {| f_code := "x y"; f_file := "f1" |}.
Definition fB : func := {| f_code := "xy"; f_file := "f2" |}.
Definition fD : func := {| f_code := "x  y"; f_file := "f1" |}.
Definition fC : func := {| f_code := "x  y"; f_file := "f2" |}.

End Demo.

(** ** The vocabulary of the properties *)

(** [v] is a primitive, or a reference into the part [base, bound) of the
    store. *)
Definition val_in (base bound : nat) (v : value) : Prop :=
  match v with
  | VRef l => base <= l < bound
  | _ => True
  end.

(** From [base] on, the store holds trees: an object refers only to objects
    that were made before it, and none from before [base]. *)
Definition ordered (base : nat) (h : heap) : Prop :=
  forall l o, base <= l -> h !! l = Some o -> Forall (val_in base l) (obj_values o).

(** [h'] has every object of [h], unchanged. *)
Definition preserves (h h' : heap) : Prop :=
  forall l, l < length h -> h' !! l = h !! l.

(** A statement is safe on a store that holds trees from [base] on when it
    comes to an end there (or throws), keeps the trees, and writes no object
    from before [base]. *)
Definition safe_at (base : nat) (s : step) (h : heap) : Prop :=
  ordered base h ->
  exists h' ok, s h = Some (h', ok) /\
    length h' = length h /\ ordered base h' /\
    (forall l, l < base -> h' !! l = h !! l).

(** A program is well behaved when it leaves every object that was in the
    store as it was, and comes to an end. *)
Definition well_behaved {A : Type} (m : prog A) : Prop :=
  forall h, preserves h (m h).1 /\ (m h).2 <> OutOfFuel.

(** The store kept what the caller passed. *)
Definition kept (h h' : heap) (files fileMap : value) : Prop :=
  preserves h h' /\
  files_of h' files = files_of h files /\
  fileMap_of h' fileMap = fileMap_of h fileMap.

(** What holds of [hashes] all along: one entry for a digest, and a file at
    most once in an entry. *)
Definition exact_invariant (hashes : list (string * exact_entry)) : Prop :=
  NoDup (map fst hashes) /\
  Forall (fun kv => NoDup (e_files kv.2)) hashes.

(** Two programs that run alike: the same store, and results that are
    related. *)
Definition alike {S T : Type} (R : S -> T -> Prop) (r1 : heap * outcome S)
  (r2 : heap * outcome T) : Prop :=
  r1.1 = r2.1 /\
  match r1.2, r2.2 with
  | Ret a, Ret b => R a b
  | Throw e1, Throw e2 => e1 = e2
  | OutOfFuel, OutOfFuel => True
  | _, _ => False
  end.

(** The bucket of a function: [Math.floor(func.code.length / 100)]. *)
Definition bucket_of (f : func) : nat := (String.length (f_code f) / 100)%nat.

(** The kind of a tree is one of the three kinds of function. *)
Definition is_function_tree (t : json) : bool :=
  match t with
  | JObj props =>
      match assoc "type" props with
      | Some (JStr s) =>
          String.eqb s "FunctionDeclaration"
          || String.eqb s "FunctionExpression"
          || String.eqb s "ArrowFunctionExpression"
      | _ => false
      end
  | _ => false
  end.

(** The function-like subtrees of a tree, depth first: a node before what
    is below it, the properties in their order. *)
Fixpoint function_nodes (t : json) : list json :=
  match t with
  | JObj props =>
      (if is_function_tree t then [t] else []) ++
      (fix each (ps : list (string * json)) : list json :=
         match ps with
         | [] => []
         | (_, t') :: rest => function_nodes t' ++ each rest
         end) props
  | JArr elems =>
      (fix each (ts : list json) : list json :=
         match ts with
         | [] => []
         | t' :: rest => function_nodes t' ++ each rest
         end) elems
  | _ => []
  end.

(** A computation that has no end: no fuel is enough. *)
Definition never_ends {A : Type} (run_with : nat -> outcome A) : Prop :=
  forall fuel, run_with fuel = OutOfFuel.

(** ** Canonical trees *)

(** The tree of ["placeholder"]. *)
Definition jplaceholder : json := JStr "placeholder".

(** [props.type === name], on a tree. *)
Definition type_is (props : list (string * json)) (name : string) : bool :=
  match assoc "type" props with
  | Some (JStr s) => String.eqb s name
  | _ => false
  end.

(** [truthy] on the tree of a property; [None] is a property the node does
    not have. *)
Definition json_truthy (t : option json) : bool :=
  match t with
  | None | Some JNull => false
  | Some (JBool b) => b
  | Some (JNum q) => negb (Qeq_bool q 0)
  | Some (JStr s) => negb (String.eqb s "")
  | Some _ => true
  end.

Definition map_values {A B : Type} (f : A -> B) (props : list (string * A))
  : list (string * B) :=
  map (fun kv => (kv.1, f kv.2)) props.

(** An element of a template with both its texts replaced. *)
Definition canon_quasi (quasi : json) : json :=
  match quasi with
  | JObj props =>
      match assoc "value" props with
      | Some (JObj value) =>
          JObj (assoc_set "value"
                  (JObj (assoc_set "cooked" jplaceholder
                           (assoc_set "raw" jplaceholder value)))
                  props)
      | _ => quasi
      end
  | _ => quasi
  end.

(** What is replaced at a node, by its kind: the name of an identifier, the
    value of a [Literal] or [StringLiteral], the texts of a template. *)
Definition canon_node (props : list (string * json)) : list (string * json) :=
  if type_is props "Identifier" then assoc_set "name" jplaceholder props
  else if type_is props "Literal" || type_is props "StringLiteral" then
    assoc_set "value" jplaceholder props
  else if type_is props "TemplateLiteral" then
    match assoc "quasis" props with
    | Some (JArr quasis) =>
        assoc_set "quasis" (JArr (map canon_quasi quasis)) props
    | _ => props
    end
  else props.

(** The canonical tree: every node of the tree with its names and texts
    replaced, and nothing else changed. *)
Fixpoint canon (t : json) : json :=
  match t with
  | JArr elems => JArr (map canon elems)
  | JObj props => JObj (canon_node (map_values canon props))
  | _ => t
  end.

(** An element of a template as the parser makes it: a [TemplateElement]
    whose [value] is an object that is no node. *)
Definition quasi_ok (quasi : json) : bool :=
  match quasi with
  | JObj props =>
      type_is props "TemplateElement" &&
      match assoc "value" props with
      | Some (JObj value) =>
          match assoc "type" value with None => true | Some _ => false end
      | _ => false
      end
  | _ => false
  end.

(** The properties the walk of [normalizeAST] calls [forEach] on are arrays:
    the [quasis] (when there are any) and [expressions] of a template, the
    [arguments] of a call. *)
Definition node_ok (props : list (string * json)) : bool :=
  (if type_is props "TemplateLiteral" && json_truthy (assoc "quasis" props)
   then
     match assoc "quasis" props, assoc "expressions" props with
     | Some (JArr quasis), Some (JArr _) => forallb quasi_ok quasis
     | _, _ => false
     end
   else true) &&
  (if type_is props "CallExpression" then
     match assoc "arguments" props with
     | Some (JArr _) => true
     | _ => false
     end
   else true).

(** A tree on which the walk of [normalizeAST] throws nowhere: every node has
    a property once, and the arrays it needs. *)
Fixpoint well_formed (t : json) : bool :=
  match t with
  | JArr elems => forallb well_formed elems
  | JObj props =>
      bool_decide (NoDup (map fst props)) && node_ok props &&
      forallb (fun kv => well_formed kv.2) props
  | _ => true
  end.

(** The property [key] after [traverse(n[key])]. *)
Definition visit_child (key : string) (props : list (string * json))
  : list (string * json) :=
  match assoc key props with
  | Some t => assoc_set key (canon t) props
  | None => props
  end.

(** The properties of a node after the first part of the [try] block of
    [traverse] in [normalizeAST], before the descent over all properties. *)
Definition rewrite_node (props : list (string * json)) : list (string * json) :=
  if type_is props "Identifier" then assoc_set "name" jplaceholder props
  else if type_is props "Literal" || type_is props "StringLiteral" then
    assoc_set "value" jplaceholder props
  else if type_is props "TemplateLiteral" && json_truthy (assoc "quasis" props)
  then
    visit_child "expressions"
      match assoc "quasis" props with
      | Some (JArr quasis) =>
          assoc_set "quasis" (JArr (map canon_quasi quasis)) props
      | _ => props
      end
  else if type_is props "BinaryExpression" then
    visit_child "right" (visit_child "left" props)
  else if type_is props "CallExpression" then
    visit_child "arguments" (visit_child "callee" props)
  else if type_is props "ReturnStatement" then visit_child "argument" props
  else if type_is props "IfStatement" then
    visit_child "alternate" (visit_child "consequent" (visit_child "test" props))
  else props.

(** Another name for every identifier and another text for every string and
    template: [rho] maps the old ones to the new ones. *)
Definition relabel_string (rho : string -> string) (key : string)
  (props : list (string * json)) : list (string * json) :=
  match assoc key props with
  | Some (JStr s) => assoc_set key (JStr (rho s)) props
  | _ => props
  end.

Definition relabel_quasi (rho : string -> string) (quasi : json) : json :=
  match quasi with
  | JObj props =>
      match assoc "value" props with
      | Some (JObj value) =>
          JObj (assoc_set "value"
                  (JObj (relabel_string rho "cooked"
                           (relabel_string rho "raw" value)))
                  props)
      | _ => quasi
      end
  | _ => quasi
  end.

Definition relabel_node (rho : string -> string) (props : list (string * json))
  : list (string * json) :=
  if type_is props "Identifier" then relabel_string rho "name" props
  else if type_is props "Literal" || type_is props "StringLiteral" then
    relabel_string rho "value" props
  else if type_is props "TemplateLiteral" then
    match assoc "quasis" props with
    | Some (JArr quasis) =>
        assoc_set "quasis" (JArr (map (relabel_quasi rho) quasis)) props
    | _ => props
    end
  else props.

Fixpoint relabel (rho : string -> string) (t : json) : json :=
  match t with
  | JArr elems => JArr (map (relabel rho) elems)
  | JObj props => JObj (relabel_node rho (map_values (relabel rho) props))
  | _ => t
  end.

(** ** Trees at a place of the store *)

(** [tree_at H lo hi v t]: the value [v] is the tree [t], made of objects of
    [H] at places from [lo] to below [hi]; the parts of a tree lie side by
    side, in their order, below the object that holds them. *)
Inductive tree_at (H : heap) : nat -> nat -> value -> json -> Prop :=
| tree_null lo hi : lo <= hi -> tree_at H lo hi VNull JNull
| tree_bool lo hi b : lo <= hi -> tree_at H lo hi (VBool b) (JBool b)
| tree_num lo hi q : lo <= hi -> tree_at H lo hi (VNum q) (JNum q)
| tree_str lo hi s : lo <= hi -> tree_at H lo hi (VStr s) (JStr s)
| tree_arr lo hi l vs ts :
    l < hi -> H !! l = Some (Arr vs []) -> trees_at H lo l vs ts ->
    tree_at H lo hi (VRef l) (JArr ts)
| tree_obj lo hi l qs ps :
    l < hi -> H !! l = Some (Obj qs) -> props_at H lo l qs ps ->
    tree_at H lo hi (VRef l) (JObj ps)
with trees_at (H : heap) : nat -> nat -> list value -> list json -> Prop :=
| trees_nil lo hi : lo <= hi -> trees_at H lo hi [] []
| trees_cons lo mid hi v t vs ts :
    tree_at H lo mid v t -> trees_at H mid hi vs ts ->
    trees_at H lo hi (v :: vs) (t :: ts)
with props_at (H : heap)
  : nat -> nat -> list (string * value) -> list (string * json) -> Prop :=
| props_nil lo hi : lo <= hi -> props_at H lo hi [] []
| props_cons lo mid hi k v t qs ps :
    tree_at H lo mid v t -> props_at H mid hi qs ps ->
    props_at H lo hi ((k, v) :: qs) ((k, t) :: ps).

Scheme tree_at_ind' := Minimality for tree_at Sort Prop
  with trees_at_ind' := Minimality for trees_at Sort Prop
  with props_at_ind' := Minimality for props_at Sort Prop.
Combined Scheme tree_at_mutind from tree_at_ind', trees_at_ind', props_at_ind'.

(** [H'] is [H] but for the objects from [lo] to below [hi]. *)
Definition changes_within (lo hi : nat) (H H' : heap) : Prop :=
  length H' = length H /\ forall x, ~ lo <= x < hi -> H' !! x = H !! x.

(** A statement on the node at [l], whose parts lie from [lo] on: it comes
    to its end, and the properties [ps] of the node are [ps'] then. *)
Definition acts_on (l lo : nat) (a : step) (ps ps' : list (string * json)) : Prop :=
  forall H qs,
    H !! l = Some (Obj qs) -> props_at H lo l qs ps ->
    exists H' qs',
      a H = Some (H', true) /\ H' !! l = Some (Obj qs') /\
      props_at H' lo l qs' ps' /\ changes_within lo (S l) H H'.

(** A callback that turns a tree [t] with [P t], at a place smaller than
    [m], into [g t] where it stands. *)
Definition turns (m : nat) (f : value -> step) (g : json -> json)
  (P : json -> Prop) : Prop :=
  forall H a b v t,
    tree_at H a b v t -> P t -> b - a < m ->
    exists H', f v H = Some (H', true) /\ tree_at H' a b v (g t) /\
      changes_within a b H H'.


(** ** What the finders work on *)

(** The texts [extractFunctions] gives for the tree of a file: the rendering
    of every function node, or what the parser or the generator throws. *)
Definition file_texts (parse : string -> exn + json)
  (generate : json -> exn + string) (fileMap : gmap string string)
  (file : string) : outcome (list string) :=
  match fileMap !! file with
  | Some text =>
      match parse text with
      | inr t => render_into generate [] (function_nodes t)
      | inl e => Throw e
      end
  | None => Throw (TypeError "parse: the input is undefined")
  end.

(** The records of a file: its texts, trimmed. *)
Definition records_of (file : string) (texts : list string) : list func :=
  map (fun text => {| f_code := trim text; f_file := file |}) texts.

(** The records of all files, file by file. *)
Fixpoint functions_of (parse : string -> exn + json)
  (generate : json -> exn + string) (fileMap : gmap string string)
  (files : list string) (functions : list func) : outcome (list func) :=
  match files with
  | [] => Ret functions
  | file :: rest =>
      let* texts := file_texts parse generate fileMap file in
      functions_of parse generate fileMap rest (functions ++ records_of file texts)
  end.

(** [record_exact] on a text that is trimmed already. *)
Definition record_code (hashCode : string -> string) (file : string)
  (hashes : list (string * exact_entry)) (funcCode : string)
  : list (string * exact_entry) :=
  let hash := hashCode funcCode in
  let hashes1 :=
    match assoc hash hashes with
    | None => assoc_set hash {| e_code := funcCode; e_files := [] |} hashes
    | Some _ => hashes
    end in
  match assoc hash hashes1 with
  | Some entry =>
      if bool_decide (file ∈ e_files entry) then hashes1
      else assoc_set hash
             {| e_code := e_code entry; e_files := e_files entry ++ [file] |}
             hashes1
  | None => hashes1
  end.

(** The table of [findExactDuplicates] for a list of records. *)
Definition exact_of (hashCode : string -> string) (functions : list func)
  : list (string * exact_entry) :=
  fold_left (fun hashes f => record_code hashCode (f_file f) hashes (f_code f))
    functions [].

(** The records whose text has the digest [hash]. *)
Definition same_hash (hashCode : string -> string) (hash : string)
  (functions : list func) : list func :=
  filter (fun f => hashCode (f_code f) = hash) functions.

(** The elements of a list, each at the place it is met first. *)
Definition first_seen (xs : list string) : list string :=
  fold_left (fun seen x => if bool_decide (x ∈ seen) then seen else seen ++ [x])
    xs [].


(** ** The command of the extension ([src/extension.ts]) *)

(** An item of a directory, as [fs.readdirSync(dir, { withFileTypes: true })]
    lists it: a directory ([item.isDirectory()]) with what reading it gives,
    or anything else with what [fs.readFileSync] gives for it. *)
Inductive item : Type :=
| File (name : string) (content : exn + string)
| Directory (name : string) (items : exn + list item).

(** [s.endsWith(ext)]. *)
Definition endsWith (s ext : string) : bool :=
  let n := String.length s in
  let m := String.length ext in
  (m <=? n)%nat && String.eqb (substring (n - m) m s) ext.

Definition extensions : list string := [".js"; ".ts"; ".tsx"; ".jsx"].

(** [extensions.some((ext) => item.name.endsWith(ext))]. *)
Definition wanted (name : string) : bool := existsb (endsWith name) extensions.

Section Extension.

(** [path.join] is not code of the repository. *)
Variable path_join : string -> string -> string.

(** The callback of [items.forEach] in [readFilesRecursively], for the items
    of [dir]; [st] holds [files] and [fileMap]. An error of [fs] ends the
    walk. *)
Fixpoint read_item (dir : string) (it : item)
  (st : list string * gmap string string)
  : exn + list string * gmap string string :=
  match it with
  | Directory name items =>
      let fullPath := path_join dir name in
      match items with
      | inl e => inl e
      | inr items =>
          (fix each (items : list item) (st : list string * gmap string string)
             : exn + list string * gmap string string :=
             match items with
             | [] => inr st
             | it :: rest =>
                 match read_item fullPath it st with
                 | inl e => inl e
                 | inr st' => each rest st'
                 end
             end) items st
      end
  | File name content =>
      let fullPath := path_join dir name in
      if wanted name then
        match content with
        | inl e => inl e
        | inr text => inr (st.1 ++ [fullPath], <[fullPath := text]> st.2)
        end
      else inr st
  end.

(** [items.forEach(...)]. *)
Fixpoint read_items (dir : string) (items : list item)
  (st : list string * gmap string string)
  : exn + list string * gmap string string :=
  match items with
  | [] => inr st
  | it :: rest =>
      match read_item dir it st with
      | inl e => inl e
      | inr st' => read_items dir rest st'
      end
  end.

(** [readFilesRecursively(dir)], where [listing] is what
    [fs.readdirSync(dir, ...)] gives. *)
Definition readFilesRecursively (dir : string) (listing : exn + list item)
  (st : list string * gmap string string)
  : exn + list string * gmap string string :=
  match listing with
  | inl e => inl e
  | inr items => read_items dir items st
  end.

End Extension.

(** What the user sees. *)
Inductive shown : Type :=
| showErrorMessage (message : string)
| showWarningMessage (message : string)
| showInformationMessage (message : string)
| appendLine (channel line : string)
| showChannel (channel : string)
| consoleError (message : string) (error : exn).

(** [results], by the finder that made them. *)
Inductive report : Type :=
| NoResults
| ExactResults (groups : list exact_group)
| NearResults (matches : list near_result)
| StructuralResults (groups : list structural_group).

Section Command.

Variable parse : string -> exn + json.
Variable generate : json -> exn + string.
Variable hashCode : string -> string.
Variable compareTwoStrings : string -> string -> Q.
Variable path_join : string -> string -> string.
Variable error_text : exn -> string.
Variable formatted : report -> string.

(** The [switch] on the choice. *)
Definition analyze (choice : string) (files : list string)
  (fileMap : gmap string string) : prog report :=
  if String.eqb choice "Exact" then
    run groups := findExactDuplicates parse generate hashCode files fileMap in
    prog_ret (ExactResults groups)
  else if String.eqb choice "Near" then
    run matches :=
      findNearDuplicates parse generate compareTwoStrings files fileMap (8 # 10) in
    prog_ret (NearResults matches)
  else if String.eqb choice "Structural" then
    run groups := findStructuralDuplicates parse generate hashCode files fileMap in
    prog_ret (StructuralResults groups)
  else prog_ret NoResults.

Definition channel : string := "Duplicate Code Detector".

(** The callback of [showQuickPick(...).then]. *)
Definition on_choice (choice : option string) (files : list string)
  (fileMap : gmap string string) (h : heap) : list shown :=
  match choice with
  | None => [showWarningMessage "No analysis type selected."]
  | Some choice =>
      if String.eqb choice "" then
        [showWarningMessage "No analysis type selected."]
      else
        showInformationMessage
          ("Analyzing " +:+ pretty (length files) +:+ " files for " +:+ choice
             +:+ " duplicates...") ::
        match (analyze choice files fileMap h).2 with
        | Ret results =>
            [appendLine channel ("=== " +:+ choice +:+ " Duplicates Analysis ===");
             appendLine channel (formatted results);
             showChannel channel]
        | Throw error =>
            [showErrorMessage ("Error analyzing duplicates: " +:+ error_text error);
             consoleError "Error analyzing duplicates:" error]
        | OutOfFuel => []
        end
  end.

(** The command [extension.analyzeDuplicates]: [folder] is what the dialog
    gave, [listing] what is read of the folder, [choice] what the user picked.
    What it shows, and what it throws. *)
Definition analyzeCommand (folder : option (list string))
  (listing : exn + list item) (choice : option string) (h : heap)
  : list shown * option exn :=
  match folder with
  | None => ([showErrorMessage "No folder selected!"], None)
  | Some [] => ([], Some (TypeError "Cannot read properties of undefined (reading 'fsPath')"))
  | Some (folderPath :: _) =>
      match readFilesRecursively path_join folderPath listing ([], ∅) with
      | inl e => ([], Some e)
      | inr (files, fileMap) =>
          if (length files =? 0)%nat then
            ([showWarningMessage "No valid files found in the selected folder."],
             None)
          else (on_choice choice files fileMap h, None)
      end
  end.

End Command.

(** A file the walk wants, with its path and its text, somewhere below
    [dir]. *)
Inductive listed (path_join : string -> string -> string)
  : string -> list item -> string -> string -> Prop :=
| listed_here dir items name text :
    File name (inr text) ∈ items -> wanted name = true ->
    listed path_join dir items (path_join dir name) text
| listed_below dir items name items' path text :
    Directory name (inr items') ∈ items ->
    listed path_join (path_join dir name) items' path text ->
    listed path_join dir items path text.

(** Something the walk cannot read, somewhere below. *)
Inductive unreadable : list item -> exn -> Prop :=
| unreadable_file items name e :
    File name (inl e) ∈ items -> wanted name = true -> unreadable items e
| unreadable_directory items name e :
    Directory name (inl e) ∈ items -> unreadable items e
| unreadable_below items name items' e :
    Directory name (inr items') ∈ items -> unreadable items' e ->
    unreadable items e.

(** What a part of the walk does to [files] and [fileMap], when [L] are the
    files it should find and [U] what it cannot read. *)
Definition walked (L : string -> string -> Prop) (U : exn -> Prop)
  (st : list string * gmap string string)
  (r : exn + list string * gmap string string) : Prop :=
  match r with
  | inr (files, fileMap) =>
      exists paths,
        files = st.1 ++ paths /\
        (forall path, path ∈ paths <-> exists text, L path text) /\
        (forall path, path ∈ paths ->
           exists text, fileMap !! path = Some text /\ L path text) /\
        (forall path, path ∉ paths -> fileMap !! path = st.2 !! path) /\
        forall e, ~ U e
  | inl e => U e
  end.



(** Stand-ins for the examples of the command. *)
Module DemoCommand.

(** A path of the folder and a name. *)
Definition path_join (dir name : string) : string := dir +:+ "/" +:+ name.

Definition error_text (e : exn) : string :=
  match e with
  | ParseError msg => "SyntaxError: " +:+ msg
  | RenderError msg => "Error: " +:+ msg
  | TypeError msg => "TypeError: " +:+ msg
  | SyntaxError msg => "SyntaxError: " +:+ msg
  end.

Definition formatted (r : report) : string :=
  match r with
  | NoResults => "[]"
  | ExactResults groups => pretty (length groups) +:+ " groups"
  | NearResults matches => pretty (length matches) +:+ " entries"
  | StructuralResults groups => pretty (length groups) +:+ " groups"
  end.

(** A folder with two files the walk wants, one that it does not, and a
    directory with one more; [bad.js] does not parse. *)
Definition folder : list item :=
  [File "a.js" (inr "function f() { return 1; }");
   File "notes.txt" (inr "function f() { return 1; }");
   Directory "lib" (inr [File "bad.js" (inr "function (")])].

(** [f] for [g] and [a] for [b]. *)
Definition rho (s : string) : string :=
  if String.eqb s "f" then "g" else if String.eqb s "a" then "b" else s.

End DemoCommand.

(** * Properties *)

(** ** Trees and the store *)

(** Induction on a tree, with the hypothesis for every element and every
    property value. *)
Lemma json_nested_ind (P : json -> Prop) :
  P JNull ->
  (forall b, P (JBool b)) ->
  (forall q, P (JNum q)) ->
  (forall s, P (JStr s)) ->
  (forall elems, Forall P elems -> P (JArr elems)) ->
  (forall props, Forall (fun kv => P (snd kv)) props -> P (JObj props)) ->
  forall t, P t.
Proof.
  intros Hnull Hbool Hnum Hstr Harr Hobj.
  fix IH 1. intros [ | b | q | s | elems | props].
  - exact Hnull.
  - apply Hbool.
  - apply Hnum.
  - apply Hstr.
  - apply Harr. induction elems as [ | t rest IHrest]; constructor.
    + apply IH.
    + exact IHrest.
  - apply Hobj. induction props as [ | [k t] rest IHrest]; constructor.
    + apply IH.
    + exact IHrest.
Qed.

Lemma val_in_mono base b b' v : b <= b' -> val_in base b v -> val_in base b' v.
Proof. destruct v; simpl; lia. Qed.

Lemma preserves_refl h : preserves h h.
Proof. intros l _. reflexivity. Qed.

Lemma preserves_length h h' : preserves h h' -> length h <= length h'.
Proof.
  intros Hp. destruct (decide (length h <= length h')) as [ | Hn]; [assumption | ].
  exfalso. assert (Hl : length h' < length h) by lia.
  specialize (Hp (length h') Hl).
  rewrite (lookup_ge_None_2 h' (length h')) in Hp by lia.
  symmetry in Hp. apply lookup_ge_None_1 in Hp. lia.
Qed.

Lemma preserves_trans h1 h2 h3 :
  preserves h1 h2 -> preserves h2 h3 -> preserves h1 h3.
Proof.
  intros H12 H23 l Hl. rewrite H23, H12; auto.
  pose proof (preserves_length _ _ H12). lia.
Qed.

Lemma preserves_app h ext : preserves h (h ++ ext).
Proof. intros l Hl. apply lookup_app_l. exact Hl. Qed.

Lemma ordered_fresh h : ordered (length h) h.
Proof.
  intros l o Hl Ho. apply lookup_lt_Some in Ho. lia.
Qed.

Lemma ordered_snoc base h o :
  ordered base h ->
  Forall (val_in base (length h)) (obj_values o) ->
  ordered base (h ++ [o]).
Proof.
  intros Hord Ho l o' Hl Hlook.
  destruct (decide (l < length h)) as [Hlt | Hge].
  - rewrite lookup_app_l in Hlook by exact Hlt. eauto.
  - rewrite lookup_app_r in Hlook by lia.
    destruct (l - length h) as [ | n] eqn:E; simpl in Hlook; [ | destruct n; discriminate].
    injection Hlook as <-. replace l with (length h) by lia. exact Ho.
Qed.

(** The objects [alloc] makes are new, and they form a tree. *)
Lemma alloc_ordered base t :
  forall h, base <= length h -> ordered base h ->
    ordered base (alloc t h).1 /\
    val_in base (length (alloc t h).1) (alloc t h).2 /\
    preserves h (alloc t h).1.
Proof.
  induction t as [ | b | q | s | elems IH | props IH] using json_nested_ind;
    intros h Hbase Hord; simpl;
    try (split; [exact Hord | split; [exact I | apply preserves_refl]]).
  - set (each := fix each (ts : list json) (h : heap) : heap * list value :=
           match ts with
           | [] => (h, [])
           | t :: rest =>
               let '(h1, v) := alloc t h in
               let '(h2, vs) := each rest h1 in (h2, v :: vs)
           end).
    assert (Heach : forall h, base <= length h -> ordered base h ->
              ordered base (each elems h).1 /\
              Forall (val_in base (length (each elems h).1)) (each elems h).2 /\
              preserves h (each elems h).1).
    { clear h Hbase Hord. induction IH as [ | t rest Ht _ IHrest]; intros h Hbase Hord; simpl.
      - split; [exact Hord | split; [constructor | apply preserves_refl]].
      - destruct (Ht h Hbase Hord) as (Ho1 & Hv1 & Hp1).
        destruct (alloc t h) as [h1 v] eqn:E1; simpl in *.
        assert (Hb1 : base <= length h1) by (pose proof (preserves_length _ _ Hp1); lia).
        destruct (IHrest h1 Hb1 Ho1) as (Ho2 & Hv2 & Hp2).
        destruct (each rest h1) as [h2 vs] eqn:E2; simpl in *.
        split; [exact Ho2 | split].
        + constructor; [ | exact Hv2].
          eapply val_in_mono; [ | exact Hv1]. apply preserves_length. exact Hp2.
        + eapply preserves_trans; eassumption. }
    destruct (Heach h Hbase Hord) as (Ho & Hv & Hp).
    destruct (each elems h) as [h' vs] eqn:E; simpl in *.
    pose proof (preserves_length _ _ Hp) as Hlen.
    split; [ | split].
    + apply ordered_snoc; [exact Ho | ]. simpl. rewrite app_nil_r. exact Hv.
    + rewrite length_app. simpl. lia.
    + eapply preserves_trans; [exact Hp | apply preserves_app].
  - set (each := fix each (ts : list (string * json)) (h : heap)
             : heap * list (string * value) :=
           match ts with
           | [] => (h, [])
           | (k, t) :: rest =>
               let '(h1, v) := alloc t h in
               let '(h2, ps) := each rest h1 in (h2, (k, v) :: ps)
           end).
    assert (Heach : forall h, base <= length h -> ordered base h ->
              ordered base (each props h).1 /\
              Forall (val_in base (length (each props h).1)) (map snd (each props h).2) /\
              preserves h (each props h).1).
    { clear h Hbase Hord. induction IH as [ | [k t] rest Ht _ IHrest]; intros h Hbase Hord; simpl.
      - split; [exact Hord | split; [constructor | apply preserves_refl]].
      - simpl in Ht. destruct (Ht h Hbase Hord) as (Ho1 & Hv1 & Hp1).
        destruct (alloc t h) as [h1 v] eqn:E1; simpl in *.
        assert (Hb1 : base <= length h1) by (pose proof (preserves_length _ _ Hp1); lia).
        destruct (IHrest h1 Hb1 Ho1) as (Ho2 & Hv2 & Hp2).
        destruct (each rest h1) as [h2 vs] eqn:E2; simpl in *.
        split; [exact Ho2 | split].
        + constructor; [ | exact Hv2].
          eapply val_in_mono; [ | exact Hv1]. apply preserves_length. exact Hp2.
        + eapply preserves_trans; eassumption. }
    destruct (Heach h Hbase Hord) as (Ho & Hv & Hp).
    destruct (each props h) as [h' ps] eqn:E; simpl in *.
    pose proof (preserves_length _ _ Hp) as Hlen.
    split; [ | split].
    + apply ordered_snoc; [exact Ho | ]. simpl. exact Hv.
    + rewrite length_app. simpl. lia.
    + eapply preserves_trans; [exact Hp | apply preserves_app].
Qed.

(** ** [JSON.stringify] and the renderer *)

(** Distinct objects of the store are no more than the store holds. *)
Lemma stack_bound (stack : list nat) (n : nat) :
  NoDup stack -> (forall l, l ∈ stack -> l < n) -> length stack <= n.
Proof.
  intros Hnd Hlt.
  assert (Hsub : stack ⊆+ seq 0 n).
  { apply NoDup_submseteq; [exact Hnd | ].
    intros l Hl. apply elem_of_seq. specialize (Hlt l Hl). lia. }
  apply submseteq_length in Hsub. rewrite length_seq in Hsub. exact Hsub.
Qed.

(** With the objects it is inside of on its stack, [readback] needs no more
    fuel than there are objects left. *)
Lemma readback_fuel fuel :
  forall stack h v,
    NoDup stack -> (forall l, l ∈ stack -> l < length h) ->
    length h < fuel + length stack ->
    readback fuel stack h v <> OutOfFuel.
Proof.
  induction fuel as [ | fuel IH]; intros stack h v Hnd Hlt Hfuel.
  - pose proof (stack_bound stack (length h) Hnd Hlt). simpl in Hfuel. lia.
  - simpl. destruct v as [ | | b | q | s | l]; try discriminate.
    case_bool_decide as Hin; [discriminate | ].
    destruct (h !! l) as [o | ] eqn:Hl; [ | discriminate].
    assert (IH' : forall v, readback fuel (l :: stack) h v <> OutOfFuel).
    { intros v. apply IH.
      - constructor; assumption.
      - intros l' [-> | Hl']%elem_of_cons; [ | auto].
        eapply lookup_lt_Some. exact Hl.
      - simpl. lia. }
    clear Hl. destruct o as [props | elems props].
    + induction props as [ | [k v] rest IHrest]; simpl; [discriminate | ].
      specialize (IH' v). destruct (readback fuel (l :: stack) h v); simpl;
        [ | discriminate | contradiction].
      match type of IHrest with
      | outcome_bind ?m _ <> _ => destruct m
      end; simpl in *; [discriminate | discriminate | contradiction].
    + induction elems as [ | v rest IHrest]; simpl; [discriminate | ].
      specialize (IH' v). destruct (readback fuel (l :: stack) h v); simpl;
        [ | discriminate | contradiction].
      match type of IHrest with
      | outcome_bind ?m _ <> _ => destruct m
      end; simpl in *; [discriminate | discriminate | contradiction].
Qed.

(** [JSON.stringify] comes to an end on every store: it returns, or it
    throws on a circular structure. *)
Lemma stringify_fuel h v : stringify h v <> OutOfFuel.
Proof.
  unfold stringify. apply readback_fuel.
  - constructor.
  - intros l Hl. inversion Hl.
  - simpl. lia.
Qed.

(** On a tree in the store nothing is met twice: [readback] returns. *)
Lemma readback_ordered base fuel :
  forall stack h v b,
    ordered base h -> val_in base b v ->
    (forall s, s ∈ stack -> b <= s) -> b < fuel ->
    exists o, readback fuel stack h v = Ret o.
Proof.
  induction fuel as [ | fuel IH]; intros stack h v b Hord Hv Hstack Hfuel; [lia | ].
  simpl. destruct v as [ | | c | q | s | l]; try (eexists; reflexivity).
  simpl in Hv. case_bool_decide as Hin.
  { specialize (Hstack l Hin). lia. }
  destruct (h !! l) as [o | ] eqn:Hl; [ | eexists; reflexivity].
  assert (Hvals : Forall (val_in base l) (obj_values o)) by (eapply Hord; [lia | exact Hl]).
  assert (IH' : forall v, val_in base l v ->
            exists o, readback fuel (l :: stack) h v = Ret o).
  { intros v Hv'. apply (IH _ _ _ l); auto; [ | lia].
    intros s [-> | Hs]%elem_of_cons; [lia | ]. specialize (Hstack s Hs). lia. }
  clear Hl. destruct o as [props | elems props]; simpl in Hvals.
  - assert (Hex : exists ts,
      (fix each (ps : list (string * value)) : outcome (list (string * json)) :=
         match ps with
         | [] => Ret []
         | (k, v) :: rest =>
             let* o := readback fuel (l :: stack) h v in
             let* ts := each rest in
             Ret (match o with Some t => (k, t) :: ts | None => ts end)
         end) props = Ret ts).
    { induction props as [ | [k v] rest IHrest]; [eexists; reflexivity | ].
      simpl in Hvals. apply Forall_cons in Hvals as [Hv1 Hrest].
      destruct (IH' v Hv1) as [o1 ->]. destruct (IHrest Hrest) as [ts ->].
      simpl. eexists; reflexivity. }
    destruct Hex as [ts ->]. simpl. eexists; reflexivity.
  - apply Forall_app in Hvals as [Helems _].
    assert (Hex : exists ts,
      (fix each (vs : list value) : outcome (list json) :=
         match vs with
         | [] => Ret []
         | v :: rest =>
             let* o := readback fuel (l :: stack) h v in
             let* ts := each rest in
             Ret (default JNull o :: ts)
         end) elems = Ret ts).
    { induction elems as [ | v rest IHrest]; [eexists; reflexivity | ].
      apply Forall_cons in Helems as [Hv1 Hrest].
      destruct (IH' v Hv1) as [o1 ->]. destruct (IHrest Hrest) as [ts ->].
      simpl. eexists; reflexivity. }
    destruct Hex as [ts ->]. simpl. eexists; reflexivity.
Qed.

(** ** The clone *)

(** What [JSON.stringify] reads of the objects [alloc] made of a tree is
    that tree: the clone [JSON.parse(JSON.stringify(node))] of a parsed tree
    is a copy of it. *)
Lemma readback_alloc t :
  forall h H fuel stack,
    preserves (alloc t h).1 H ->
    (forall s, s ∈ stack -> length (alloc t h).1 <= s) ->
    length (alloc t h).1 < fuel ->
    readback fuel stack H (alloc t h).2 = Ret (Some t).
Proof.
  induction t as [ | b | q | s | elems IH | props IH] using json_nested_ind;
    intros h H fuel stack Hp Hstack Hfuel;
    try (destruct fuel; [simpl in Hfuel; lia | reflexivity]).
  - simpl in *.
    set (each := fix each (ts : list json) (h : heap) : heap * list value :=
           match ts with
           | [] => (h, [])
           | t :: rest =>
               let '(h1, v) := alloc t h in
               let '(h2, vs) := each rest h1 in (h2, v :: vs)
           end) in *.
    assert (Heach : forall h H fuel stack,
              preserves (each elems h).1 H ->
              (forall s, s ∈ stack -> length (each elems h).1 <= s) ->
              length (each elems h).1 < fuel ->
              preserves h (each elems h).1 /\
              (fix loop (vs : list value) : outcome (list json) :=
                 match vs with
                 | [] => Ret []
                 | v :: rest =>
                     let* o := readback fuel stack H v in
                     let* ts := loop rest in
                     Ret (default JNull o :: ts)
                 end) (each elems h).2 = Ret elems).
    { clear h H fuel stack Hp Hstack Hfuel.
      induction IH as [ | t rest Ht _ IHrest]; intros h H fuel stack Hp Hstack Hfuel;
        simpl in *; [split; [apply preserves_refl | reflexivity] | ].
      specialize (Ht h). specialize (IHrest (alloc t h).1).
      destruct (alloc_ordered (length h) t h (le_n _) (ordered_fresh h)) as (_ & _ & Hp1).
      destruct (alloc t h) as [h1 v]; simpl in *.
      specialize (IHrest H fuel stack).
      destruct (each rest h1) as [h2 vs]; simpl in *.
      destruct (IHrest Hp Hstack Hfuel) as [Hp2 Hloop].
      pose proof (preserves_length _ _ Hp2) as Hlen.
      split; [eapply preserves_trans; eassumption | ].
      rewrite (Ht H fuel stack); simpl.
      - rewrite Hloop. reflexivity.
      - eapply preserves_trans; eassumption.
      - intros s Hs. specialize (Hstack s Hs). lia.
      - lia. }
    specialize (Heach h). destruct (each elems h) as [h' vs]; simpl in *.
    rewrite length_app in *; simpl in *.
    destruct fuel as [ | fuel]; [lia | ]. simpl.
    rewrite bool_decide_eq_false_2
      by (intros Hin; specialize (Hstack _ Hin); lia).
    rewrite Hp by (rewrite length_app; simpl; lia).
    rewrite lookup_app_r, Nat.sub_diag by lia. simpl.
    destruct (Heach H fuel (length h' :: stack)) as [_ ->]; [ | | lia | reflexivity].
    + eapply preserves_trans; [apply preserves_app | exact Hp].
    + intros s [-> | Hs]%elem_of_cons; [lia | ]. specialize (Hstack s Hs). lia.
  - simpl in *.
    set (each := fix each (ts : list (string * json)) (h : heap)
             : heap * list (string * value) :=
           match ts with
           | [] => (h, [])
           | (k, t) :: rest =>
               let '(h1, v) := alloc t h in
               let '(h2, ps) := each rest h1 in (h2, (k, v) :: ps)
           end) in *.
    assert (Heach : forall h H fuel stack,
              preserves (each props h).1 H ->
              (forall s, s ∈ stack -> length (each props h).1 <= s) ->
              length (each props h).1 < fuel ->
              preserves h (each props h).1 /\
              (fix loop (ps : list (string * value)) : outcome (list (string * json)) :=
                 match ps with
                 | [] => Ret []
                 | (k, v) :: rest =>
                     let* o := readback fuel stack H v in
                     let* ts := loop rest in
                     Ret (match o with Some t => (k, t) :: ts | None => ts end)
                 end) (each props h).2 = Ret props).
    { clear h H fuel stack Hp Hstack Hfuel.
      induction IH as [ | [k t] rest Ht _ IHrest]; intros h H fuel stack Hp Hstack Hfuel;
        simpl in *; [split; [apply preserves_refl | reflexivity] | ].
      specialize (Ht h). specialize (IHrest (alloc t h).1).
      destruct (alloc_ordered (length h) t h (le_n _) (ordered_fresh h)) as (_ & _ & Hp1).
      destruct (alloc t h) as [h1 v]; simpl in *.
      specialize (IHrest H fuel stack).
      destruct (each rest h1) as [h2 vs]; simpl in *.
      destruct (IHrest Hp Hstack Hfuel) as [Hp2 Hloop].
      pose proof (preserves_length _ _ Hp2) as Hlen.
      split; [eapply preserves_trans; eassumption | ].
      rewrite (Ht H fuel stack); simpl.
      - rewrite Hloop. reflexivity.
      - eapply preserves_trans; eassumption.
      - intros s Hs. specialize (Hstack s Hs). lia.
      - lia. }
    specialize (Heach h). destruct (each props h) as [h' ps]; simpl in *.
    rewrite length_app in *; simpl in *.
    destruct fuel as [ | fuel]; [lia | ]. simpl.
    rewrite bool_decide_eq_false_2
      by (intros Hin; specialize (Hstack _ Hin); lia).
    rewrite Hp by (rewrite length_app; simpl; lia).
    rewrite lookup_app_r, Nat.sub_diag by lia. simpl.
    destruct (Heach H fuel (length h' :: stack)) as [_ ->]; [ | | lia | reflexivity].
    + eapply preserves_trans; [apply preserves_app | exact Hp].
    + intros s [-> | Hs]%elem_of_cons; [lia | ]. specialize (Hstack s Hs). lia.
Qed.

Lemma stringify_alloc t h : stringify (alloc t h).1 (alloc t h).2 = Ret (Some t).
Proof.
  unfold stringify. apply readback_alloc.
  - apply preserves_refl.
  - intros s Hs. inversion Hs.
  - lia.
Qed.

(** ** Rewriting in place *)

Lemma safe_skip base h : safe_at base skip h.
Proof. intros Hord. exists h, true. auto. Qed.

Lemma safe_thrown base h : safe_at base thrown h.
Proof. intros Hord. exists h, false. auto. Qed.

Lemma safe_and_then base a b h :
  safe_at base a h -> (forall h1, safe_at base b h1) ->
  safe_at base (a ;;; b) h.
Proof.
  intros Ha Hb Hord. destruct (Ha Hord) as (h1 & ok & E & Hlen & Hord1 & Hfr).
  unfold and_then. rewrite E. destruct ok.
  - destruct (Hb h1 Hord1) as (h2 & ok2 & E2 & Hlen2 & Hord2 & Hfr2).
    exists h2, ok2. repeat split; auto; [lia | ].
    intros l Hl. rewrite Hfr2, Hfr; auto.
  - exists h1, false. auto.
Qed.

Lemma safe_for_each {A : Type} base (f : A -> step) (xs : list A) :
  (forall x h, x ∈ xs -> safe_at base (f x) h) ->
  forall h, safe_at base (for_each f xs) h.
Proof.
  induction xs as [ | x rest IH]; intros Hf h; simpl.
  - apply safe_skip.
  - apply safe_and_then.
    + apply Hf. left.
    + apply IH. intros y h1 Hy. apply Hf. right. exact Hy.
Qed.

Lemma assoc_set_values {K : Type} `{EqDecision K} (key : K) (v : value)
  (props : list (K * value)) (P : value -> Prop) :
  P v -> Forall P (map snd props) -> Forall P (map snd (assoc_set key v props)).
Proof.
  intros Hv. induction props as [ | [k w] rest IH]; simpl; intros Hall.
  - constructor; [exact Hv | constructor].
  - apply Forall_cons in Hall as [Hw Hrest]. case_bool_decide; simpl.
    + constructor; assumption.
    + constructor; [exact Hw | apply IH; exact Hrest].
Qed.

Lemma obj_set_values o key v (P : value -> Prop) :
  P v -> Forall P (obj_values o) -> Forall P (obj_values (obj_set o key v)).
Proof.
  intros Hv. destruct o as [props | elems props]; simpl; intros Hall.
  - apply assoc_set_values; assumption.
  - apply Forall_app in Hall as [He Hp]. apply Forall_app. split; [exact He | ].
    apply assoc_set_values; assumption.
Qed.

(** Writing a primitive into an object of the trees. *)
Lemma safe_assign base l key v h :
  base <= l -> val_in base 0 v -> safe_at base (assign l key v) h.
Proof.
  intros Hl Hv Hord. unfold assign, set_prop.
  destruct (h !! l) as [o | ] eqn:Ho.
  - exists (<[l := obj_set o key v]> h), true. repeat split.
    + apply length_insert.
    + intros l' o' Hl' Hlook.
      destruct (decide (l' = l)) as [-> | Hne].
      * rewrite list_lookup_insert_eq in Hlook by (eapply lookup_lt_Some; exact Ho).
        injection Hlook as <-. apply obj_set_values.
        -- eapply val_in_mono; [ | exact Hv]. lia.
        -- eapply Hord; eassumption.
      * rewrite list_lookup_insert_ne in Hlook by congruence. eapply Hord; eassumption.
    + intros l' Hl'. apply list_lookup_insert_ne. lia.
  - exists h, true. auto.
Qed.

Lemma get_prop_ordered base h l key :
  ordered base h -> base <= l -> val_in base l (get_prop h (VRef l) key).
Proof.
  intros Hord Hl. simpl. destruct (h !! l) as [o | ] eqn:Ho; [ | exact I].
  specialize (Hord l o Hl Ho). unfold obj_get.
  destruct (assoc key (named_props o)) as [v | ] eqn:Ha; [ | exact I]. simpl.
  assert (Hin : v ∈ map snd (named_props o)).
  { clear -Ha. induction (named_props o) as [ | [k w] rest IH]; [discriminate | ].
    simpl in *. case_bool_decide.
    - injection Ha as ->. left.
    - right. apply IH. exact Ha. }
  rewrite Forall_forall in Hord. apply Hord.
  destruct o as [props | elems props]; simpl in *; [exact Hin | ].
  apply elem_of_app. right. exact Hin.
Qed.

Lemma safe_set_quasi base b quasi h :
  val_in base b quasi -> safe_at base (set_quasi quasi) h.
Proof.
  intros Hq Hord. unfold set_quasi.
  destruct quasi as [ | | c | q | s | lq]; try (apply safe_thrown; exact Hord).
  simpl in Hq.
  pose proof (get_prop_ordered base h lq "value" Hord ltac:(lia)) as Hv.
  destruct (get_prop h (VRef lq) "value") as [ | | c | q | s | lv];
    try (apply safe_thrown; exact Hord).
  simpl in Hv. destruct (h !! lv); [ | apply safe_thrown; exact Hord].
  apply safe_and_then; [ | intros h1 | exact Hord];
    (apply safe_assign; [lia | exact I]).
Qed.

Lemma safe_array_forEach base l arr f h :
  val_in base l arr ->
  (forall v h1, val_in base l v -> safe_at base (f v) h1) ->
  safe_at base (array_forEach arr f) h.
Proof.
  intros Harr Hf Hord. unfold array_forEach.
  destruct arr as [ | | c | q | s | la]; try (apply safe_thrown; exact Hord).
  simpl in Harr.
  destruct (h !! la) as [[props | elems props] | ] eqn:Ho;
    try (apply safe_thrown; exact Hord).
  pose proof (Hord la _ ltac:(lia) Ho) as Hvals. simpl in Hvals.
  apply Forall_app in Hvals as [He _]. rewrite Forall_forall in He.
  apply safe_for_each; [ | exact Hord].
  intros v h1 Hv. apply Hf. eapply val_in_mono; [ | apply He; exact Hv]. lia.
Qed.

Lemma safe_generic_descent base visit l h :
  base <= l ->
  (forall v h1, val_in base l v -> safe_at base (visit v) h1) ->
  safe_at base (generic_descent visit l) h.
Proof.
  intros Hl Hvisit Hord. unfold generic_descent.
  destruct (h !! l) as [o | ] eqn:Ho; [ | apply safe_skip; exact Hord].
  pose proof (Hord l o Hl Ho) as Hvals. rewrite Forall_forall in Hvals.
  apply safe_and_then; [ | | exact Hord].
  - apply safe_for_each. intros v h1 Hv.
    destruct (is_object v); [ | apply safe_skip].
    apply Hvisit. apply Hvals.
    destruct o as [props | elems props]; simpl in *; [inversion Hv | ].
    apply elem_of_app. left. exact Hv.
  - intros h1. apply safe_for_each. intros key h2 _ Hord2.
    pose proof (get_prop_ordered base h2 l key Hord2 Hl) as Hv.
    destruct (is_object (get_prop h2 (VRef l) key)).
    + apply Hvisit; assumption.
    + apply safe_skip; assumption.
Qed.

Lemma safe_node_body base visit l h :
  base <= l ->
  (forall v h1, val_in base l v -> safe_at base (visit v) h1) ->
  safe_at base (node_body visit l) h.
Proof.
  intros Hl Hvisit. unfold node_body.
  assert (Hprop : forall key h1,
    safe_at base (fun h => visit (get_prop h (VRef l) key) h) h1).
  { intros key h1 Hord1. apply Hvisit; [ | exact Hord1].
    apply get_prop_ordered; assumption. }
  assert (Hfor : forall key f h1,
    (forall v h2, val_in base l v -> safe_at base (f v) h2) ->
    safe_at base (fun h => array_forEach (get_prop h (VRef l) key) f h) h1).
  { intros key f h1 Hf Hord1. eapply safe_array_forEach; [ | exact Hf | exact Hord1].
    apply get_prop_ordered; assumption. }
  assert (Hquasi : forall v h2, val_in base l v -> safe_at base (set_quasi v) h2).
  { intros v h2 Hv. eapply safe_set_quasi. exact Hv. }
  unfold safe_at, node_body. cbv beta zeta.
  match goal with
  | |- _ -> exists h' ok, ?s h = _ /\ _ => change (safe_at base s h)
  end.
  apply safe_and_then; [ | intros h1; apply safe_generic_descent; assumption].
  repeat match goal with
         | |- safe_at _ (if ?c then _ else _) _ => destruct c
         end;
    repeat first
      [ apply safe_skip
      | apply safe_assign; [exact Hl | exact I]
      | apply Hprop
      | apply Hfor; assumption
      | apply safe_and_then; [ | intros ?] ].
  intros Hord1. destruct (truthy _); [apply Hprop | apply safe_skip]; exact Hord1.
Qed.

(** The walker of [normalizeAST] on a tree in the store: it comes to an end
    with fuel for the depth of the tree, and it writes only objects of the
    tree. *)
Lemma normalize_traverse_safe base fuel :
  forall h v b,
    ordered base h -> val_in base b v -> b < fuel ->
    exists h', normalize_traverse fuel h v = Some h' /\
      length h' = length h /\ ordered base h' /\
      (forall l, l < base -> h' !! l = h !! l).
Proof.
  induction fuel as [ | fuel IH]; intros h v b Hord Hv Hfuel; [lia | ].
  simpl. destruct v as [ | | c | q | s | l]; try solve [exists h; auto].
  simpl in Hv.
  set (visit := fun (v : value) (h : heap) =>
         match normalize_traverse fuel h v with
         | Some h' => Some (h', true)
         | None => None
         end).
  assert (Hvisit : forall v h1, val_in base l v -> safe_at base (visit v) h1).
  { intros v h1 Hv1 Hord1. destruct (IH h1 v l Hord1 Hv1 ltac:(lia)) as (h2 & E & Hrest).
    exists h2, true. unfold visit. rewrite E. auto. }
  destruct (safe_node_body base visit l h ltac:(lia) Hvisit Hord)
    as (h' & ok & E & Hrest).
  rewrite E. exists h'. auto.
Qed.

(** ** Association lists *)

Section Assoc.

Context {K A : Type} `{EqDecision K}.
Implicit Types (key : K) (v : A) (props : list (K * A)).

Lemma assoc_set_eq key v props : assoc key (assoc_set key v props) = Some v.
Proof.
  induction props as [ | [k w] rest IH]; simpl.
  - rewrite bool_decide_eq_true_2; reflexivity.
  - case_bool_decide as Hk; simpl.
    + rewrite bool_decide_eq_true_2; [reflexivity | exact Hk].
    + rewrite bool_decide_eq_false_2; [exact IH | exact Hk].
Qed.

Lemma assoc_set_ne key key' v props :
  key <> key' -> assoc key' (assoc_set key v props) = assoc key' props.
Proof.
  intros Hne. induction props as [ | [k w] rest IH]; simpl.
  - rewrite bool_decide_eq_false_2; [reflexivity | exact Hne].
  - case_bool_decide as Hk; simpl.
    + subst k. rewrite !bool_decide_eq_false_2; [reflexivity | exact Hne ..].
    + rewrite IH. reflexivity.
Qed.

Lemma assoc_elem_of key v props : assoc key props = Some v -> (key, v) ∈ props.
Proof.
  induction props as [ | [k w] rest IH]; simpl; [discriminate | ].
  case_bool_decide as Hk.
  - intros [= ->]. subst k. left.
  - intros Hrest. right. apply IH. exact Hrest.
Qed.

Lemma assoc_None key props : assoc key props = None -> key ∉ map fst props.
Proof.
  induction props as [ | [k w] rest IH]; simpl.
  - intros _ Hin. inversion Hin.
  - case_bool_decide as Hk; [discriminate | ].
    intros Hrest [Heq | Hin]%elem_of_cons; [congruence | ].
    apply IH; assumption.
Qed.

Lemma assoc_set_keys key v props :
  map fst (assoc_set key v props) =
  match assoc key props with
  | Some _ => map fst props
  | None => map fst props ++ [key]
  end.
Proof.
  induction props as [ | [k w] rest IH]; simpl; [reflexivity | ].
  case_bool_decide as Hk; simpl; [reflexivity | ].
  rewrite IH. destruct (assoc key rest); reflexivity.
Qed.

Lemma assoc_set_Forall (P : K * A -> Prop) key v props :
  P (key, v) -> Forall P props -> Forall P (assoc_set key v props).
Proof.
  intros Hv. induction props as [ | [k w] rest IH]; simpl; intros Hall.
  - constructor; [exact Hv | constructor].
  - apply Forall_cons in Hall as [Hw Hrest]. case_bool_decide as Hk.
    + subst k. constructor; assumption.
    + constructor; [exact Hw | apply IH; exact Hrest].
Qed.

Lemma assoc_set_NoDup key v props :
  NoDup (map fst props) -> NoDup (map fst (assoc_set key v props)).
Proof.
  intros Hnd. rewrite assoc_set_keys.
  destruct (assoc key props) eqn:E; [exact Hnd | ].
  apply NoDup_app. split; [exact Hnd | split].
  - intros k Hk [-> | Hin]%elem_of_cons; [ | inversion Hin].
    eapply assoc_None; eassumption.
  - apply NoDup_singleton.
Qed.

End Assoc.

(** ** Canonical trees *)

Lemma assoc_map_values {A B : Type} (f : A -> B) key (props : list (string * A)) :
  assoc key (map_values f props) = f <$> assoc key props.
Proof.
  induction props as [ | [k v] rest IH]; simpl; [reflexivity | ].
  case_bool_decide; [reflexivity | exact IH].
Qed.

Lemma map_values_assoc_set {A B : Type} (f : A -> B) key v
  (props : list (string * A)) :
  map_values f (assoc_set key v props) = assoc_set key (f v) (map_values f props).
Proof.
  induction props as [ | [k w] rest IH]; simpl; [reflexivity | ].
  case_bool_decide; simpl; [reflexivity | ]. f_equal. exact IH.
Qed.

Lemma map_values_keys {A B : Type} (f : A -> B) (props : list (string * A)) :
  map fst (map_values f props) = map fst props.
Proof.
  unfold map_values. rewrite map_map. reflexivity.
Qed.

Lemma assoc_set_same {A : Type} key (v : A) (props : list (string * A)) :
  assoc key props = Some v -> assoc_set key v props = props.
Proof.
  induction props as [ | [k w] rest IH]; simpl; [discriminate | ].
  case_bool_decide as Hk.
  - intros [= ->]. reflexivity.
  - intros Hrest. f_equal. apply IH. exact Hrest.
Qed.

Lemma assoc_set_twice {A : Type} key (v w : A) (props : list (string * A)) :
  assoc_set key v (assoc_set key w props) = assoc_set key v props.
Proof.
  induction props as [ | [k u] rest IH]; simpl.
  - rewrite bool_decide_eq_true_2; reflexivity.
  - case_bool_decide as Hk; simpl.
    + rewrite bool_decide_eq_true_2; [reflexivity | exact Hk].
    + rewrite bool_decide_eq_false_2; [ | exact Hk]. f_equal. exact IH.
Qed.

Lemma type_is_set key v props name :
  key <> "type" -> type_is (assoc_set key v props) name = type_is props name.
Proof.
  intros Hne. unfold type_is. rewrite assoc_set_ne; [reflexivity | exact Hne].
Qed.

Lemma type_is_other props a b :
  type_is props a = true -> type_is props b = String.eqb a b.
Proof.
  unfold type_is. destruct (assoc "type" props) as [[ | | | s | | ] | ];
    try discriminate.
  intros ->%String.eqb_eq. reflexivity.
Qed.

Lemma type_is_canon props name :
  type_is (map_values canon props) name = type_is props name.
Proof.
  unfold type_is. rewrite assoc_map_values.
  destruct (assoc "type" props) as [[ | | | | | ] | ]; reflexivity.
Qed.

Lemma json_truthy_canon t : json_truthy (canon <$> t) = json_truthy t.
Proof. destruct t as [[ | | | | | ] | ]; reflexivity. Qed.

Lemma forallb_Forall {A : Type} (f : A -> bool) (xs : list A) :
  forallb f xs = true <-> Forall (fun x => f x = true) xs.
Proof.
  induction xs as [ | x rest IH]; simpl.
  - split; [constructor | reflexivity].
  - rewrite andb_true_iff, Forall_cons, IH. reflexivity.
Qed.

Lemma well_formed_obj props :
  well_formed (JObj props) = true ->
  NoDup (map fst props) /\ node_ok props = true /\
  Forall (fun kv => well_formed kv.2 = true) props.
Proof.
  simpl. intros [[Hnd Hok]%andb_prop Hall]%andb_prop.
  split; [ | split].
  - apply bool_decide_eq_true in Hnd. exact Hnd.
  - exact Hok.
  - apply forallb_Forall in Hall. exact Hall.
Qed.

Lemma well_formed_arr elems :
  well_formed (JArr elems) = true -> Forall (fun t => well_formed t = true) elems.
Proof. simpl. apply forallb_Forall. Qed.

(** What [quasi_ok] says. *)
Lemma quasi_ok_inv quasi :
  quasi_ok quasi = true ->
  exists props value,
    quasi = JObj props /\ type_is props "TemplateElement" = true /\
    assoc "value" props = Some (JObj value) /\ assoc "type" value = None.
Proof.
  destruct quasi as [ | | | | | props]; try discriminate. simpl.
  intros [Htype Hvalue]%andb_prop.
  destruct (assoc "value" props) as [[ | | | | | value] | ] eqn:Ev;
    try discriminate.
  destruct (assoc "type" value) eqn:E; [discriminate | ].
  exists props, value. repeat split; assumption.
Qed.

Lemma canon_node_plain props :
  type_is props "Identifier" = false ->
  type_is props "Literal" = false ->
  type_is props "StringLiteral" = false ->
  type_is props "TemplateLiteral" = false ->
  canon_node props = props.
Proof.
  intros H1 H2 H3 H4. unfold canon_node. rewrite H1, H2, H3, H4. reflexivity.
Qed.

Lemma canon_node_untyped props :
  assoc "type" props = None -> canon_node props = props.
Proof.
  intros Hnone. apply canon_node_plain; unfold type_is; rewrite Hnone; reflexivity.
Qed.

Lemma canon_node_element props :
  type_is props "TemplateElement" = true -> canon_node props = props.
Proof.
  intros Htype.
  apply canon_node_plain; rewrite (type_is_other _ _ _ Htype); reflexivity.
Qed.

Lemma canon_untyped value :
  assoc "type" value = None -> canon (JObj value) = JObj (map_values canon value).
Proof.
  intros Hnone. simpl. rewrite canon_node_untyped; [reflexivity | ].
  rewrite assoc_map_values, Hnone. reflexivity.
Qed.

Lemma canon_quasi_canon quasi :
  quasi_ok quasi = true -> canon (canon_quasi quasi) = canon_quasi (canon quasi).
Proof.
  intros (props & value & -> & Htype & Hvalue & Hnone)%quasi_ok_inv.
  cbn [canon_quasi]. rewrite Hvalue. cbn [canon].
  rewrite map_values_assoc_set.
  rewrite !canon_node_element
    by (rewrite ?type_is_set by discriminate; rewrite type_is_canon; exact Htype).
  cbn [canon_quasi]. rewrite assoc_map_values, Hvalue. cbn [fmap option_fmap option_map].
  rewrite !canon_untyped
    by (rewrite ?assoc_set_ne by discriminate; exact Hnone).
  rewrite !map_values_assoc_set. reflexivity.
Qed.

Lemma quasi_ok_canon quasi : quasi_ok quasi = true -> quasi_ok (canon quasi) = true.
Proof.
  intros (props & value & -> & Htype & Hvalue & Hnone)%quasi_ok_inv.
  cbn [canon]. rewrite canon_node_element by (rewrite type_is_canon; exact Htype).
  cbn [quasi_ok]. rewrite type_is_canon, Htype, assoc_map_values, Hvalue.
  cbn [fmap option_fmap option_map]. rewrite canon_untyped by exact Hnone.
  rewrite assoc_map_values, Hnone. reflexivity.
Qed.

Lemma quasi_ok_canon_quasi quasi :
  quasi_ok quasi = true -> quasi_ok (canon_quasi quasi) = true.
Proof.
  intros (props & value & -> & Htype & Hvalue & Hnone)%quasi_ok_inv.
  cbn [canon_quasi]. rewrite Hvalue. cbn [quasi_ok].
  rewrite type_is_set by discriminate. rewrite Htype, assoc_set_eq.
  rewrite !assoc_set_ne by discriminate. rewrite Hnone. reflexivity.
Qed.

Lemma canon_quasi_twice quasi : canon_quasi (canon_quasi quasi) = canon_quasi quasi.
Proof.
  destruct quasi as [ | | | | | props]; try reflexivity. cbn [canon_quasi].
  destruct (assoc "value" props) as [[ | | | | | value] | ] eqn:E;
    cbn [canon_quasi]; rewrite ?E; try reflexivity.
  rewrite assoc_set_eq, assoc_set_twice.
  rewrite (assoc_set_same "raw" jplaceholder (assoc_set "cooked" _ _))
    by (rewrite assoc_set_ne by discriminate; apply assoc_set_eq).
  rewrite assoc_set_twice. reflexivity.
Qed.


Lemma well_formed_canon_quasi quasi :
  well_formed quasi = true -> quasi_ok quasi = true ->
  well_formed (canon_quasi quasi) = true.
Proof.
  intros Hwf (props & value & -> & Htype & Hvalue & Hnone)%quasi_ok_inv.
  apply well_formed_obj in Hwf as (Hnd & Hok & Hall).
  cbn [canon_quasi]. rewrite Hvalue. cbn [well_formed].
  rewrite !andb_true_iff. split; [split | ].
  - apply bool_decide_eq_true, assoc_set_NoDup. exact Hnd.
  - unfold node_ok. rewrite !type_is_set by discriminate.
    rewrite !(type_is_other _ _ _ Htype). reflexivity.
  - apply forallb_Forall, assoc_set_Forall; [ | exact Hall].
    assert (Hv : well_formed (JObj value) = true).
    { apply assoc_elem_of in Hvalue.
      rewrite Forall_forall in Hall. exact (Hall _ Hvalue). }
    apply well_formed_obj in Hv as (Hndv & Hokv & Hallv).
    cbn [snd well_formed]. rewrite !andb_true_iff. split; [split | ].
    + apply bool_decide_eq_true. do 2 apply assoc_set_NoDup. exact Hndv.
    + unfold node_ok, type_is. rewrite !assoc_set_ne by discriminate.
      rewrite Hnone. reflexivity.
    + apply forallb_Forall. do 2 (apply assoc_set_Forall; [reflexivity | ]).
      exact Hallv.
Qed.

Lemma node_ok_canon props :
  node_ok props = true -> node_ok (map_values canon props) = true.
Proof.
  unfold node_ok. rewrite !type_is_canon, !assoc_map_values, json_truthy_canon.
  intros [Htemplate Hcall]%andb_prop. apply andb_true_iff. split.
  - destruct (type_is props "TemplateLiteral" && json_truthy (assoc "quasis" props));
      [ | reflexivity].
    destruct (assoc "quasis" props) as [[ | | | | quasis | ] | ]; try discriminate.
    destruct (assoc "expressions" props) as [[ | | | | expressions | ] | ];
      try discriminate.
    cbn [fmap option_fmap option_map canon].
    apply forallb_Forall, Forall_map. apply forallb_Forall in Htemplate.
    apply Forall_impl with (1 := Htemplate). intros q Hq. apply quasi_ok_canon, Hq.
  - destruct (type_is props "CallExpression"); [ | reflexivity].
    destruct (assoc "arguments" props) as [[ | | | | arguments | ] | ];
      try discriminate.
    reflexivity.
Qed.

Lemma node_ok_canon_node props :
  node_ok props = true -> node_ok (canon_node props) = true.
Proof.
  intros Hok. unfold canon_node.
  destruct (type_is props "Identifier") eqn:E1.
  { cbn [orb]. cbv iota. unfold node_ok. rewrite !type_is_set by discriminate.
    rewrite !(type_is_other _ _ _ E1). reflexivity. }
  destruct (type_is props "Literal") eqn:E2.
  { cbn [orb]. cbv iota. unfold node_ok. rewrite !type_is_set by discriminate.
    rewrite !(type_is_other _ _ _ E2). reflexivity. }
  destruct (type_is props "StringLiteral") eqn:E3.
  { cbn [orb]. cbv iota. unfold node_ok. rewrite !type_is_set by discriminate.
    rewrite !(type_is_other _ _ _ E3). reflexivity. }
  cbv iota. cbn [orb]. destruct (type_is props "TemplateLiteral") eqn:E4; [ | exact Hok].
  destruct (assoc "quasis" props) as [[ | | | | quasis | ] | ] eqn:Eq;
    try exact Hok.
  revert Hok. unfold node_ok. rewrite !type_is_set by discriminate.
  rewrite E4, !(type_is_other _ _ _ E4), Eq, assoc_set_eq.
  rewrite assoc_set_ne by discriminate. cbn [andb json_truthy String.eqb Ascii.eqb Bool.eqb].
  destruct (assoc "expressions" props) as [[ | | | | expressions | ] | ];
    try discriminate.
  rewrite !andb_true_r. intros Hall. apply forallb_Forall, Forall_map.
  apply forallb_Forall in Hall. apply Forall_impl with (1 := Hall).
  intros q Hq. apply quasi_ok_canon_quasi, Hq.
Qed.

Lemma node_ok_quasis props quasis :
  node_ok props = true -> type_is props "TemplateLiteral" = true ->
  assoc "quasis" props = Some (JArr quasis) ->
  Forall (fun q => quasi_ok q = true) quasis /\
  exists expressions, assoc "expressions" props = Some (JArr expressions).
Proof.
  unfold node_ok. intros [Hok _]%andb_prop Htype Hq. rewrite Htype, Hq in Hok.
  cbn [andb json_truthy] in Hok.
  destruct (assoc "expressions" props) as [[ | | | | expressions | ] | ];
    try discriminate.
  split; [apply forallb_Forall, Hok | exists expressions; reflexivity].
Qed.

Lemma well_formed_child key t (props : list (string * json)) :
  Forall (fun kv => well_formed kv.2 = true) props ->
  assoc key props = Some t -> well_formed t = true.
Proof.
  intros Hall Hkey%assoc_elem_of. rewrite Forall_forall in Hall.
  exact (Hall _ Hkey).
Qed.

Lemma well_formed_canon_node props :
  well_formed (JObj props) = true -> well_formed (JObj (canon_node props)) = true.
Proof.
  intros Hwf. pose proof Hwf as (Hnd & Hok & Hall)%well_formed_obj.
  cbn [well_formed]. rewrite !andb_true_iff. split; [split | ].
  - apply bool_decide_eq_true. unfold canon_node.
    repeat match goal with
           | |- context [if ?b then _ else _] => destruct b
           | |- context [match ?o with Some _ => _ | None => _ end] => destruct o
           | |- context [match ?t with JArr _ => _ | _ => _ end] => destruct t
           end; try apply assoc_set_NoDup; exact Hnd.
  - apply node_ok_canon_node, Hok.
  - apply forallb_Forall. unfold canon_node.
    destruct (type_is props "Identifier");
      [apply assoc_set_Forall; [reflexivity | exact Hall] | ].
    destruct (type_is props "Literal" || type_is props "StringLiteral");
      [apply assoc_set_Forall; [reflexivity | exact Hall] | ].
    destruct (type_is props "TemplateLiteral") eqn:Htype; [ | exact Hall].
    destruct (assoc "quasis" props) as [[ | | | | quasis | ] | ] eqn:Hq;
      try exact Hall.
    apply assoc_set_Forall; [ | exact Hall].
    destruct (node_ok_quasis _ _ Hok Htype Hq) as [Hqs _].
    pose proof (well_formed_child _ _ _ Hall Hq) as Hwq.
    apply well_formed_arr in Hwq.
    cbn [snd well_formed]. apply forallb_Forall, Forall_map.
    rewrite Forall_forall in Hwq, Hqs |- *. intros q Hin.
    apply well_formed_canon_quasi; auto.
Qed.

Lemma well_formed_canon t : well_formed t = true -> well_formed (canon t) = true.
Proof.
  induction t as [ | b | q | s | elems IH | props IH] using json_nested_ind;
    intros Hwf; try reflexivity.
  - apply well_formed_arr in Hwf. cbn [canon well_formed].
    apply forallb_Forall, Forall_map.
    rewrite Forall_forall in IH, Hwf |- *. intros t Hin. apply IH; auto.
  - cbn [canon]. apply well_formed_canon_node.
    apply well_formed_obj in Hwf as (Hnd & Hok & Hall).
    cbn [well_formed]. rewrite !andb_true_iff. split; [split | ].
    + apply bool_decide_eq_true. rewrite map_values_keys. exact Hnd.
    + apply node_ok_canon, Hok.
    + apply forallb_Forall. unfold map_values. apply Forall_map.
      rewrite Forall_forall in IH, Hall |- *. intros kv Hin. apply IH; auto.
Qed.

Lemma map_values_fixed props :
  Forall (fun kv => well_formed kv.2 = true -> canon (canon kv.2) = canon kv.2) props ->
  Forall (fun kv => well_formed kv.2 = true) props ->
  map_values canon (map_values canon props) = map_values canon props.
Proof.
  intros IH Hall. unfold map_values. rewrite map_map. apply map_ext_Forall.
  rewrite Forall_forall in IH, Hall |- *. intros [k t] Hin. cbn [fst snd].
  f_equal. apply (IH _ Hin), (Hall _ Hin).
Qed.

(** On properties whose values are canonical, [canon_node] does its work
    once. *)
Lemma canon_node_stable props :
  map_values canon props = props -> node_ok props = true ->
  canon_node (map_values canon (canon_node props)) = canon_node props.
Proof.
  intros Hfix Hok. unfold canon_node at 2 3.
  destruct (type_is props "Identifier") eqn:E1.
  { rewrite map_values_assoc_set, Hfix. unfold canon_node.
    rewrite type_is_set, E1 by discriminate. apply assoc_set_twice. }
  destruct (type_is props "Literal" || type_is props "StringLiteral") eqn:E2.
  { rewrite map_values_assoc_set, Hfix. unfold canon_node.
    rewrite !type_is_set, E1, E2 by discriminate. apply assoc_set_twice. }
  destruct (type_is props "TemplateLiteral") eqn:E3;
    [ | rewrite Hfix; unfold canon_node; rewrite E1, E2, E3; reflexivity].
  destruct (assoc "quasis" props) as [quasis | ] eqn:Hq;
    [ | rewrite Hfix; unfold canon_node; rewrite E1, E2, E3, Hq; reflexivity].
  destruct quasis as [ | | | | quasis | ];
    try (rewrite Hfix; unfold canon_node; rewrite E1, E2, E3, Hq; reflexivity).
  rewrite map_values_assoc_set, Hfix. unfold canon_node.
  rewrite !type_is_set, E1, E2, E3, assoc_set_eq by discriminate.
  cbn [canon]. rewrite assoc_set_twice. do 2 f_equal.
  rewrite !map_map. apply map_ext_Forall.
  destruct (node_ok_quasis _ _ Hok E3 Hq) as [Hqs _].
  assert (Hcanon : map canon quasis = quasis).
  { pose proof (assoc_map_values canon "quasis" props) as Hm.
    rewrite Hfix, Hq in Hm. cbn in Hm. congruence. }
  assert (Heach : Forall (fun q => canon q = q) quasis).
  { clear -Hcanon. induction quasis as [ | q rest IH]; constructor.
    - cbn in Hcanon. congruence.
    - apply IH. cbn in Hcanon. congruence. }
  rewrite Forall_forall in Hqs, Heach |- *. intros q Hin. cbn.
  rewrite canon_quasi_canon by auto. rewrite Heach by exact Hin.
  apply canon_quasi_twice.
Qed.

Lemma canon_twice t : well_formed t = true -> canon (canon t) = canon t.
Proof.
  induction t as [ | b | q | s | elems IH | props IH] using json_nested_ind;
    intros Hwf; try reflexivity.
  - apply well_formed_arr in Hwf. cbn [canon]. f_equal. rewrite map_map.
    apply map_ext_Forall. rewrite Forall_forall in IH, Hwf |- *.
    intros t Hin. apply IH; auto.
  - apply well_formed_obj in Hwf as (Hnd & Hok & Hall). cbn [canon]. f_equal.
    apply canon_node_stable.
    + apply map_values_fixed; assumption.
    + apply node_ok_canon, Hok.
Qed.

(** *** Visiting the properties of a node *)

Lemma visit_child_keys key props :
  map fst (visit_child key props) = map fst props.
Proof.
  unfold visit_child. destruct (assoc key props) eqn:E; [ | reflexivity].
  rewrite assoc_set_keys, E. reflexivity.
Qed.

Lemma visit_child_well_formed key props :
  Forall (fun kv => well_formed kv.2 = true) props ->
  Forall (fun kv => well_formed kv.2 = true) (visit_child key props).
Proof.
  intros Hall. unfold visit_child. destruct (assoc key props) eqn:E; [ | exact Hall].
  apply assoc_set_Forall; [ | exact Hall].
  apply well_formed_canon. eapply well_formed_child; eassumption.
Qed.

(** A property that was visited is not changed by a second visit. *)
Lemma visit_child_absorbed key props :
  Forall (fun kv => well_formed kv.2 = true) props ->
  map_values canon (visit_child key props) = map_values canon props.
Proof.
  intros Hall. unfold visit_child. destruct (assoc key props) as [t | ] eqn:E;
    [ | reflexivity].
  rewrite map_values_assoc_set.
  rewrite canon_twice by (eapply well_formed_child; eassumption).
  apply assoc_set_same. rewrite assoc_map_values, E. reflexivity.
Qed.

Lemma assoc_app_r {A : Type} key (done rest : list (string * A)) :
  key ∉ map fst done -> assoc key (done ++ rest) = assoc key rest.
Proof.
  induction done as [ | [k v] done IH]; simpl; [reflexivity | ].
  intros Hout. rewrite not_elem_of_cons in Hout. destruct Hout as [Hne Hout].
  rewrite bool_decide_eq_false_2 by congruence. apply IH, Hout.
Qed.

Lemma assoc_set_app_r {A : Type} key (v : A) (done rest : list (string * A)) :
  key ∉ map fst done ->
  assoc_set key v (done ++ rest) = done ++ assoc_set key v rest.
Proof.
  induction done as [ | [k w] done IH]; simpl; [reflexivity | ].
  intros Hout. rewrite not_elem_of_cons in Hout. destruct Hout as [Hne Hout].
  rewrite bool_decide_eq_false_2 by congruence. f_equal. apply IH, Hout.
Qed.

(** Visiting the properties one after the other, by their keys, visits
    them all. *)
Lemma visit_children_all rest :
  forall done,
    NoDup (map fst (done ++ rest)) ->
    fold_left (fun props key => visit_child key props) (map fst rest) (done ++ rest)
    = done ++ map_values canon rest.
Proof.
  induction rest as [ | [k t] rest IH]; intros done Hnd; [reflexivity | ].
  cbn [map fst fold_left map_values].
  assert (Hout : k ∉ map fst done).
  { rewrite map_app in Hnd. apply NoDup_app in Hnd as (_ & Hdisj & _).
    intros Hin. apply (Hdisj _ Hin). left. }
  unfold visit_child at 2. rewrite assoc_app_r by exact Hout.
  cbn [assoc]. rewrite bool_decide_eq_true_2 by reflexivity.
  rewrite assoc_set_app_r by exact Hout. cbn [assoc_set].
  rewrite bool_decide_eq_true_2 by reflexivity.
  rewrite (cons_middle (k, canon t) done rest), app_assoc.
  rewrite IH.
  - rewrite <- app_assoc. reflexivity.
  - rewrite <- app_assoc. cbn [app]. rewrite map_app in Hnd |- *. exact Hnd.
Qed.

Lemma canon_node_falsy props :
  json_truthy (assoc "quasis" props) = false ->
  type_is props "Identifier" = false ->
  type_is props "Literal" || type_is props "StringLiteral" = false ->
  canon_node (map_values canon props) = map_values canon props.
Proof.
  intros Hq E1 E2. unfold canon_node. rewrite !type_is_canon, E1, E2.
  rewrite assoc_map_values.
  destruct (assoc "quasis" props) as [[ | | | | | ] | ]; try discriminate;
    destruct (type_is props "TemplateLiteral"); reflexivity.
Qed.

(** What the walk does at a node before it descends is what [canon_node]
    does, once the properties are canonical. *)
Lemma rewrite_node_canon props :
  well_formed (JObj props) = true ->
  NoDup (map fst (rewrite_node props)) /\
  Forall (fun kv => well_formed kv.2 = true) (rewrite_node props) /\
  map_values canon (rewrite_node props) = canon_node (map_values canon props).
Proof.
  intros (Hnd & Hok & Hall)%well_formed_obj. unfold rewrite_node.
  destruct (type_is props "Identifier") eqn:E1.
  { split; [apply assoc_set_NoDup, Hnd | split].
    - apply assoc_set_Forall; [reflexivity | exact Hall].
    - rewrite map_values_assoc_set. unfold canon_node.
      rewrite type_is_canon, E1. reflexivity. }
  destruct (type_is props "Literal" || type_is props "StringLiteral") eqn:E2.
  { split; [apply assoc_set_NoDup, Hnd | split].
    - apply assoc_set_Forall; [reflexivity | exact Hall].
    - rewrite map_values_assoc_set. unfold canon_node.
      rewrite !type_is_canon, E1, E2. reflexivity. }
  destruct (type_is props "TemplateLiteral") eqn:E3; cbn [andb].
  { destruct (json_truthy (assoc "quasis" props)) eqn:Et.
    - destruct (assoc "quasis" props) as [quasis | ] eqn:Hq; [ | discriminate].
      pose proof Hok as Hok'. unfold node_ok in Hok'.
      rewrite E3, Hq, Et in Hok'. cbn [andb] in Hok'.
      destruct quasis as [ | | | | quasis | ];
        try (apply andb_prop in Hok' as [Habs _]; discriminate).
      destruct (node_ok_quasis _ _ Hok E3 Hq) as [Hqs _].
      pose proof (well_formed_child _ _ _ Hall Hq) as Hwq.
      apply well_formed_arr in Hwq.
      assert (Hall' : Forall (fun kv => well_formed kv.2 = true)
                        (assoc_set "quasis" (JArr (map canon_quasi quasis)) props)).
      { apply assoc_set_Forall; [ | exact Hall].
        cbn [snd well_formed]. apply forallb_Forall, Forall_map.
        rewrite Forall_forall in Hwq, Hqs |- *. intros q Hin.
        apply well_formed_canon_quasi; auto. }
      split; [rewrite visit_child_keys; apply assoc_set_NoDup, Hnd | split].
      + apply visit_child_well_formed, Hall'.
      + rewrite visit_child_absorbed by exact Hall'.
        rewrite map_values_assoc_set. unfold canon_node.
        rewrite !type_is_canon, E1, E2, E3, assoc_map_values, Hq.
        cbn [fmap option_fmap option_map canon]. do 2 f_equal.
        rewrite !map_map. apply map_ext_Forall.
        rewrite Forall_forall in Hqs |- *. intros q Hin.
        apply canon_quasi_canon, Hqs, Hin.
    - rewrite !(type_is_other _ _ _ E3).
      cbn [String.eqb Ascii.eqb Bool.eqb].
      split; [exact Hnd | split; [exact Hall | ]].
      symmetry. apply canon_node_falsy; assumption. }
  assert (Hplain : canon_node (map_values canon props) = map_values canon props).
  { unfold canon_node. rewrite !type_is_canon, E1, E2, E3. reflexivity. }
  rewrite Hplain.
  repeat match goal with
         | |- context [if ?b then _ else _] => destruct b
         end;
    rewrite ?visit_child_keys;
    (split; [exact Hnd | split]);
    repeat first [ exact Hall | apply visit_child_well_formed
                 | rewrite visit_child_absorbed | reflexivity ].
Qed.

(** ** Trees at a place of the store *)

Lemma tree_at_bounds H :
  (forall lo hi v t, tree_at H lo hi v t -> lo <= hi) /\
  (forall lo hi vs ts, trees_at H lo hi vs ts -> lo <= hi) /\
  (forall lo hi qs ps, props_at H lo hi qs ps -> lo <= hi).
Proof. apply tree_at_mutind; intros; lia. Qed.

Lemma tree_at_frame H :
  (forall lo hi v t, tree_at H lo hi v t ->
     forall H', (forall x, lo <= x < hi -> H' !! x = H !! x) -> tree_at H' lo hi v t) /\
  (forall lo hi vs ts, trees_at H lo hi vs ts ->
     forall H', (forall x, lo <= x < hi -> H' !! x = H !! x) -> trees_at H' lo hi vs ts) /\
  (forall lo hi qs ps, props_at H lo hi qs ps ->
     forall H', (forall x, lo <= x < hi -> H' !! x = H !! x) -> props_at H' lo hi qs ps).
Proof.
  destruct (tree_at_bounds H) as (Bt & Bts & Bps).
  apply tree_at_mutind.
  - constructor; assumption.
  - constructor; assumption.
  - constructor; assumption.
  - constructor; assumption.
  - intros lo hi l vs ts Hl Hobj Hts IH H' Hsame. apply Bts in Hts as Hlo.
    econstructor; [exact Hl | | ].
    + rewrite Hsame by lia. exact Hobj.
    + apply IH. intros x Hx. apply Hsame. lia.
  - intros lo hi l qs ps Hl Hobj Hps IH H' Hsame. apply Bps in Hps as Hlo.
    econstructor; [exact Hl | | ].
    + rewrite Hsame by lia. exact Hobj.
    + apply IH. intros x Hx. apply Hsame. lia.
  - constructor; assumption.
  - intros lo mid hi v t vs ts Ht IHt Hts IHts H' Hsame.
    apply Bt in Ht as Hlo. apply Bts in Hts as Hhi. econstructor.
    + apply IHt. intros x Hx. apply Hsame. lia.
    + apply IHts. intros x Hx. apply Hsame. lia.
  - constructor; assumption.
  - intros lo mid hi k v t qs ps Ht IHt Hps IHps H' Hsame.
    apply Bt in Ht as Hlo. apply Bps in Hps as Hhi. econstructor.
    + apply IHt. intros x Hx. apply Hsame. lia.
    + apply IHps. intros x Hx. apply Hsame. lia.
Qed.

(** [JSON.stringify] reads a tree at a place of the store as it is. *)
Lemma tree_at_readback H :
  (forall lo hi v t, tree_at H lo hi v t ->
     forall fuel stack, hi - lo < fuel ->
       (forall s, s ∈ stack -> ~ lo <= s < hi) ->
       readback fuel stack H v = Ret (Some t)) /\
  (forall lo hi vs ts, trees_at H lo hi vs ts ->
     forall fuel stack, hi - lo < fuel ->
       (forall s, s ∈ stack -> ~ lo <= s < hi) ->
       (fix each (vs : list value) : outcome (list json) :=
          match vs with
          | [] => Ret []
          | v :: rest =>
              let* o := readback fuel stack H v in
              let* ts := each rest in
              Ret (default JNull o :: ts)
          end) vs = Ret ts) /\
  (forall lo hi qs ps, props_at H lo hi qs ps ->
     forall fuel stack, hi - lo < fuel ->
       (forall s, s ∈ stack -> ~ lo <= s < hi) ->
       (fix each (ps : list (string * value)) : outcome (list (string * json)) :=
          match ps with
          | [] => Ret []
          | (k, v) :: rest =>
              let* o := readback fuel stack H v in
              let* ts := each rest in
              Ret (match o with
                   | Some t => (k, t) :: ts
                   | None => ts
                   end)
          end) qs = Ret ps).
Proof.
  destruct (tree_at_bounds H) as (Bt & Bts & Bps).
  apply tree_at_mutind.
  - intros lo hi _ [ | fuel] stack Hfuel _; [lia | reflexivity].
  - intros lo hi b _ [ | fuel] stack Hfuel _; [lia | reflexivity].
  - intros lo hi q _ [ | fuel] stack Hfuel _; [lia | reflexivity].
  - intros lo hi s _ [ | fuel] stack Hfuel _; [lia | reflexivity].
  - intros lo hi l vs ts Hl Hobj Hts IH [ | fuel] stack Hfuel Hstack; [lia | ].
    apply Bts in Hts as Hlo. cbn [readback].
    rewrite bool_decide_eq_false_2 by (intros Hin; apply (Hstack _ Hin); lia).
    rewrite Hobj. rewrite (IH fuel (l :: stack)); [reflexivity | lia | ].
    intros s [-> | Hin]%elem_of_cons; [lia | ].
    intros Hs. apply (Hstack _ Hin). lia.
  - intros lo hi l qs ps Hl Hobj Hps IH [ | fuel] stack Hfuel Hstack; [lia | ].
    apply Bps in Hps as Hlo. cbn [readback].
    rewrite bool_decide_eq_false_2 by (intros Hin; apply (Hstack _ Hin); lia).
    rewrite Hobj. rewrite (IH fuel (l :: stack)); [reflexivity | lia | ].
    intros s [-> | Hin]%elem_of_cons; [lia | ].
    intros Hs. apply (Hstack _ Hin). lia.
  - reflexivity.
  - intros lo mid hi v t vs ts Ht IHt Hts IHts fuel stack Hfuel Hstack.
    apply Bt in Ht as Hlo. apply Bts in Hts as Hhi.
    rewrite IHt; [ | lia | intros s Hin Hs; apply (Hstack _ Hin); lia].
    cbn [outcome_bind].
    rewrite IHts; [reflexivity | lia | intros s Hin Hs; apply (Hstack _ Hin); lia].
  - reflexivity.
  - intros lo mid hi k v t qs ps Ht IHt Hps IHps fuel stack Hfuel Hstack.
    apply Bt in Ht as Hlo. apply Bps in Hps as Hhi.
    rewrite IHt; [ | lia | intros s Hin Hs; apply (Hstack _ Hin); lia].
    cbn [outcome_bind].
    rewrite IHps; [reflexivity | lia | intros s Hin Hs; apply (Hstack _ Hin); lia].
Qed.

(** The objects [alloc] adds to the store are the tree it was given. *)
Lemma alloc_tree_at t :
  forall h,
    tree_at (alloc t h).1 (length h) (length (alloc t h).1) (alloc t h).2 t /\
    preserves h (alloc t h).1.
Proof.
  induction t as [ | b | q | s | elems IH | props IH] using json_nested_ind;
    intros h;
    try (split; [constructor; simpl; lia | apply preserves_refl]).
  - simpl.
    set (each := fix each (ts : list json) (h : heap) : heap * list value :=
           match ts with
           | [] => (h, [])
           | t :: rest =>
               let '(h1, v) := alloc t h in
               let '(h2, vs) := each rest h1 in (h2, v :: vs)
           end).
    assert (Heach : forall h,
              trees_at (each elems h).1 (length h) (length (each elems h).1)
                (each elems h).2 elems /\
              preserves h (each elems h).1).
    { clear h. induction IH as [ | t rest IHt _ IHrest]; intros h; simpl.
      - split; [constructor; lia | apply preserves_refl].
      - destruct (IHt h) as [Ht Hp1]. destruct (alloc t h) as [h1 v].
        destruct (IHrest h1) as [Hrest Hp2].
        destruct (each rest h1) as [h2 vs]. cbn [fst snd] in *. split.
        + econstructor; [ | exact Hrest].
          apply (proj1 (tree_at_frame _) _ _ _ _ Ht).
          intros x Hx. apply Hp2. lia.
        + eapply preserves_trans; eassumption. }
    destruct (Heach h) as [Hts Hp]. destruct (each elems h) as [h' vs].
    cbn [fst snd] in *. split.
    + econstructor.
      * rewrite length_app. simpl. lia.
      * rewrite lookup_app_r by lia. rewrite Nat.sub_diag. reflexivity.
      * apply (proj1 (proj2 (tree_at_frame _)) _ _ _ _ Hts).
        intros x Hx. apply lookup_app_l. lia.
    + eapply preserves_trans; [exact Hp | apply preserves_app].
  - simpl.
    set (each := fix each (ts : list (string * json)) (h : heap)
                   : heap * list (string * value) :=
           match ts with
           | [] => (h, [])
           | (k, t) :: rest =>
               let '(h1, v) := alloc t h in
               let '(h2, ps) := each rest h1 in (h2, (k, v) :: ps)
           end).
    assert (Heach : forall h,
              props_at (each props h).1 (length h) (length (each props h).1)
                (each props h).2 props /\
              preserves h (each props h).1).
    { clear h. induction IH as [ | [k t] rest IHt _ IHrest]; intros h; simpl.
      - split; [constructor; lia | apply preserves_refl].
      - destruct (IHt h) as [Ht Hp1]. cbn [snd] in *.
        destruct (alloc t h) as [h1 v].
        destruct (IHrest h1) as [Hrest Hp2].
        destruct (each rest h1) as [h2 ps]. cbn [fst snd] in *. split.
        + econstructor; [ | exact Hrest].
          apply (proj1 (tree_at_frame _) _ _ _ _ Ht).
          intros x Hx. apply Hp2. lia.
        + eapply preserves_trans; eassumption. }
    destruct (Heach h) as [Hps Hp]. destruct (each props h) as [h' ps].
    cbn [fst snd] in *. split.
    + econstructor.
      * rewrite length_app. simpl. lia.
      * rewrite lookup_app_r by lia. rewrite Nat.sub_diag. reflexivity.
      * apply (proj2 (proj2 (tree_at_frame _)) _ _ _ _ Hps).
        intros x Hx. apply lookup_app_l. lia.
    + eapply preserves_trans; [exact Hp | apply preserves_app].
Qed.

Lemma props_at_keys H lo hi qs ps :
  props_at H lo hi qs ps -> map fst qs = map fst ps.
Proof. induction 1; simpl; congruence. Qed.

(** A property of a node in the store and in its tree: the value is the tree
    of the property, at a place of its own, and whatever tree is put at that
    place is then the property of the node. *)
Lemma props_at_lookup H lo hi qs ps key :
  props_at H lo hi qs ps ->
  match assoc key ps with
  | Some t =>
      exists v a b,
        assoc key qs = Some v /\ lo <= a /\ b <= hi /\ tree_at H a b v t /\
        forall H' t',
          tree_at H' a b v t' ->
          (forall x, lo <= x < hi -> ~ a <= x < b -> H' !! x = H !! x) ->
          props_at H' lo hi qs (assoc_set key t' ps)
  | None => assoc key qs = None
  end.
Proof.
  destruct (tree_at_bounds H) as (Bt & Bts & Bps).
  induction 1 as [lo hi Hle | lo mid hi k v t qs ps Ht Hps IH]; simpl;
    [reflexivity | ].
  apply Bt in Ht as Hlo. apply Bps in Hps as Hhi.
  case_bool_decide as Hk.
  - exists v, lo, mid. repeat split; try lia; [exact Ht | ].
    intros H' t' Ht' Hsame. econstructor; [exact Ht' | ].
    apply (proj2 (proj2 (tree_at_frame _)) _ _ _ _ Hps).
    intros x Hx. apply Hsame; lia.
  - destruct (assoc key ps) as [t0 | ]; [ | exact IH].
    destruct IH as (v0 & a & b & Hv0 & Ha & Hb & Ht0 & Hput).
    exists v0, a, b. repeat split; try lia; [exact Hv0 | exact Ht0 | ].
    intros H' t' Ht' Hsame. apply Bt in Ht0 as Hab. econstructor.
    + apply (proj1 (tree_at_frame _) _ _ _ _ Ht).
      intros x Hx. apply Hsame; lia.
    + apply Hput; [exact Ht' | ]. intros x Hx Hout. apply Hsame; lia.
Qed.

Lemma props_at_set_string H lo hi qs ps key s :
  props_at H lo hi qs ps ->
  props_at H lo hi (assoc_set key (VStr s) qs) (assoc_set key (JStr s) ps).
Proof.
  destruct (tree_at_bounds H) as (Bt & Bts & Bps).
  induction 1 as [lo hi Hle | lo mid hi k v t qs ps Ht Hps IH]; simpl.
  - econstructor; [constructor; exact Hle | constructor; lia].
  - apply Bt in Ht as Hlo. case_bool_decide as Hk.
    + econstructor; [constructor; exact Hlo | exact Hps].
    + econstructor; [exact Ht | exact IH].
Qed.

Lemma tree_at_not_ref H a b v t :
  tree_at H a b v t -> (forall r, v <> VRef r) -> canon t = t.
Proof. intros Ht Hv. destruct Ht; try reflexivity; exfalso; eapply Hv; eauto. Qed.

Lemma tree_at_truthy H a b v t :
  tree_at H a b v t -> truthy v = json_truthy (Some t).
Proof. intros Ht. destruct Ht; reflexivity. Qed.

Lemma get_prop_obj H l qs key :
  H !! l = Some (Obj qs) -> get_prop H (VRef l) key = default VUndef (assoc key qs).
Proof. intros Hobj. simpl. rewrite Hobj. reflexivity. Qed.

Lemma has_type_tree H lo l qs ps name :
  H !! l = Some (Obj qs) -> props_at H lo l qs ps ->
  has_type H (VRef l) name = type_is ps name.
Proof.
  intros Hobj Hps. unfold has_type, type_is. rewrite (get_prop_obj _ _ _ _ Hobj).
  pose proof (props_at_lookup _ _ _ _ _ "type" Hps) as Hl.
  destruct (assoc "type" ps) as [t | ].
  - destruct Hl as (v & a & b & -> & _ & _ & Ht & _). simpl.
    destruct Ht; reflexivity.
  - rewrite Hl. reflexivity.
Qed.

Lemma truthy_tree H lo l qs ps key :
  H !! l = Some (Obj qs) -> props_at H lo l qs ps ->
  truthy (get_prop H (VRef l) key) = json_truthy (assoc key ps).
Proof.
  intros Hobj Hps. rewrite (get_prop_obj _ _ _ _ Hobj).
  pose proof (props_at_lookup _ _ _ _ _ key Hps) as Hl.
  destruct (assoc key ps) as [t | ].
  - destruct Hl as (v & a & b & -> & _ & _ & Ht & _). simpl.
    apply (tree_at_truthy _ _ _ _ _ Ht).
  - rewrite Hl. reflexivity.
Qed.

(** ** The walk of [normalizeAST] on a tree *)

Lemma changes_within_refl lo hi H : changes_within lo hi H H.
Proof. split; reflexivity. Qed.

Lemma changes_within_trans lo hi H1 H2 H3 :
  changes_within lo hi H1 H2 -> changes_within lo hi H2 H3 ->
  changes_within lo hi H1 H3.
Proof.
  intros [Hl1 Hs1] [Hl2 Hs2]. split; [congruence | ].
  intros x Hx. rewrite Hs2, Hs1 by exact Hx. reflexivity.
Qed.

Lemma changes_within_mono lo hi lo' hi' H H' :
  lo' <= lo -> hi <= hi' -> changes_within lo hi H H' -> changes_within lo' hi' H H'.
Proof.
  intros Hlo Hhi [Hl Hs]. split; [exact Hl | ]. intros x Hx. apply Hs. lia.
Qed.

Lemma act_skip l lo ps : acts_on l lo skip ps ps.
Proof.
  intros H qs Hobj Hps. exists H, qs.
  repeat split; try assumption; reflexivity.
Qed.

Lemma act_seq l lo a b ps ps' ps'' :
  acts_on l lo a ps ps' -> acts_on l lo b ps' ps'' ->
  acts_on l lo (a ;;; b) ps ps''.
Proof.
  intros Ha Hb H qs Hobj Hps.
  destruct (Ha H qs Hobj Hps) as (H1 & qs1 & Ea & Hobj1 & Hps1 & Hc1).
  destruct (Hb H1 qs1 Hobj1 Hps1) as (H2 & qs2 & Eb & Hobj2 & Hps2 & Hc2).
  exists H2, qs2. unfold and_then. rewrite Ea.
  repeat split; try assumption; eapply changes_within_trans; eassumption.
Qed.

Lemma act_assign l lo key s ps :
  acts_on l lo (assign l key (VStr s)) ps (assoc_set key (JStr s) ps).
Proof.
  intros H qs Hobj Hps. unfold assign, set_prop. rewrite Hobj. cbn [obj_set].
  assert (Hl : l < length H) by (eapply lookup_lt_Some; exact Hobj).
  pose proof (proj2 (proj2 (tree_at_bounds _)) _ _ _ _ Hps) as Hlo.
  eexists _, _. split; [reflexivity | ]. split; [ | split; [ | split]].
  - apply list_lookup_insert_eq. exact Hl.
  - apply (proj2 (proj2 (tree_at_frame _)) _ _ _ _
             (props_at_set_string _ _ _ _ _ key s Hps)).
    intros x Hx. apply list_lookup_insert_ne. lia.
  - apply length_insert.
  - intros x Hx. apply list_lookup_insert_ne. lia.
Qed.

Lemma for_each_turns m f g (P : json -> Prop) :
  turns m f g P ->
  forall ts H a b vs,
    trees_at H a b vs ts -> Forall P ts -> b - a < m ->
    exists H', for_each f vs H = Some (H', true) /\
      trees_at H' a b vs (map g ts) /\ changes_within a b H H'.
Proof.
  intros Hf. induction ts as [ | t ts IH]; intros H a b vs Hts HP Hm;
    inversion Hts as [? ? Hle | ? mid ? v ? vs' ? Ht Hrest]; subst.
  - exists H.
    split; [reflexivity | split; [constructor; exact Hle | apply changes_within_refl]].
  - apply Forall_cons in HP as [HPt HPts].
    pose proof (proj1 (tree_at_bounds _) _ _ _ _ Ht) as Hlo.
    pose proof (proj1 (proj2 (tree_at_bounds _)) _ _ _ _ Hrest) as Hhi.
    destruct (Hf H a mid v t Ht HPt ltac:(lia)) as (H1 & E1 & Ht1 & Hl1 & Hs1).
    assert (Hrest1 : trees_at H1 mid b vs' ts).
    { apply (proj1 (proj2 (tree_at_frame _)) _ _ _ _ Hrest).
      intros x Hx. apply Hs1. lia. }
    destruct (IH H1 mid b vs' Hrest1 HPts ltac:(lia)) as (H2 & E2 & Hts2 & Hl2 & Hs2).
    exists H2. cbn [for_each]. unfold and_then. rewrite E1.
    split; [exact E2 | ]. split; [ | split].
    + econstructor; [ | exact Hts2].
      apply (proj1 (tree_at_frame _) _ _ _ _ Ht1). intros x Hx. apply Hs2. lia.
    + congruence.
    + intros x Hx. rewrite Hs2, Hs1 by lia. reflexivity.
Qed.

(** Rewriting the texts of one element of a template. *)
Lemma set_quasi_turns m :
  turns m set_quasi canon_quasi (fun q => quasi_ok q = true).
Proof.
  intros H a b v q Hq (props & value & -> & Htype & Hvalue & Hnone)%quasi_ok_inv _.
  inversion Hq as [ | | | | | ? ? lq qq ? Hlq Hobj Hps]; subst.
  pose proof (props_at_lookup _ _ _ _ _ "value" Hps) as Hl. rewrite Hvalue in Hl.
  destruct Hl as (vv & a' & b' & Hvv & Ha' & Hb' & Hv & Hput).
  inversion Hv as [ | | | | | ? ? lv vq ? Hlv Hobjv Hpsv]; subst.
  destruct (act_seq lv a' _ _ _ _ _
              (act_assign lv a' "raw" "placeholder" value)
              (act_assign lv a' "cooked" "placeholder" _) H vq Hobjv Hpsv)
    as (H' & vq' & Estep & Hobjv' & Hpsv' & Hl' & Hs').
  exists H'. unfold set_quasi. rewrite (get_prop_obj _ _ _ _ Hobj), Hvv.
  cbn [default from_option id]. rewrite Hobjv. split; [exact Estep | ].
  pose proof (proj2 (proj2 (tree_at_bounds _)) _ _ _ _ Hpsv) as Hlov.
  split; [ | split; [exact Hl' | intros x Hx; apply Hs'; lia]].
  cbn [canon_quasi]. rewrite Hvalue. econstructor; [exact Hlq | | ].
  - rewrite Hs' by lia. exact Hobj.
  - apply Hput.
    + econstructor; [exact Hlv | exact Hobjv' | exact Hpsv'].
    + intros x Hx Hout. apply Hs'. lia.
Qed.

(** [arr.forEach(f)] on a property that is an array. *)
Lemma act_forEach m f g (P : json -> Prop) l lo key ps ts :
  turns m f g P -> assoc key ps = Some (JArr ts) -> Forall P ts -> l - lo < m ->
  acts_on l lo (fun h => array_forEach (get_prop h (VRef l) key) f h) ps
    (assoc_set key (JArr (map g ts)) ps).
Proof.
  intros Hf Hkey HP Hm H qs Hobj Hps.
  pose proof (props_at_lookup _ _ _ _ _ key Hps) as Hl. rewrite Hkey in Hl.
  destruct Hl as (v & a & b & Hv & Ha & Hb & Ht & Hput).
  inversion Ht as [ | | | | ? ? la vs ? Hla Harr Hts | ]; subst.
  pose proof (proj1 (proj2 (tree_at_bounds _)) _ _ _ _ Hts) as Hlo.
  destruct (for_each_turns m f g P Hf ts H a la vs Hts HP ltac:(lia))
    as (H' & Estep & Hts' & Hl' & Hs').
  exists H', qs. rewrite (get_prop_obj _ _ _ _ Hobj), Hv.
  cbn [default from_option id array_forEach]. rewrite Harr.
  split; [exact Estep | ]. split; [ | split; [ | split]].
  - rewrite Hs' by lia. exact Hobj.
  - apply Hput.
    + econstructor; [exact Hla | | exact Hts']. rewrite Hs' by lia. exact Harr.
    + intros x Hx Hout. apply Hs'. lia.
  - exact Hl'.
  - intros x Hx. apply Hs'. lia.
Qed.

Section Walk.

(** The recursive call: it makes a tree canonical where it stands, when its
    place is smaller than [m]. *)
Variable visit : value -> step.
Variable m : nat.
Hypothesis visit_turns : turns m visit canon (fun t => well_formed t = true).
Hypothesis visit_undefined : forall H, visit VUndef H = Some (H, true).

Lemma visit_child_tree l lo H qs ps key :
  H !! l = Some (Obj qs) -> props_at H lo l qs ps ->
  Forall (fun kv => well_formed kv.2 = true) ps -> l - lo < m ->
  exists H',
    visit (get_prop H (VRef l) key) H = Some (H', true) /\
    H' !! l = Some (Obj qs) /\ props_at H' lo l qs (visit_child key ps) /\
    changes_within lo (S l) H H' /\
    ((forall r, get_prop H (VRef l) key <> VRef r) -> visit_child key ps = ps).
Proof.
  intros Hobj Hps Hall Hm. rewrite (get_prop_obj _ _ _ _ Hobj).
  pose proof (props_at_lookup _ _ _ _ _ key Hps) as Hl. unfold visit_child.
  destruct (assoc key ps) as [t | ] eqn:Hkey.
  - destruct Hl as (v & a & b & Hv & Ha & Hb & Ht & Hput). rewrite Hv.
    cbn [default from_option id].
    pose proof (proj1 (tree_at_bounds _) _ _ _ _ Ht) as Hab.
    destruct (visit_turns H a b v t Ht
                (well_formed_child _ _ _ Hall Hkey) ltac:(lia))
      as (H' & Estep & Ht' & Hl' & Hs').
    exists H'. split; [exact Estep | ]. split; [ | split; [ | split; [split | ]]].
    + rewrite Hs' by lia. exact Hobj.
    + apply Hput; [exact Ht' | ]. intros x Hx Hout. apply Hs'. lia.
    + exact Hl'.
    + intros x Hx. apply Hs'. lia.
    + intros Hprim. rewrite (tree_at_not_ref _ _ _ _ _ Ht Hprim).
      apply assoc_set_same, Hkey.
  - rewrite Hl. cbn [default from_option id]. exists H.
    split; [apply visit_undefined | ].
    split; [exact Hobj | split; [exact Hps | split]];
      [apply changes_within_refl | reflexivity].
Qed.

(** [traverse(n.key)]. *)
Lemma act_visit_prop l lo key ps :
  Forall (fun kv => well_formed kv.2 = true) ps -> l - lo < m ->
  acts_on l lo (fun h => visit (get_prop h (VRef l) key) h) ps (visit_child key ps).
Proof.
  intros Hall Hm H qs Hobj Hps.
  destruct (visit_child_tree l lo H qs ps key Hobj Hps Hall Hm)
    as (H' & Estep & Hobj' & Hps' & Hc & _).
  exists H', qs. auto.
Qed.

(** [if (n.key) traverse(n.key)]. *)
Lemma act_visit_truthy l lo key ps :
  Forall (fun kv => well_formed kv.2 = true) ps -> l - lo < m ->
  acts_on l lo
    (fun h =>
       if truthy (get_prop h (VRef l) key)
       then (fun h => visit (get_prop h (VRef l) key) h) h
       else skip h)
    ps (visit_child key ps).
Proof.
  intros Hall Hm H qs Hobj Hps.
  destruct (visit_child_tree l lo H qs ps key Hobj Hps Hall Hm)
    as (H' & Estep & Hobj' & Hps' & Hc & Hprim).
  destruct (truthy (get_prop H (VRef l) key)) eqn:Et.
  - exists H', qs. auto.
  - exists H, qs. rewrite Hprim by (intros r Hr; rewrite Hr in Et; discriminate).
    split; [reflexivity | ].
    split; [exact Hobj | split; [exact Hps | apply changes_within_refl]].
Qed.

(** [if (typeof n[key] === "object") traverse(n[key])]. *)
Lemma act_visit_key l lo key ps :
  Forall (fun kv => well_formed kv.2 = true) ps -> l - lo < m ->
  acts_on l lo
    (fun h =>
       let v := get_prop h (VRef l) key in
       if is_object v then visit v h else skip h)
    ps (visit_child key ps).
Proof.
  intros Hall Hm H qs Hobj Hps. cbv zeta.
  destruct (visit_child_tree l lo H qs ps key Hobj Hps Hall Hm)
    as (H' & Estep & Hobj' & Hps' & Hc & Hprim).
  destruct (is_object (get_prop H (VRef l) key)) eqn:Et.
  - exists H', qs. auto.
  - exists H, qs. rewrite Hprim by (intros r Hr; rewrite Hr in Et; discriminate).
    split; [reflexivity | ].
    split; [exact Hobj | split; [exact Hps | apply changes_within_refl]].
Qed.

(** [n.key.forEach(traverse)]. *)
Lemma act_forEach_visit l lo key ps ts :
  assoc key ps = Some (JArr ts) ->
  Forall (fun kv => well_formed kv.2 = true) ps -> l - lo < m ->
  acts_on l lo (fun h => array_forEach (get_prop h (VRef l) key) visit h) ps
    (visit_child key ps).
Proof.
  intros Hkey Hall Hm. unfold visit_child. rewrite Hkey. cbn [canon].
  eapply act_forEach; [exact visit_turns | exact Hkey | | exact Hm].
  apply well_formed_arr. eapply well_formed_child; eassumption.
Qed.

Lemma act_keys l lo keys :
  forall ps,
    Forall (fun kv => well_formed kv.2 = true) ps -> l - lo < m ->
    acts_on l lo
      (for_each
         (fun key h =>
            let v := get_prop h (VRef l) key in
            if is_object v then visit v h else skip h)
         keys)
      ps (fold_left (fun props key => visit_child key props) keys ps).
Proof.
  induction keys as [ | key keys IH]; intros ps Hall Hm; cbn [for_each fold_left].
  - apply act_skip.
  - eapply act_seq; [apply act_visit_key; assumption | ].
    apply IH; [apply visit_child_well_formed, Hall | exact Hm].
Qed.

(** The descent over the properties of a node. *)
Lemma act_descent l lo ps :
  NoDup (map fst ps) ->
  Forall (fun kv => well_formed kv.2 = true) ps -> l - lo < m ->
  acts_on l lo (generic_descent visit l) ps (map_values canon ps).
Proof.
  intros Hnd Hall Hm H qs Hobj Hps. unfold generic_descent. rewrite Hobj.
  cbn [array_elems named_props for_each].
  rewrite (props_at_keys _ _ _ _ _ Hps).
  pose proof (visit_children_all ps [] Hnd) as Hfold. cbn [app] in Hfold.
  rewrite <- Hfold.
  exact (act_keys l lo (map fst ps) ps Hall Hm H qs Hobj Hps).
Qed.

(** The [try] block of [traverse] at a node of a well-formed tree: it comes
    to its end, and the node is canonical then. *)
Lemma node_body_tree l lo ps :
  well_formed (JObj ps) = true -> l - lo < m ->
  acts_on l lo (node_body visit l) ps (canon_node (map_values canon ps)).
Proof.
  intros Hwf Hm H qs Hobj Hps.
  destruct (rewrite_node_canon ps Hwf) as (Hnd1 & Hall1 & <-).
  pose proof Hwf as (Hnd & Hok & Hall)%well_formed_obj.
  unfold node_body. cbv beta zeta.
  rewrite !(has_type_tree _ _ _ _ _ _ Hobj Hps), (truthy_tree _ _ _ _ _ _ Hobj Hps).
  revert H qs Hobj Hps.
  change (acts_on l lo
    ((if type_is ps "Identifier" then assign l "name" placeholder
      else if type_is ps "Literal" || type_is ps "StringLiteral" then
        assign l "value" placeholder
      else if type_is ps "TemplateLiteral" && json_truthy (assoc "quasis" ps)
      then
        (fun h => array_forEach (get_prop h (VRef l) "quasis") set_quasi h) ;;;
        (fun h => array_forEach (get_prop h (VRef l) "expressions") visit h)
      else if type_is ps "BinaryExpression" then
        (fun h => visit (get_prop h (VRef l) "left") h) ;;;
        (fun h => visit (get_prop h (VRef l) "right") h)
      else if type_is ps "CallExpression" then
        (fun h => visit (get_prop h (VRef l) "callee") h) ;;;
        (fun h => array_forEach (get_prop h (VRef l) "arguments") visit h)
      else if type_is ps "ReturnStatement" then
        (fun h => visit (get_prop h (VRef l) "argument") h)
      else if type_is ps "IfStatement" then
        (fun h => visit (get_prop h (VRef l) "test") h) ;;;
        (fun h => visit (get_prop h (VRef l) "consequent") h) ;;;
        (fun h =>
           if truthy (get_prop h (VRef l) "alternate")
           then (fun h => visit (get_prop h (VRef l) "alternate") h) h
           else skip h)
      else skip) ;;;
     generic_descent visit l)
    ps (map_values canon (rewrite_node ps))).
  eapply act_seq; [ | apply act_descent; assumption].
  unfold rewrite_node.
  destruct (type_is ps "Identifier") eqn:E1;
    [apply (act_assign l lo "name" "placeholder") | ].
  destruct (type_is ps "Literal" || type_is ps "StringLiteral") eqn:E2;
    [apply (act_assign l lo "value" "placeholder") | ].
  destruct (type_is ps "TemplateLiteral" && json_truthy (assoc "quasis" ps)) eqn:E3.
  { apply andb_prop in E3 as [E3 Et].
    destruct (assoc "quasis" ps) as [quasis | ] eqn:Hq; [ | discriminate].
    pose proof Hok as Hok'. unfold node_ok in Hok'.
    rewrite E3, Hq, Et in Hok'. cbn [andb] in Hok'.
    destruct quasis as [ | | | | quasis | ];
      try (apply andb_prop in Hok' as [Habs _]; discriminate).
    destruct (node_ok_quasis _ _ Hok E3 Hq) as [Hqs [expressions He]].
    pose proof (well_formed_child _ _ _ Hall Hq) as Hwq.
    apply well_formed_arr in Hwq.
    eapply act_seq.
    - eapply act_forEach;
        [apply (set_quasi_turns m) | exact Hq | exact Hqs | exact Hm].
    - eapply act_forEach_visit; [ | | exact Hm].
      + rewrite assoc_set_ne by discriminate. exact He.
      + apply assoc_set_Forall; [ | exact Hall].
        cbn [snd well_formed]. apply forallb_Forall, Forall_map.
        rewrite Forall_forall in Hwq, Hqs |- *. intros q Hin.
        apply well_formed_canon_quasi; auto. }
  destruct (type_is ps "BinaryExpression") eqn:E4.
  { eapply act_seq; apply act_visit_prop;
      repeat first [exact Hall | exact Hm | apply visit_child_well_formed]. }
  destruct (type_is ps "CallExpression") eqn:E5.
  { pose proof Hok as Hok'. unfold node_ok in Hok'. rewrite E5 in Hok'.
    apply andb_prop in Hok' as [_ Hargs].
    destruct (assoc "arguments" ps) as [[ | | | | arguments | ] | ] eqn:Ha;
      try discriminate.
    eapply act_seq; [apply act_visit_prop; assumption | ].
    eapply act_forEach_visit;
      [ | apply visit_child_well_formed, Hall | exact Hm].
    unfold visit_child. destruct (assoc "callee" ps); [ | exact Ha].
    rewrite assoc_set_ne by discriminate. exact Ha. }
  destruct (type_is ps "ReturnStatement") eqn:E6;
    [apply act_visit_prop; assumption | ].
  destruct (type_is ps "IfStatement") eqn:E7; [ | apply act_skip].
  eapply act_seq; [apply act_visit_prop; assumption | ].
  eapply act_seq;
    [apply act_visit_prop; [apply visit_child_well_formed, Hall | exact Hm] | ].
  apply act_visit_truthy; [ | exact Hm].
  do 2 apply visit_child_well_formed. exact Hall.
Qed.

End Walk.

Lemma has_type_array H l vs name :
  H !! l = Some (Arr vs []) -> has_type H (VRef l) name = false.
Proof. intros Harr. unfold has_type, get_prop. rewrite Harr. reflexivity. Qed.

(** [traverse] of [normalizeAST] on a well-formed tree: it comes to its end,
    and the tree is canonical then; no other place of the store is written. *)
Lemma normalize_traverse_canon fuel :
  forall H lo hi v t,
    tree_at H lo hi v t -> well_formed t = true -> hi - lo < fuel ->
    exists H',
      normalize_traverse fuel H v = Some H' /\ tree_at H' lo hi v (canon t) /\
      changes_within lo hi H H'.
Proof.
  induction fuel as [ | fuel IH]; intros H lo hi v t Ht Hwf Hfuel; [lia | ].
  set (visit := fun (v : value) (h : heap) =>
                  match normalize_traverse fuel h v with
                  | Some h' => Some (h', true)
                  | None => None
                  end).
  assert (Hturns : turns fuel visit canon (fun t => well_formed t = true)).
  { intros H0 a b v0 t0 Ht0 Hwf0 Hb.
    destruct (IH _ _ _ _ _ Ht0 Hwf0 Hb) as (H' & E & Ht' & Hc).
    exists H'. unfold visit. rewrite E. auto. }
  destruct Ht as [lo hi Hle | lo hi b Hle | lo hi q Hle | lo hi s Hle
                 | lo hi l vs ts Hl Harr Hts | lo hi l qs ps Hl Hobj Hps];
    try (exists H; split; [reflexivity | ];
         split; [constructor; exact Hle | apply changes_within_refl]).
  - pose proof (proj1 (proj2 (tree_at_bounds _)) _ _ _ _ Hts) as Hlo.
    assert (Heach : turns fuel (fun v => if is_object v then visit v else skip)
                      canon (fun t => well_formed t = true)).
    { intros H0 a b v0 t0 Ht0 Hwf0 Hb. destruct (is_object v0) eqn:Eo.
      - apply Hturns; assumption.
      - exists H0. split; [reflexivity | ]. split; [ | apply changes_within_refl].
        rewrite (tree_at_not_ref _ _ _ _ _ Ht0); [exact Ht0 | ].
        intros r Hr. rewrite Hr in Eo. discriminate. }
    destruct (for_each_turns _ _ _ _ Heach ts H lo l vs Hts
                (well_formed_arr _ Hwf) ltac:(lia))
      as (H' & Estep & Hts' & Hl' & Hs').
    exists H'. cbn [normalize_traverse]. fold visit. unfold node_body.
    cbv beta zeta. rewrite !(has_type_array _ _ _ _ Harr). cbn [orb andb].
    unfold and_then at 1. cbn [skip]. unfold generic_descent. rewrite Harr.
    cbn [array_elems named_props map for_each]. unfold and_then. rewrite Estep.
    cbn [skip]. split; [reflexivity | ]. split; [ | split].
    + cbn [canon]. econstructor; [exact Hl | | exact Hts'].
      rewrite Hs' by lia. exact Harr.
    + exact Hl'.
    + intros x Hx. apply Hs'. lia.
  - pose proof (proj2 (proj2 (tree_at_bounds _)) _ _ _ _ Hps) as Hlo.
    assert (Hundef : forall H0, visit VUndef H0 = Some (H0, true)).
    { intros H0. unfold visit. destruct fuel; [lia | reflexivity]. }
    destruct (node_body_tree visit fuel Hturns Hundef l lo ps Hwf ltac:(lia)
                H qs Hobj Hps)
      as (H' & qs' & Estep & Hobj' & Hps' & Hl' & Hs').
    exists H'. cbn [normalize_traverse]. fold visit. rewrite Estep.
    split; [reflexivity | ]. split; [ | split].
    + cbn [canon]. econstructor; [exact Hl | exact Hobj' | exact Hps'].
    + exact Hl'.
    + intros x Hx. apply Hs'. lia.
Qed.

(** ** Other names and other texts *)

Section Relabel.

Variable rho : string -> string.

Lemma relabel_string_keys key props :
  map fst (relabel_string rho key props) = map fst props.
Proof.
  unfold relabel_string.
  destruct (assoc key props) as [[ | | | s | | ] | ] eqn:E; try reflexivity.
  rewrite assoc_set_keys, E. reflexivity.
Qed.

Lemma relabel_string_well_formed key props :
  Forall (fun kv => well_formed kv.2 = true) props ->
  Forall (fun kv => well_formed kv.2 = true) (relabel_string rho key props).
Proof.
  intros Hall. unfold relabel_string.
  destruct (assoc key props) as [[ | | | s | | ] | ]; try exact Hall.
  apply assoc_set_Forall; [reflexivity | exact Hall].
Qed.

Lemma relabel_string_other key key' props :
  key <> key' -> assoc key' (relabel_string rho key props) = assoc key' props.
Proof.
  intros Hne. unfold relabel_string.
  destruct (assoc key props) as [[ | | | s | | ] | ]; try reflexivity.
  apply assoc_set_ne, Hne.
Qed.

Lemma type_is_relabel_string key props name :
  key <> "type" -> type_is (relabel_string rho key props) name = type_is props name.
Proof.
  intros Hne. unfold type_is. rewrite relabel_string_other by exact Hne.
  reflexivity.
Qed.

(** The placeholder overwrites what [relabel_string] wrote. *)
Lemma relabel_string_overwritten key v props :
  assoc_set key v (map_values canon (relabel_string rho key props))
  = assoc_set key v (map_values canon props).
Proof.
  unfold relabel_string.
  destruct (assoc key props) as [[ | | | s | | ] | ]; try reflexivity.
  rewrite map_values_assoc_set. apply assoc_set_twice.
Qed.

Lemma type_is_relabel props name :
  type_is (map_values (relabel rho) props) name = type_is props name.
Proof.
  unfold type_is. rewrite assoc_map_values.
  destruct (assoc "type" props) as [[ | | | | | ] | ]; reflexivity.
Qed.

Lemma json_truthy_relabel t : json_truthy (relabel rho <$> t) = json_truthy t.
Proof. destruct t as [[ | | | | | ] | ]; reflexivity. Qed.

Lemma relabel_node_plain props :
  type_is props "Identifier" = false ->
  type_is props "Literal" = false ->
  type_is props "StringLiteral" = false ->
  type_is props "TemplateLiteral" = false ->
  relabel_node rho props = props.
Proof.
  intros H1 H2 H3 H4. unfold relabel_node. rewrite H1, H2, H3, H4. reflexivity.
Qed.

Lemma relabel_node_element props :
  type_is props "TemplateElement" = true -> relabel_node rho props = props.
Proof.
  intros Htype.
  apply relabel_node_plain; rewrite (type_is_other _ _ _ Htype); reflexivity.
Qed.

Lemma relabel_untyped value :
  assoc "type" value = None ->
  relabel rho (JObj value) = JObj (map_values (relabel rho) value).
Proof.
  intros Hnone. simpl. rewrite relabel_node_plain; [reflexivity | ..];
    unfold type_is; rewrite assoc_map_values, Hnone; reflexivity.
Qed.

Lemma quasi_ok_relabel quasi :
  quasi_ok quasi = true -> quasi_ok (relabel rho quasi) = true.
Proof.
  intros (props & value & -> & Htype & Hvalue & Hnone)%quasi_ok_inv.
  cbn [relabel].
  rewrite relabel_node_element by (rewrite type_is_relabel; exact Htype).
  cbn [quasi_ok]. rewrite type_is_relabel, Htype, assoc_map_values, Hvalue.
  cbn [fmap option_fmap option_map]. rewrite relabel_untyped by exact Hnone.
  rewrite assoc_map_values, Hnone. reflexivity.
Qed.

Lemma quasi_ok_relabel_quasi quasi :
  quasi_ok quasi = true -> quasi_ok (relabel_quasi rho quasi) = true.
Proof.
  intros (props & value & -> & Htype & Hvalue & Hnone)%quasi_ok_inv.
  cbn [relabel_quasi]. rewrite Hvalue. cbn [quasi_ok].
  rewrite type_is_set by discriminate. rewrite Htype, assoc_set_eq.
  rewrite !relabel_string_other by discriminate. rewrite Hnone. reflexivity.
Qed.

Lemma well_formed_relabel_quasi quasi :
  well_formed quasi = true -> quasi_ok quasi = true ->
  well_formed (relabel_quasi rho quasi) = true.
Proof.
  intros Hwf (props & value & -> & Htype & Hvalue & Hnone)%quasi_ok_inv.
  apply well_formed_obj in Hwf as (Hnd & Hok & Hall).
  cbn [relabel_quasi]. rewrite Hvalue. cbn [well_formed].
  rewrite !andb_true_iff. split; [split | ].
  - apply bool_decide_eq_true, assoc_set_NoDup. exact Hnd.
  - unfold node_ok. rewrite !type_is_set by discriminate.
    rewrite !(type_is_other _ _ _ Htype). reflexivity.
  - apply forallb_Forall, assoc_set_Forall; [ | exact Hall].
    pose proof (well_formed_child _ _ _ Hall Hvalue) as Hv.
    apply well_formed_obj in Hv as (Hndv & Hokv & Hallv).
    cbn [snd well_formed]. rewrite !andb_true_iff. split; [split | ].
    + apply bool_decide_eq_true. rewrite !relabel_string_keys. exact Hndv.
    + unfold node_ok, type_is. rewrite !relabel_string_other by discriminate.
      rewrite Hnone. reflexivity.
    + apply forallb_Forall. do 2 apply relabel_string_well_formed. exact Hallv.
Qed.

Lemma assoc_set_swap {A : Type} key key' (v w : A) (props : list (string * A)) :
  key <> key' -> is_Some (assoc key' props) ->
  assoc_set key v (assoc_set key' w props)
  = assoc_set key' w (assoc_set key v props).
Proof.
  intros Hne. induction props as [ | [k u] rest IH]; simpl.
  - intros [x Hx]. discriminate.
  - intros Hsome. destruct (bool_decide (k = key')) eqn:E1;
      destruct (bool_decide (k = key)) eqn:E2; simpl; rewrite ?E1, ?E2;
      try reflexivity.
    + apply bool_decide_eq_true in E1, E2. congruence.
    + f_equal. apply IH, Hsome.
Qed.

Lemma relabel_cooked_overwritten props :
  assoc_set "cooked" jplaceholder
    (assoc_set "raw" jplaceholder
       (map_values canon (relabel_string rho "cooked" props)))
  = assoc_set "cooked" jplaceholder
      (assoc_set "raw" jplaceholder (map_values canon props)).
Proof.
  unfold relabel_string.
  destruct (assoc "cooked" props) as [[ | | | s | | ] | ] eqn:Ec; try reflexivity.
  rewrite map_values_assoc_set.
  rewrite (assoc_set_swap "raw" "cooked");
    [ | discriminate | rewrite assoc_map_values, Ec; eexists; reflexivity].
  apply assoc_set_twice.
Qed.

(** The placeholders overwrite what [relabel_quasi] wrote. *)
Lemma relabel_quasi_overwritten quasi :
  quasi_ok quasi = true ->
  canon_quasi (canon (relabel_quasi rho quasi)) = canon_quasi (canon quasi).
Proof.
  intros (props & value & -> & Htype & Hvalue & Hnone)%quasi_ok_inv.
  cbn [relabel_quasi]. rewrite Hvalue. cbn [canon].
  rewrite map_values_assoc_set.
  rewrite !canon_node_element
    by (rewrite ?type_is_set by discriminate; rewrite type_is_canon; exact Htype).
  cbn [canon_quasi]. rewrite assoc_set_eq, assoc_map_values, Hvalue.
  cbn [fmap option_fmap option_map].
  rewrite !canon_untyped
    by (rewrite ?relabel_string_other by discriminate; exact Hnone).
  rewrite assoc_set_twice. do 3 f_equal.
  rewrite relabel_cooked_overwritten. f_equal.
  apply relabel_string_overwritten.
Qed.

Lemma node_ok_relabel props :
  node_ok props = true -> node_ok (map_values (relabel rho) props) = true.
Proof.
  unfold node_ok. rewrite !type_is_relabel, !assoc_map_values, json_truthy_relabel.
  intros [Htemplate Hcall]%andb_prop. apply andb_true_iff. split.
  - destruct (type_is props "TemplateLiteral" && json_truthy (assoc "quasis" props));
      [ | reflexivity].
    destruct (assoc "quasis" props) as [[ | | | | quasis | ] | ]; try discriminate.
    destruct (assoc "expressions" props) as [[ | | | | expressions | ] | ];
      try discriminate.
    cbn [fmap option_fmap option_map relabel].
    apply forallb_Forall, Forall_map. apply forallb_Forall in Htemplate.
    apply Forall_impl with (1 := Htemplate). intros q Hq.
    apply quasi_ok_relabel, Hq.
  - destruct (type_is props "CallExpression"); [ | reflexivity].
    destruct (assoc "arguments" props) as [[ | | | | arguments | ] | ];
      try discriminate.
    reflexivity.
Qed.

Lemma node_ok_relabel_string key props :
  key = "name" \/ key = "value" ->
  type_is props "TemplateLiteral" = false ->
  type_is props "CallExpression" = false ->
  node_ok (relabel_string rho key props) = true.
Proof.
  intros Hkey E1 E2. unfold node_ok.
  rewrite !type_is_relabel_string by (destruct Hkey; subst; discriminate).
  rewrite E1, E2. reflexivity.
Qed.

Lemma node_ok_relabel_node props :
  node_ok props = true -> node_ok (relabel_node rho props) = true.
Proof.
  intros Hok. unfold relabel_node.
  destruct (type_is props "Identifier") eqn:E1.
  { apply node_ok_relabel_string; [auto | ..];
      rewrite (type_is_other _ _ _ E1); reflexivity. }
  destruct (type_is props "Literal") eqn:E2.
  { cbn [orb]. apply node_ok_relabel_string; [auto | ..];
      rewrite (type_is_other _ _ _ E2); reflexivity. }
  destruct (type_is props "StringLiteral") eqn:E3.
  { cbn [orb]. apply node_ok_relabel_string; [auto | ..];
      rewrite (type_is_other _ _ _ E3); reflexivity. }
  cbn [orb]. destruct (type_is props "TemplateLiteral") eqn:E4; [ | exact Hok].
  destruct (assoc "quasis" props) as [[ | | | | quasis | ] | ] eqn:Eq;
    try exact Hok.
  revert Hok. unfold node_ok. rewrite !type_is_set by discriminate.
  rewrite E4, !(type_is_other _ _ _ E4), Eq, assoc_set_eq.
  rewrite assoc_set_ne by discriminate.
  cbn [andb json_truthy String.eqb Ascii.eqb Bool.eqb].
  destruct (assoc "expressions" props) as [[ | | | | expressions | ] | ];
    try discriminate.
  rewrite !andb_true_r. intros Hall. apply forallb_Forall, Forall_map.
  apply forallb_Forall in Hall. apply Forall_impl with (1 := Hall).
  intros q Hq. apply quasi_ok_relabel_quasi, Hq.
Qed.

Lemma well_formed_relabel_node props :
  well_formed (JObj props) = true ->
  well_formed (JObj (relabel_node rho props)) = true.
Proof.
  intros Hwf. pose proof Hwf as (Hnd & Hok & Hall)%well_formed_obj.
  cbn [well_formed]. rewrite !andb_true_iff. split; [split | ].
  - apply bool_decide_eq_true. unfold relabel_node.
    repeat match goal with
           | |- context [if ?b then _ else _] => destruct b
           | |- context [match ?o with Some _ => _ | None => _ end] => destruct o
           | |- context [match ?t with JArr _ => _ | _ => _ end] => destruct t
           end;
      rewrite ?relabel_string_keys; try apply assoc_set_NoDup; exact Hnd.
  - apply node_ok_relabel_node, Hok.
  - apply forallb_Forall. unfold relabel_node.
    destruct (type_is props "Identifier");
      [apply relabel_string_well_formed, Hall | ].
    destruct (type_is props "Literal" || type_is props "StringLiteral");
      [apply relabel_string_well_formed, Hall | ].
    destruct (type_is props "TemplateLiteral") eqn:Htype; [ | exact Hall].
    destruct (assoc "quasis" props) as [[ | | | | quasis | ] | ] eqn:Hq;
      try exact Hall.
    apply assoc_set_Forall; [ | exact Hall].
    destruct (node_ok_quasis _ _ Hok Htype Hq) as [Hqs _].
    pose proof (well_formed_child _ _ _ Hall Hq) as Hwq.
    apply well_formed_arr in Hwq.
    cbn [snd well_formed]. apply forallb_Forall, Forall_map.
    rewrite Forall_forall in Hwq, Hqs |- *. intros q Hin.
    apply well_formed_relabel_quasi; auto.
Qed.

Lemma well_formed_relabel t :
  well_formed t = true -> well_formed (relabel rho t) = true.
Proof.
  induction t as [ | b | q | s | elems IH | props IH] using json_nested_ind;
    intros Hwf; try reflexivity.
  - apply well_formed_arr in Hwf. cbn [relabel well_formed].
    apply forallb_Forall, Forall_map.
    rewrite Forall_forall in IH, Hwf |- *. intros t Hin. apply IH; auto.
  - cbn [relabel]. apply well_formed_relabel_node.
    apply well_formed_obj in Hwf as (Hnd & Hok & Hall).
    cbn [well_formed]. rewrite !andb_true_iff. split; [split | ].
    + apply bool_decide_eq_true. rewrite map_values_keys. exact Hnd.
    + apply node_ok_relabel, Hok.
    + apply forallb_Forall. unfold map_values. apply Forall_map.
      rewrite Forall_forall in IH, Hall |- *. intros kv Hin. apply IH; auto.
Qed.

(** The canonical tree does not depend on the names of the identifiers, on
    the texts of the strings, or on the texts of the templates. *)
Lemma canon_relabel t : well_formed t = true -> canon (relabel rho t) = canon t.
Proof.
  induction t as [ | b | q | s | elems IH | props IH] using json_nested_ind;
    intros Hwf; try reflexivity.
  - apply well_formed_arr in Hwf. cbn [relabel canon]. f_equal. rewrite map_map.
    apply map_ext_Forall. rewrite Forall_forall in IH, Hwf |- *.
    intros t Hin. apply IH; auto.
  - apply well_formed_obj in Hwf as (Hnd & Hok & Hall). cbn [relabel canon].
    f_equal.
    assert (Hsame : map_values canon (map_values (relabel rho) props)
                    = map_values canon props).
    { unfold map_values. rewrite map_map. apply map_ext_Forall.
      rewrite Forall_forall in IH, Hall |- *. intros [k t] Hin. cbn [fst snd].
      f_equal. apply (IH _ Hin), (Hall _ Hin). }
    unfold relabel_node. rewrite !type_is_relabel.
    destruct (type_is props "Identifier") eqn:E1.
    { cbv iota. unfold canon_node.
      rewrite type_is_canon, type_is_relabel_string, type_is_relabel, E1
        by discriminate.
      rewrite type_is_canon, E1, relabel_string_overwritten, Hsame. reflexivity. }
    destruct (type_is props "Literal" || type_is props "StringLiteral") eqn:E2.
    { cbv iota. unfold canon_node.
      rewrite !type_is_canon, !type_is_relabel_string, !type_is_relabel, E1, E2
        by discriminate.
      cbn [orb]. cbv iota. rewrite relabel_string_overwritten, Hsame.
      reflexivity. }
    destruct (type_is props "TemplateLiteral") eqn:E3; [ | rewrite Hsame; reflexivity].
    rewrite assoc_map_values.
    destruct (assoc "quasis" props) as [quasis | ] eqn:Hq;
      [ | cbn [fmap option_fmap option_map]; rewrite Hsame; reflexivity].
    destruct quasis as [ | | | | quasis | ];
      try (cbn [fmap option_fmap option_map relabel]; rewrite Hsame; reflexivity).
    cbn [fmap option_fmap option_map relabel].
    rewrite map_values_assoc_set, Hsame. unfold canon_node.
    rewrite !type_is_set by discriminate.
    rewrite !type_is_canon, E1, E2, E3, assoc_set_eq, assoc_map_values, Hq.
    cbn [fmap option_fmap option_map canon]. rewrite assoc_set_twice.
    do 2 f_equal. rewrite !map_map. apply map_ext_Forall.
    destruct (node_ok_quasis _ _ Hok E3 Hq) as [Hqs _].
    pose proof (well_formed_child _ _ _ Hall Hq) as Hwq.
    apply well_formed_arr in Hwq.
    assert (IHq : Forall (fun q => canon (relabel rho q) = canon q) quasis).
    { apply assoc_elem_of in Hq. rewrite Forall_forall in IH.
      specialize (IH _ Hq). cbn [snd] in IH.
      specialize (IH (proj2 (forallb_Forall _ _) Hwq)).
      cbn [relabel canon] in IH. injection IH as IH. rewrite map_map in IH.
      clear -IH. induction quasis as [ | q rest IHrest]; constructor.
      - cbn in IH. congruence.
      - apply IHrest. cbn in IH. congruence. }
    rewrite Forall_forall in Hqs, IHq |- *. intros q Hin. cbn.
    rewrite relabel_quasi_overwritten by (apply quasi_ok_relabel, Hqs, Hin).
    rewrite IHq by exact Hin. reflexivity.
Qed.

End Relabel.

(** ** The engine on every parser, renderer, digest and similarity *)

Section EngineProperties.

#[local] Set Default Proof Using "Type".

Variable parse : string -> exn + json.
Variable generate : json -> exn + string.
Variable hashCode : string -> string.
Variable compareTwoStrings : string -> string -> Q.

(** *** Extraction *)

Lemma nodeToString_ordered base h v b :
  ordered base h -> val_in base b v -> b <= length h ->
  nodeToString generate h v <> OutOfFuel.
Proof.
  intros Hord Hv Hb. unfold nodeToString, stringify.
  destruct (readback_ordered base (S (length h)) [] h v b) as [o ->]; auto.
  - intros s Hs. inversion Hs.
  - lia.
  - destruct o as [t | ]; [ | discriminate].
    destruct (generate t); discriminate.
Qed.

(** On a tree in the store the walker of [extractFunctions] comes to an end
    with fuel for the depth of the tree. *)
Lemma extract_traverse_ordered base fuel :
  forall h v b functions,
    ordered base h -> val_in base b v -> b <= length h -> b < fuel ->
    extract_traverse generate fuel h v functions <> OutOfFuel.
Proof.
  induction fuel as [ | fuel IH]; intros h v b functions Hord Hv Hb Hfuel; [lia | ].
  simpl. destruct (negb (truthy v)); [discriminate | ].
  assert (Hfirst : forall fs,
    (if is_function_node h v
     then let* code := nodeToString generate h v in Ret (fs ++ [code])
     else Ret fs) <> OutOfFuel).
  { intros fs. destruct (is_function_node h v); [ | discriminate].
    pose proof (nodeToString_ordered base h v b Hord Hv Hb) as Hn.
    destruct (nodeToString generate h v); simpl; [discriminate | discriminate | contradiction]. }
  specialize (Hfirst functions).
  destruct (if is_function_node h v then _ else _) as [functions1 | e | ];
    simpl; [ | discriminate | contradiction].
  clear Hfirst. destruct v as [ | | c | q | s | l]; simpl; try discriminate.
  simpl in Hv. destruct (h !! l) as [o | ] eqn:Hl; [ | discriminate].
  assert (Hvals : Forall (val_in base l) (obj_values o)) by (eapply Hord; [lia | exact Hl]).
  clear Hl. generalize functions1. induction Hvals as [ | v vs Hv1 _ IHvs];
    intros fs; [discriminate | ].
  destruct (is_object v); [ | apply IHvs].
  pose proof (IH h v l fs Hord Hv1 ltac:(lia) ltac:(lia)) as Hrec.
  destruct (extract_traverse generate fuel h v fs) as [fs' | e | ]; simpl;
    [apply IHvs | discriminate | contradiction].
Qed.

(** *** Programs that keep the store *)

Lemma well_behaved_ret {A : Type} (a : A) : well_behaved (prog_ret a).
Proof. intros h. split; [apply preserves_refl | discriminate]. Qed.

Lemma well_behaved_bind {A B : Type} (m : prog A) (k : A -> prog B) :
  well_behaved m -> (forall a, well_behaved (k a)) ->
  well_behaved (prog_bind m k).
Proof.
  intros Hm Hk h. unfold prog_bind. destruct (Hm h) as [Hp Hr].
  destruct (m h) as [h1 [a | e | ]]; simpl in *.
  - destruct (Hk a h1) as [Hp2 Hr2]. split; [ | exact Hr2].
    eapply preserves_trans; eassumption.
  - split; [exact Hp | discriminate].
  - contradiction.
Qed.

Lemma well_behaved_fold {A S : Type} (body : A -> S -> prog S) (xs : list A) :
  (forall x acc, well_behaved (body x acc)) ->
  forall acc, well_behaved (prog_fold body xs acc).
Proof.
  intros Hbody. induction xs as [ | x rest IH]; intros acc; simpl.
  - apply well_behaved_ret.
  - apply well_behaved_bind; [apply Hbody | exact IH].
Qed.

(** The canonicalizer writes only the clone it makes, and comes to an end. *)
Lemma well_behaved_normalizeAST node : well_behaved (normalizeAST generate node).
Proof.
  intros h. unfold normalizeAST. pose proof (stringify_fuel h node) as Hs.
  destruct (stringify h node) as [[t | ] | e | ]; cbn [fst snd];
    try (split; [apply preserves_refl | discriminate]); [ | contradiction].
  destruct (alloc_ordered (length h) t h (le_n _) (ordered_fresh h))
    as (Hord1 & Hv1 & Hp1).
  destruct (alloc t h) as [h1 clonedNode]; cbn [fst snd] in *.
  destruct (normalize_traverse_safe (length h) (S (length h1)) h1 clonedNode
              (length h1) Hord1 Hv1 ltac:(lia))
    as (h2 & -> & Hlen & Hord2 & Hframe).
  pose proof (nodeToString_ordered (length h) h2 clonedNode (length h1) Hord2 Hv1
                ltac:(lia)) as Hn.
  assert (Hp2 : preserves h h2).
  { intros l Hl. rewrite Hframe by exact Hl. apply Hp1. exact Hl. }
  destruct (nodeToString generate h2 clonedNode); cbn [fst snd];
    [split; [exact Hp2 | discriminate] .. | contradiction].
Qed.

(** Parsing a text and walking its tree. *)
Lemma well_behaved_parse_extract {B : Type} (text : string)
  (k : list string -> prog B) :
  (forall functions, well_behaved (k functions)) ->
  well_behaved
    (run ast := parse_text parse text in
     run functions := extract generate ast in k functions).
Proof.
  intros Hk h. unfold prog_bind, parse_text.
  destruct (parse text) as [e | t]; simpl.
  { split; [apply preserves_refl | discriminate]. }
  destruct (alloc_ordered (length h) t h (le_n _) (ordered_fresh h))
    as (Hord1 & Hv1 & Hp1).
  destruct (alloc t h) as [h1 ast]; cbn [fst snd] in *.
  unfold extract, prog_lift, extractFunctions.
  pose proof (extract_traverse_ordered (length h) (S (S (length h1))) h1 ast
                (length h1) [] Hord1 Hv1 (le_n _) ltac:(lia)) as Hx.
  destruct (extract_traverse generate (S (S (length h1))) h1 ast [])
    as [functions | e | ]; simpl.
  - destruct (Hk functions h1) as [Hp2 Hr2]. split; [ | exact Hr2].
    eapply preserves_trans; eassumption.
  - split; [exact Hp1 | discriminate].
  - contradiction.
Qed.

Lemma well_behaved_file_extract {B : Type} (fileMap : gmap string string)
  (file : string) (k : list string -> prog B) :
  (forall functions, well_behaved (k functions)) ->
  well_behaved
    (run ast := parse_file parse fileMap file in
     run functions := extract generate ast in k functions).
Proof.
  intros Hk. unfold parse_file. destruct (fileMap !! file) as [text | ].
  - apply well_behaved_parse_extract. exact Hk.
  - intros h. unfold prog_bind. simpl. split; [apply preserves_refl | discriminate].
Qed.

Lemma well_behaved_exact files fileMap :
  well_behaved (findExactDuplicates parse generate hashCode files fileMap).
Proof.
  apply well_behaved_bind; [ | intros; apply well_behaved_ret].
  apply well_behaved_fold. intros file hashes.
  apply well_behaved_file_extract. intros; apply well_behaved_ret.
Qed.

Lemma well_behaved_near files fileMap threshold :
  well_behaved
    (findNearDuplicates parse generate compareTwoStrings files fileMap threshold).
Proof.
  apply well_behaved_bind; [ | intros; apply well_behaved_ret].
  apply well_behaved_fold. intros file functions.
  apply well_behaved_file_extract. intros; apply well_behaved_ret.
Qed.

Lemma well_behaved_structural_function file originalFunction table :
  well_behaved
    (structural_function parse generate hashCode file originalFunction table).
Proof.
  intros h. unfold structural_function.
  assert (Hw : well_behaved
    (run ast := parse_text parse originalFunction in
     run normalizedCode := normalizeAST generate ast in
     if String.eqb normalizedCode ""
     then prog_ret table
     else prog_ret
            (record_structural hashCode file originalFunction normalizedCode table))).
  { apply well_behaved_bind.
    - intros h0. unfold parse_text. destruct (parse originalFunction) as [e | t]; simpl.
      + split; [apply preserves_refl | discriminate].
      + destruct (alloc_ordered (length h0) t h0 (le_n _) (ordered_fresh h0))
          as (_ & _ & Hp). destruct (alloc t h0); simpl in *.
        split; [exact Hp | discriminate].
    - intros ast. apply well_behaved_bind; [apply well_behaved_normalizeAST | ].
      intros code. destruct (String.eqb code ""); apply well_behaved_ret. }
  destruct (Hw h) as [Hp Hr].
  match goal with
  | |- context [match ?m with (_, _) => _ end] => destruct m as [h1 [a | e | ]]
  end; simpl in *; (split; [exact Hp | try discriminate; try contradiction]).
Qed.

Lemma well_behaved_structural files fileMap :
  well_behaved (findStructuralDuplicates parse generate hashCode files fileMap).
Proof.
  apply well_behaved_bind; [ | intros; apply well_behaved_ret].
  apply well_behaved_fold. intros file table.
  apply well_behaved_file_extract. intros functions.
  apply well_behaved_fold. intros f acc. apply well_behaved_structural_function.
Qed.

(** What the caller passed is read the same way in a store that kept its
    objects. *)
Lemma files_of_preserved h h' files fs :
  preserves h h' -> files_of h files = Some fs -> files_of h' files = Some fs.
Proof.
  intros Hp. unfold files_of. destruct files as [ | | b | q | s | l]; try discriminate.
  destruct (h !! l) as [o | ] eqn:Hl; [ | discriminate].
  rewrite Hp by (eapply lookup_lt_Some; exact Hl). rewrite Hl. auto.
Qed.

Lemma fileMap_of_preserved h h' fileMap fm :
  preserves h h' -> fileMap_of h fileMap = Some fm ->
  fileMap_of h' fileMap = Some fm.
Proof.
  intros Hp. unfold fileMap_of. destruct fileMap as [ | | b | q | s | l]; try discriminate.
  destruct (h !! l) as [o | ] eqn:Hl; [ | discriminate].
  rewrite Hp by (eapply lookup_lt_Some; exact Hl). rewrite Hl. auto.
Qed.

Lemma call_keeps_arguments {A : Type}
  (finder : list string -> gmap string string -> prog A) (files fileMap : value) :
  (forall fs fm, well_behaved (finder fs fm)) ->
  forall h,
    preserves h (call finder files fileMap h).1 /\
    files_of (call finder files fileMap h).1 files = files_of h files /\
    fileMap_of (call finder files fileMap h).1 fileMap = fileMap_of h fileMap.
Proof.
  intros Hw h. unfold call.
  destruct (files_of h files) as [fs | ] eqn:Hfs;
    [ | simpl; rewrite Hfs; auto using preserves_refl].
  destruct (fileMap_of h fileMap) as [fm | ] eqn:Hfm;
    [ | simpl; rewrite Hfs, Hfm; auto using preserves_refl].
  destruct (Hw fs fm h) as [Hp _]. split; [exact Hp | split].
  - eapply files_of_preserved; eassumption.
  - eapply fileMap_of_preserved; eassumption.
Qed.

(** *** A file that does not parse *)

Lemma prog_fold_throws {A S : Type} (body : A -> S -> prog S) (xs : list A)
  (x : A) :
  x ∈ xs ->
  (forall acc h, exists e, (body x acc h).2 = Throw e) ->
  (forall y acc, well_behaved (body y acc)) ->
  forall acc h, exists e, (prog_fold body xs acc h).2 = Throw e.
Proof.
  intros Hin Hx Hwb. induction xs as [ | y rest IH]; intros acc h.
  - inversion Hin.
  - simpl. unfold prog_bind.
    apply elem_of_cons in Hin as [<- | Hin].
    + destruct (Hx acc h) as [e He]. destruct (body x acc h) as [h1 r];
        simpl in He; subst r. exists e. reflexivity.
    + destruct (Hwb y acc h) as [_ Hr].
      destruct (body y acc h) as [h1 [acc' | e | ]]; simpl in *.
      * apply IH. exact Hin.
      * exists e. reflexivity.
      * contradiction.
Qed.

Lemma parse_file_throws {B : Type} fileMap file text e (k : value -> prog B) h :
  fileMap !! file = Some text -> parse text = inl e ->
  (run ast := parse_file parse fileMap file in k ast) h = (h, Throw e).
Proof.
  intros Hmap Hparse. unfold prog_bind, parse_file, parse_text.
  rewrite Hmap, Hparse. reflexivity.
Qed.

Lemma prog_bind_throws {A B : Type} (m : prog A) (k : A -> prog B) h :
  (exists e, (m h).2 = Throw e) -> exists e, (prog_bind m k h).2 = Throw e.
Proof.
  intros [e He]. unfold prog_bind. destruct (m h) as [h1 r]; simpl in He; subst r.
  exists e. reflexivity.
Qed.


(** *** The walker on a tree *)

Lemma render_into_app functions nodes nodes' :
  render_into generate functions (nodes ++ nodes') =
  let* functions' := render_into generate functions nodes in
  render_into generate functions' nodes'.
Proof.
  revert functions. induction nodes as [ | t rest IH]; intros functions; simpl.
  - reflexivity.
  - destruct (of_call (generate t)) as [code | e | ]; simpl; auto.
Qed.

Lemma alloc_not_object t h :
  is_object (alloc t h).2 = false -> function_nodes t = [].
Proof.
  destruct t as [ | b | q | s | elems | props]; simpl; try reflexivity;
    try discriminate;
    match goal with
    | |- context [let '(_, _) := ?m in _] => destruct m
    end; discriminate.
Qed.

Lemma alloc_not_string t h s : (alloc t h).2 = VStr s -> t = JStr s.
Proof.
  destruct t as [ | b | q | s' | elems | props]; simpl; try discriminate.
  - intros [= ->]. reflexivity.
  - match goal with
    | |- context [let '(_, _) := ?m in _] => destruct m
    end; discriminate.
  - match goal with
    | |- context [let '(_, _) := ?m in _] => destruct m
    end; discriminate.
Qed.

(** On the objects of a tree, in a store that kept them, the walker of
    [extractFunctions] pushes the renderings of the function-like subtrees,
    depth first. *)
Lemma extract_traverse_alloc t :
  forall h H fuel functions,
    preserves (alloc t h).1 H -> length (alloc t h).1 < fuel ->
    extract_traverse generate fuel H (alloc t h).2 functions
    = render_into generate functions (function_nodes t).
Proof.
  induction t as [ | b | q | s | elems IH | props IH] using json_nested_ind;
    intros h H fuel functions Hp Hfuel;
    (destruct fuel as [ | fuel]; [lia | ]).
  - reflexivity.
  - destruct b; reflexivity.
  - simpl. destruct (Qeq_bool q 0); reflexivity.
  - simpl. destruct (String.eqb s ""); reflexivity.
  - pose proof (readback_alloc (JArr elems) h H (S (length H)) [] Hp) as Hread.
    simpl in *.
    set (each := fix each (ts : list json) (h : heap) : heap * list value :=
           match ts with
           | [] => (h, [])
           | t :: rest =>
               let '(h1, v) := alloc t h in
               let '(h2, vs) := each rest h1 in (h2, v :: vs)
           end) in *.
    assert (Heach : forall h H functions,
              preserves (each elems h).1 H -> length (each elems h).1 < fuel ->
              preserves h (each elems h).1 /\
              (fix loop (vs : list value) (functions : list string)
                 : outcome (list string) :=
                 match vs with
                 | [] => Ret functions
                 | v :: rest =>
                     if is_object v
                     then let* functions' :=
                            extract_traverse generate fuel H v functions in
                          loop rest functions'
                     else loop rest functions
                 end) (each elems h).2 functions
              = render_into generate functions
                  ((fix each (ts : list json) : list json :=
                      match ts with
                      | [] => []
                      | t' :: rest => function_nodes t' ++ each rest
                      end) elems)).
    { clear h H functions Hp Hfuel Hread.
      induction IH as [ | t rest Ht _ IHrest]; intros h H functions Hp Hfuel;
        simpl in *; [split; [apply preserves_refl | reflexivity] | ].
      specialize (Ht h). specialize (IHrest (alloc t h).1).
      pose proof (alloc_not_object t h) as Hprim.
      destruct (alloc_ordered (length h) t h (le_n _) (ordered_fresh h)) as (_ & _ & Hp1).
      destruct (alloc t h) as [h1 v]; simpl in *.
      specialize (IHrest H).
      destruct (each rest h1) as [h2 vs]; simpl in *.
      assert (Hp2 : preserves h1 h2) by (apply (IHrest functions Hp Hfuel)).
      pose proof (preserves_length _ _ Hp2) as Hlen.
      split; [eapply preserves_trans; eassumption | ].
      rewrite render_into_app. destruct (is_object v).
      - rewrite (Ht H fuel functions) by
          (try (eapply preserves_trans; eassumption); lia).
        destruct (render_into generate functions (function_nodes t)) as [fs | e | ];
          simpl; [ | reflexivity | reflexivity].
        apply (IHrest fs Hp Hfuel).
      - rewrite Hprim by reflexivity. simpl. apply (IHrest functions Hp Hfuel). }
    specialize (Heach h). destruct (each elems h) as [h' vs]; simpl in *.
    rewrite length_app in *; simpl in *.
    unfold is_function_node, has_type, node_values. simpl.
    rewrite Hp by (rewrite length_app; simpl; lia).
    rewrite lookup_app_r, Nat.sub_diag by lia. simpl. rewrite app_nil_r.
    apply Heach; [ | lia].
    eapply preserves_trans; [apply preserves_app | exact Hp].
  - pose proof (readback_alloc (JObj props) h H (S (length H)) [] Hp) as Hread.
    remember (readback (S (length H)) [] H) as rb eqn:Hrb in Hread.
    simpl in Hp, Hfuel, Hread |- *.
    set (each := fix each (ts : list (string * json)) (h : heap)
             : heap * list (string * value) :=
           match ts with
           | [] => (h, [])
           | (k, t) :: rest =>
               let '(h1, v) := alloc t h in
               let '(h2, ps) := each rest h1 in (h2, (k, v) :: ps)
           end) in *.
    assert (Heach : forall h H functions,
              preserves (each props h).1 H -> length (each props h).1 < fuel ->
              preserves h (each props h).1 /\
              (forall key,
                 match assoc key (each props h).2 with
                 | Some (VStr s) => assoc key props = Some (JStr s)
                 | Some _ =>
                     match assoc key props with
                     | Some (JStr _) | None => False
                     | Some _ => True
                     end
                 | None => assoc key props = None
                 end) /\
              (fix loop (vs : list value) (functions : list string)
                 : outcome (list string) :=
                 match vs with
                 | [] => Ret functions
                 | v :: rest =>
                     if is_object v
                     then let* functions' :=
                            extract_traverse generate fuel H v functions in
                          loop rest functions'
                     else loop rest functions
                 end) (map snd (each props h).2) functions
              = render_into generate functions
                  ((fix each (ps : list (string * json)) : list json :=
                      match ps with
                      | [] => []
                      | (_, t') :: rest => function_nodes t' ++ each rest
                      end) props)).
    { clear h H functions Hp Hfuel Hread rb Hrb.
      induction IH as [ | [k t] rest Ht _ IHrest]; intros h H functions Hp Hfuel;
        simpl in *; [split; [apply preserves_refl | split; [intros; reflexivity | reflexivity]] | ].
      specialize (Ht h). specialize (IHrest (alloc t h).1).
      pose proof (alloc_not_object t h) as Hprim.
      pose proof (alloc_not_string t h) as Hstr.
      assert (Hjs : forall s, t = JStr s -> (alloc t h).2 = VStr s)
        by (intros s ->; reflexivity).
      destruct (alloc_ordered (length h) t h (le_n _) (ordered_fresh h)) as (_ & _ & Hp1).
      destruct (alloc t h) as [h1 v]; simpl in *.
      specialize (IHrest H).
      destruct (each rest h1) as [h2 vs]; simpl in *.
      assert (Hp2 : preserves h1 h2) by (apply (IHrest functions Hp Hfuel)).
      pose proof (preserves_length _ _ Hp2) as Hlen.
      split; [eapply preserves_trans; eassumption | split].
      - intros key. case_bool_decide as Hk; [ | apply (IHrest functions Hp Hfuel)].
        destruct v as [ | | b | q | s | l]; destruct t as [ | b' | q' | s' | es | ps];
          try exact I; try (specialize (Hjs _ eq_refl); discriminate);
          try (specialize (Hstr _ eq_refl); discriminate).
        specialize (Hstr _ eq_refl). exact (f_equal Some Hstr).
      - rewrite render_into_app. destruct (is_object v).
        + rewrite (Ht H fuel functions) by
            (try (eapply preserves_trans; eassumption); lia).
          destruct (render_into generate functions (function_nodes t)) as [fs | e | ];
            simpl; [ | reflexivity | reflexivity].
          apply (IHrest fs Hp Hfuel).
        + rewrite Hprim by reflexivity. simpl. apply (IHrest functions Hp Hfuel). }
    specialize (Heach h). destruct (each props h) as [h' ps]; cbn [fst snd] in *.
    rewrite ?length_app in Hfuel, Hread; cbn [length] in Hfuel, Hread.
    pose proof (preserves_length _ _ Hp) as HlenH. rewrite length_app in HlenH.
    cbn [length] in HlenH.
    assert (Hl : H !! length h' = Some (Obj ps)).
    { rewrite Hp by (rewrite length_app; simpl; lia).
      rewrite lookup_app_r, Nat.sub_diag by lia. reflexivity. }
    destruct (Heach H functions) as (_ & Hkey & _);
      [eapply preserves_trans; [apply preserves_app | exact Hp] | lia | ].
    assert (Hfn : is_function_node H (VRef (length h')) = is_function_tree (JObj props)).
    { unfold is_function_node, has_type, get_prop, obj_get. rewrite Hl. simpl.
      specialize (Hkey "type").
      destruct (assoc "type" ps) as [[ | | b | q | s | l] | ]; simpl;
        destruct (assoc "type" props) as [[ | b' | q' | s' | es | ps'] | ];
        try contradiction; try discriminate; try reflexivity.
      injection Hkey as ->. reflexivity. }
    rewrite Hfn. unfold nodeToString, stringify. subst rb.
    rewrite Hread by (try (intros s Hs; inversion Hs); lia).
    unfold node_values. rewrite Hl. simpl obj_values.
    rewrite render_into_app. fold (is_function_tree (JObj props)).
    destruct (is_function_tree (JObj props)); simpl.
    + destruct (of_call (generate (JObj props))) as [code | e | ]; simpl;
        [ | reflexivity | reflexivity].
      apply Heach; [ | lia].
      eapply preserves_trans; [apply preserves_app | exact Hp].
    + apply Heach; [ | lia].
      eapply preserves_trans; [apply preserves_app | exact Hp].
Qed.

(** X1. On every tree the parser may return, [extractFunctions] gives the
    renderings of all function-like subtrees (declarations, function
    expressions, arrow functions), depth first and a node before the nodes
    below it, or throws the first error of the renderer. *)
Theorem extractFunctions_on_trees (t : json) (h : heap) (more : nat) :
  extractFunctions generate (S (S (length (alloc t h).1)) + more)
    (alloc t h).1 (alloc t h).2
  = render_into generate [] (function_nodes t).
Proof.
  unfold extractFunctions. apply extract_traverse_alloc; [apply preserves_refl | lia].
Qed.


(** C1 (as amended). A file whose text does not parse is not set aside: when
    the text of one of the files fails to parse, each of the three finders
    throws, so the exception reaches the caller and no group or match is
    returned. Only the parse of one extracted function in
    [findStructuralDuplicates] is inside a [try]: the same text met there
    skips that function alone and the run goes on. *)
Theorem parse_error_escapes (files : list string) (fileMap : gmap string string)
  (threshold : Q) (file text : string) (e : exn) :
  file ∈ files -> fileMap !! file = Some text -> parse text = inl e ->
  (forall h, exists e1,
     (findExactDuplicates parse generate hashCode files fileMap h).2 = Throw e1) /\
  (forall h, exists e2,
     (findNearDuplicates parse generate compareTwoStrings files fileMap threshold
        h).2 = Throw e2) /\
  (forall h, exists e3,
     (findStructuralDuplicates parse generate hashCode files fileMap h).2
     = Throw e3) /\
  (forall f table h,
     structural_function parse generate hashCode f text table h = (h, Ret table)).
Proof.
  intros Hin Hmap Hparse. repeat split.
  - intros h. apply prog_bind_throws.
    apply (prog_fold_throws _ _ file Hin).
    + intros acc h0. exists e. unfold exact_file.
      rewrite (parse_file_throws fileMap file text e); auto.
    + intros y acc. apply well_behaved_file_extract. intros; apply well_behaved_ret.
  - intros h. apply prog_bind_throws.
    apply (prog_fold_throws _ _ file Hin).
    + intros acc h0. exists e. unfold near_file.
      rewrite (parse_file_throws fileMap file text e); auto.
    + intros y acc. apply well_behaved_file_extract. intros; apply well_behaved_ret.
  - intros h. apply prog_bind_throws.
    apply (prog_fold_throws _ _ file Hin).
    + intros acc h0. exists e. unfold structural_file.
      rewrite (parse_file_throws fileMap file text e); auto.
    + intros y acc. apply well_behaved_file_extract. intros functions.
      apply well_behaved_fold. intros; apply well_behaved_structural_function.
  - intros f table h. unfold structural_function, prog_bind, parse_text.
    rewrite Hparse. reflexivity.
Qed.

(** C2 (as amended). The walker of [extractFunctions] comes to an end on
    every tree: for the objects of any JSON tree, in any store, fuel beyond
    the size of the store is never used up. It bounds no depth and keeps no
    set of visited nodes, so on a structure that contains itself it has no
    end ([extractFunctions_cyclic]). *)
Theorem extractFunctions_ends_on_trees (t : json) (h : heap) (more : nat) :
  extractFunctions generate (S (S (length (alloc t h).1)) + more)
    (alloc t h).1 (alloc t h).2 <> OutOfFuel.
Proof.
  destruct (alloc_ordered (length h) t h (le_n _) (ordered_fresh h))
    as (Hord & Hv & _).
  unfold extractFunctions.
  apply (extract_traverse_ordered (length h) _ _ _ (length (alloc t h).1));
    [exact Hord | exact Hv | lia | lia].
Qed.

(** C10. The finders leave their arguments as they were: after a call every
    object that was in the store is unchanged, so the array [files] and the
    object [fileMap] read as before; and [normalizeAST] writes only the clone
    it makes, never an object that was there before. *)
Theorem finders_keep_their_arguments (files fileMap node : value)
  (threshold : Q) (h : heap) :
  kept h (call (findExactDuplicates parse generate hashCode) files fileMap h).1
    files fileMap /\
  kept h
    (call (fun fs fm =>
             findNearDuplicates parse generate compareTwoStrings fs fm threshold)
       files fileMap h).1 files fileMap /\
  kept h (call (findStructuralDuplicates parse generate hashCode) files fileMap h).1
    files fileMap /\
  preserves h (normalizeAST generate node h).1.
Proof.
  repeat split;
    try apply (call_keeps_arguments _ files fileMap);
    try apply well_behaved_normalizeAST;
    intros fs fm;
    auto using well_behaved_exact, well_behaved_near, well_behaved_structural.
Qed.

(** *** Exact duplicates *)

Lemma record_exact_invariant file hashes func :
  exact_invariant hashes ->
  exact_invariant (record_exact hashCode file hashes func).
Proof.
  intros [Hkeys Hfiles]. unfold record_exact.
  set (funcCode := trim func). set (hash := hashCode funcCode).
  set (hashes1 := match assoc hash hashes with
                  | None => assoc_set hash {| e_code := funcCode; e_files := [] |} hashes
                  | Some _ => hashes
                  end).
  assert (H1 : exact_invariant hashes1).
  { unfold hashes1. destruct (assoc hash hashes); [split; assumption | ]. split.
    - apply assoc_set_NoDup. exact Hkeys.
    - apply assoc_set_Forall; [constructor | exact Hfiles]. }
  destruct H1 as [Hkeys1 Hfiles1].
  destruct (assoc hash hashes1) as [entry | ] eqn:E; [ | split; assumption].
  case_bool_decide as Hin; [split; assumption | ]. split.
  - apply assoc_set_NoDup. exact Hkeys1.
  - apply assoc_set_Forall; [ | exact Hfiles1]. simpl.
    apply assoc_elem_of in E. rewrite Forall_forall in Hfiles1.
    specialize (Hfiles1 _ E). simpl in Hfiles1.
    apply NoDup_app. split; [exact Hfiles1 | split].
    + intros x Hx [-> | Hx']%elem_of_cons; [contradiction | inversion Hx'].
    + apply NoDup_singleton.
Qed.

Lemma prog_fold_invariant {A S : Type} (Inv : S -> Prop)
  (body : A -> S -> prog S) (xs : list A) :
  (forall x acc h, Inv acc ->
     match (body x acc h).2 with Ret acc' => Inv acc' | _ => True end) ->
  forall acc h, Inv acc ->
    match (prog_fold body xs acc h).2 with Ret acc' => Inv acc' | _ => True end.
Proof.
  intros Hbody. induction xs as [ | x rest IH]; intros acc h Hacc; simpl.
  - exact Hacc.
  - unfold prog_bind. specialize (Hbody x acc h Hacc).
    destruct (body x acc h) as [h1 [acc' | e | ]]; simpl in *;
      [apply IH; exact Hbody | exact I | exact I].
Qed.

Lemma exact_table_invariant files fileMap h :
  match (exact_table parse generate hashCode files fileMap h).2 with
  | Ret hashes => exact_invariant hashes
  | _ => True
  end.
Proof.
  apply prog_fold_invariant.
  - intros file acc h0 Hacc. unfold exact_file, prog_bind, extract, prog_lift.
    destruct (parse_file parse fileMap file h0) as [h1 [ast | e | ]];
      cbn [fst snd]; auto.
    destruct (extractFunctions generate (S (S (length h1))) h1 ast)
      as [functions | e | ]; cbn [fst snd prog_ret]; auto.
    revert acc Hacc. induction functions as [ | f rest IH]; intros acc Hacc; simpl.
    + exact Hacc.
    + apply IH. apply record_exact_invariant. exact Hacc.
  - split; constructor.
Qed.

(** C5. In [findExactDuplicates] a file is recorded at most once for a
    digest, however often it holds the same function, every returned group
    lists at least two files, all different, and the returned groups are the
    entries with more than one file: an entry with one file is left out. *)
Theorem exact_groups_list_distinct_files (files : list string)
  (fileMap : gmap string string) (h : heap) :
  match exact_table parse generate hashCode files fileMap h with
  | (h', Ret hashes) =>
      NoDup (map fst hashes) /\
      Forall (fun kv => NoDup (e_files kv.2)) hashes /\
      findExactDuplicates parse generate hashCode files fileMap h
      = (h', Ret (exact_groups hashes)) /\
      Forall (fun g => NoDup (g_files g) /\ 2 <= length (g_files g))
        (exact_groups hashes) /\
      (forall g, g ∈ exact_groups hashes <->
         exists kv, kv ∈ hashes /\ 2 <= length (e_files kv.2) /\
           g = {| g_function := e_code kv.2; g_files := e_files kv.2 |})
  | (h', Throw e) =>
      findExactDuplicates parse generate hashCode files fileMap h = (h', Throw e)
  | (h', OutOfFuel) => False
  end.
Proof.
  pose proof (exact_table_invariant files fileMap h) as Hinv.
  pose proof (well_behaved_fold (exact_file parse generate hashCode fileMap) files
                (fun file hashes =>
                   well_behaved_file_extract fileMap file _
                     (fun functions => well_behaved_ret _)) [] h) as [_ Hend].
  unfold findExactDuplicates, prog_bind.
  fold (exact_table parse generate hashCode files fileMap) in Hend.
  destruct (exact_table parse generate hashCode files fileMap h)
    as [h' [hashes | e | ]]; simpl in *; [ | reflexivity | congruence].
  destruct Hinv as [Hkeys Hfiles].
  assert (Hgroups : forall g, g ∈ exact_groups hashes <->
            exists kv, kv ∈ hashes /\ 2 <= length (e_files kv.2) /\
              g = {| g_function := e_code kv.2; g_files := e_files kv.2 |}).
  { intros g. unfold exact_groups. rewrite list_elem_of_fmap. split.
    - intros (entry & -> & Hin). apply list_elem_of_filter in Hin as [Hlen Hin].
      apply list_elem_of_fmap in Hin as (kv & -> & Hkv).
      exists kv. split; [exact Hkv | split; [simpl in Hlen; lia | reflexivity]].
    - intros (kv & Hkv & Hlen & ->). exists kv.2. split; [reflexivity | ].
      apply list_elem_of_filter. split; [simpl; lia | ].
      apply list_elem_of_fmap. exists kv. split; [reflexivity | exact Hkv]. }
  repeat split; try assumption; try apply Hgroups.
  rewrite Forall_forall. intros g Hg. apply Hgroups in Hg as (kv & Hkv & Hlen & ->).
  simpl. split; [ | exact Hlen].
  rewrite Forall_forall in Hfiles. apply (Hfiles kv Hkv).
Qed.

(** *** Structural duplicates *)

Lemma prog_fold_alike {A S T : Type} (R : S -> T -> Prop)
  (body1 : A -> S -> prog S) (body2 : A -> T -> prog T) (xs : list A) :
  (forall x s t h, R s t -> alike R (body1 x s h) (body2 x t h)) ->
  forall s t h, R s t -> alike R (prog_fold body1 xs s h) (prog_fold body2 xs t h).
Proof.
  intros Hbody. induction xs as [ | x rest IH]; intros s t h Hst; simpl.
  - split; [reflexivity | exact Hst].
  - unfold prog_bind. destruct (Hbody x s t h Hst) as [Hh Hr].
    destruct (body1 x s h) as [h1 r1], (body2 x t h) as [h2 r2]; simpl in *.
    subst h2. destruct r1, r2; try contradiction.
    + apply IH. exact Hr.
    + split; [reflexivity | exact Hr].
    + split; [reflexivity | exact I].
Qed.

Lemma structural_table_occurrences files fileMap h :
  alike (fun occs table => table = table_of hashCode occs)
    (occurrences parse generate files fileMap h)
    (structural_table parse generate hashCode files fileMap h).
Proof.
  apply prog_fold_alike; [ | reflexivity].
  intros file occs table h0 ->. unfold occurrences_file, structural_file, prog_bind.
  destruct (parse_file parse fileMap file h0) as [h1 [ast | e | ]];
    [ | split; reflexivity | split; [reflexivity | exact I]].
  destruct (extract generate ast h1) as [h2 [functions | e | ]];
    [ | split; reflexivity | split; [reflexivity | exact I]].
  apply prog_fold_alike; [ | reflexivity].
  intros f occs1 table1 h3 ->.
  unfold occurrences_function, structural_function, prog_bind.
  destruct (parse_text parse f h3) as [h4 [ast1 | e | ]];
    [ | split; reflexivity | split; [reflexivity | exact I]].
  destruct (normalizeAST generate ast1 h4) as [h5 [code | e | ]];
    [ | split; reflexivity | split; [reflexivity | exact I]].
  destruct (String.eqb code ""); (split; [reflexivity | ]); simpl;
    [reflexivity | ].
  symmetry. unfold table_of. rewrite fold_left_app. reflexivity.
Qed.

Lemma with_hash_snoc hash occs occ :
  with_hash hashCode hash (occs ++ [occ]) =
  with_hash hashCode hash occs ++
    (if decide (hashCode occ.1 = hash) then [occ] else []).
Proof.
  unfold with_hash. rewrite filter_app. reflexivity.
Qed.

(** The entry of a digest in the table is its group. *)
Lemma table_of_lookup occs :
  NoDup (map fst (table_of hashCode occs)) /\
  forall hash, assoc hash (table_of hashCode occs) = group_of hashCode hash occs.
Proof.
  induction occs as [ | [code [file f]] occs [IHkeys IH]] using rev_ind.
  - split; [constructor | reflexivity].
  - unfold table_of. rewrite fold_left_app. fold (table_of hashCode occs). simpl.
    unfold record_structural.
    set (hash := hashCode code).
    set (table1 := match assoc hash (table_of hashCode occs) with
                    | None => assoc_set hash
                                {| normalizedFunction := code; originalFunctions := [] |}
                                (table_of hashCode occs)
                    | Some _ => table_of hashCode occs
                    end).
    assert (Hkeys1 : NoDup (map fst table1)).
    { unfold table1. destruct (assoc hash (table_of hashCode occs));
        [exact IHkeys | apply assoc_set_NoDup; exact IHkeys]. }
    assert (H1 : exists entry, assoc hash table1 = Some entry /\
              entry = match group_of hashCode hash occs with
                      | Some g => g
                      | None => {| normalizedFunction := code; originalFunctions := [] |}
                      end).
    { unfold table1. rewrite <- IH.
      destruct (assoc hash (table_of hashCode occs)) as [entry | ] eqn:E.
      - exists entry. split; [exact E | reflexivity].
      - eexists. split; [apply assoc_set_eq | reflexivity]. }
    destruct H1 as (entry & E1 & Hentry). rewrite E1.
    split; [apply assoc_set_NoDup; exact Hkeys1 | ].
    intros k. unfold group_of. rewrite with_hash_snoc. simpl.
    destruct (decide (hashCode code = k)) as [Hk | Hk].
    + fold hash in Hk. subst k. rewrite assoc_set_eq. subst entry.
      unfold group_of. destruct (with_hash hashCode hash occs) as [ | [c o'] rest];
        simpl; [reflexivity | ].
      rewrite map_app. reflexivity.
    + fold hash in Hk. rewrite assoc_set_ne by exact Hk.
      rewrite app_nil_r. fold (group_of hashCode k occs). rewrite <- IH.
      unfold table1. destruct (assoc hash (table_of hashCode occs)); [reflexivity | ].
      apply assoc_set_ne. exact Hk.
Qed.

Lemma assoc_NoDup_elem_of {K A : Type} `{EqDecision K} (key : K) (v : A)
  (props : list (K * A)) :
  NoDup (map fst props) -> (key, v) ∈ props -> assoc key props = Some v.
Proof.
  induction props as [ | [k w] rest IH]; simpl; intros Hnd Hin; [inversion Hin | ].
  apply NoDup_cons in Hnd as [Hk Hrest].
  apply elem_of_cons in Hin as [[= -> ->] | Hin].
  - rewrite bool_decide_eq_true_2; reflexivity.
  - case_bool_decide as Hkk.
    + subst k. exfalso. apply Hk. apply list_elem_of_fmap. exists (key, v). auto.
    + apply IH; assumption.
Qed.

(** C6. [findStructuralDuplicates] returns the group of a digest exactly
    when at least two of the functions it met have that digest, each
    occurrence counted, also two of one file; and the group holds the
    original (file, code) of every one of them, in the order they were met. *)
Theorem structural_groups_hold_all_occurrences (files : list string)
  (fileMap : gmap string string) (h : heap) :
  match occurrences parse generate files fileMap h with
  | (h', Ret occs) =>
      exists groups,
        findStructuralDuplicates parse generate hashCode files fileMap h
        = (h', Ret groups) /\
        forall g, g ∈ groups <->
          exists hash, group_of hashCode hash occs = Some g /\
            2 <= length (with_hash hashCode hash occs) /\
            originalFunctions g = map snd (with_hash hashCode hash occs)
  | (h', Throw e) =>
      findStructuralDuplicates parse generate hashCode files fileMap h
      = (h', Throw e)
  | (h', OutOfFuel) => False
  end.
Proof.
  pose proof (structural_table_occurrences files fileMap h) as [Hh Hr].
  pose proof (well_behaved_structural files fileMap h) as [_ Hend].
  unfold findStructuralDuplicates, prog_bind in *.
  destruct (occurrences parse generate files fileMap h) as [h' r1],
    (structural_table parse generate hashCode files fileMap h) as [h2 r2];
    simpl in *. subst h2.
  destruct r1 as [occs | e | ], r2 as [table | e2 | ]; try contradiction;
    [ | subst; reflexivity].
  subst table. exists (structural_groups (table_of hashCode occs)).
  split; [reflexivity | ].
  destruct (table_of_lookup occs) as [Hkeys Hlookup].
  assert (Horig : forall hash g, group_of hashCode hash occs = Some g ->
            originalFunctions g = map snd (with_hash hashCode hash occs)).
  { intros hash g. unfold group_of.
    destruct (with_hash hashCode hash occs) as [ | [c o] rest]; [discriminate | ].
    intros [= <-]. reflexivity. }
  intros g. unfold structural_groups. rewrite list_elem_of_filter, list_elem_of_fmap.
  split.
  - intros (Hlen & [hash g'] & -> & Hin). simpl in *.
    apply assoc_NoDup_elem_of in Hin; [ | exact Hkeys].
    rewrite Hlookup in Hin. exists hash.
    pose proof (Horig _ _ Hin) as Ho. rewrite Ho, length_map in Hlen.
    repeat split; [exact Hin | lia | exact Ho].
  - intros (hash & Hg & Hlen & Ho). split.
    + rewrite Ho, length_map. lia.
    + exists (hash, g). split; [reflexivity | ].
      apply assoc_elem_of. rewrite Hlookup. exact Hg.
Qed.

(** *** Near duplicates *)

Lemma match_key_snoc gi gj sim matches :
  map (match_key (f_file gi) (f_code gi))
    (matches ++
       [{| m_function := f_code gj; m_similarity := sim; m_files := [f_file gj] |}])
  = map (match_key (f_file gi) (f_code gi)) matches ++ [pairKey gi gj].
Proof. rewrite map_app. reflexivity. Qed.

Lemma near_inner_step threshold group i gi results st j :
  group !! i = Some gi ->
  inner_invariant compareTwoStrings threshold group i gi results st ->
  inner_invariant compareTwoStrings threshold group i gi results
    (near_inner compareTwoStrings threshold group i st j) /\
  st.2 ⊆ (near_inner compareTwoStrings threshold group i st j).2 /\
  (forall gj, i <> j -> group !! j = Some gj ->
     Qle_bool threshold (compareTwoStrings (f_code gi) (f_code gj)) = true ->
     pairKey gi gj ∈ (near_inner compareTwoStrings threshold group i st j).2).
Proof.
  intros Hi Hinv. destruct st as [matches seen]. unfold near_inner. rewrite Hi.
  case_bool_decide as Hij;
    [ | split; [exact Hinv | split; [done | intros gj Hne; contradiction]]].
  destruct (group !! j) as [gj | ] eqn:Hj;
    [ | split; [exact Hinv | split; [done | intros; discriminate]]].
  destruct (Qle_bool threshold (compareTwoStrings (f_code gi) (f_code gj))) eqn:Hsim.
  2:{ split; [exact Hinv | split; [done | ]]. intros gj' _ [= <-]. congruence. }
  case_bool_decide as Hseen.
  { split; [exact Hinv | split; [done | ]]. intros gj' _ [= <-] _. exact Hseen. }
  destruct Hinv as (Hnd & Hset & Hall). cbn [fst snd] in Hnd, Hset, Hall, Hseen |- *.
  split; [ | split].
  - split; [ | split]; cbn [fst snd].
    + rewrite match_key_snoc, app_assoc.
      apply NoDup_app. split; [exact Hnd | split; [ | apply NoDup_singleton]].
      intros k Hk [-> | Hin]%elem_of_cons; [ | inversion Hin].
      apply Hseen. apply Hset. exact Hk.
    + intros k. rewrite match_key_snoc, app_assoc.
      rewrite elem_of_union, elem_of_singleton, elem_of_app, list_elem_of_singleton.
      rewrite Hset. apply or_comm.
    + apply Forall_app. split; [exact Hall | ]. constructor; [ | constructor].
      exists j, gj. auto.
  - apply union_subseteq_r.
  - intros gj' _ [= <-] _. apply elem_of_union_l, elem_of_singleton. reflexivity.
Qed.

Lemma near_inner_loop threshold group i gi results js :
  group !! i = Some gi ->
  forall st,
    inner_invariant compareTwoStrings threshold group i gi results st ->
    inner_invariant compareTwoStrings threshold group i gi results
      (fold_left (near_inner compareTwoStrings threshold group i) js st) /\
    st.2 ⊆ (fold_left (near_inner compareTwoStrings threshold group i) js st).2 /\
    (forall j gj, j ∈ js -> i <> j -> group !! j = Some gj ->
       Qle_bool threshold (compareTwoStrings (f_code gi) (f_code gj)) = true ->
       pairKey gi gj ∈
         (fold_left (near_inner compareTwoStrings threshold group i) js st).2).
Proof.
  intros Hi. induction js as [ | j rest IH]; intros st Hinv; simpl.
  - split; [exact Hinv | split; [done | ]]. intros j gj Hin. inversion Hin.
  - destruct (near_inner_step threshold group i gi results st j Hi Hinv)
      as (Hinv1 & Hsub1 & Hcov1).
    destruct (IH _ Hinv1) as (Hinv2 & Hsub2 & Hcov2).
    split; [exact Hinv2 | split; [etrans; eassumption | ]].
    intros j' gj [-> | Hin]%elem_of_cons Hne Hj Hsim.
    + apply Hsub2. eapply Hcov1; eassumption.
    + eapply Hcov2; eassumption.
Qed.

Lemma result_keys_snoc results e :
  result_keys (results ++ [e]) =
  result_keys results ++ map (match_key (r_file e) (r_function e)) (r_matches e).
Proof. unfold result_keys. rewrite flat_map_app. simpl. rewrite app_nil_r. reflexivity. Qed.

Lemma near_outer_step threshold (G : list func -> Prop) group st i gi :
  G group -> group !! i = Some gi ->
  outer_invariant compareTwoStrings threshold G st ->
  outer_invariant compareTwoStrings threshold G (near_outer compareTwoStrings threshold group st i) /\
  st.2 ⊆ (near_outer compareTwoStrings threshold group st i).2 /\
  (forall j gj, i <> j -> group !! j = Some gj ->
     Qle_bool threshold (compareTwoStrings (f_code gi) (f_code gj)) = true ->
     pairKey gi gj ∈ (near_outer compareTwoStrings threshold group st i).2).
Proof.
  intros HG Hi (Hnd & Hset & Hall). destruct st as [results seen]. simpl in *.
  unfold near_outer.
  assert (Hstart : inner_invariant compareTwoStrings threshold group i gi results ([], seen)).
  { split; [ | split]; simpl; rewrite ?app_nil_r; auto. }
  destruct (near_inner_loop threshold group i gi results (seq 0 (length group)) Hi
              _ Hstart) as ((Hnd' & Hset' & Hall') & Hsub & Hcov).
  destruct (fold_left (near_inner compareTwoStrings threshold group i)
              (seq 0 (length group)) ([], seen)) as [matches seen'] eqn:E.
  simpl in *. rewrite Hi.
  assert (Hcov' : forall j gj, i <> j -> group !! j = Some gj ->
            Qle_bool threshold (compareTwoStrings (f_code gi) (f_code gj)) = true ->
            pairKey gi gj ∈ seen').
  { intros j gj Hne Hj Hsim. apply (Hcov j gj); auto.
    apply elem_of_seq. apply lookup_lt_Some in Hj. lia. }
  destruct (0 <? length matches)%nat eqn:Hlen; simpl.
  - split; [ | split; [exact Hsub | exact Hcov']].
    split; [ | split]; simpl.
    + rewrite result_keys_snoc. exact Hnd'.
    + intros k. rewrite result_keys_snoc. apply Hset'.
    + apply Forall_app. split; [exact Hall | ]. constructor; [ | constructor]. simpl.
      eapply Forall_impl; [exact Hall' | ]. simpl.
      intros m (j & gj & Hne & Hj & -> & Hsim).
      exists group, gi, gj. repeat split; auto. exists i, j. auto.
  - apply Nat.ltb_ge in Hlen. destruct matches; [ | simpl in Hlen; lia].
    simpl in *. rewrite app_nil_r in *.
    split; [ | split; [exact Hsub | exact Hcov']].
    split; [exact Hnd' | split; [exact Hset' | exact Hall]].
Qed.

Lemma near_outer_loop threshold (G : list func -> Prop) group indices :
  G group ->
  (forall i, i ∈ indices -> i < length group) ->
  forall st,
    outer_invariant compareTwoStrings threshold G st ->
    outer_invariant compareTwoStrings threshold G
      (fold_left (near_outer compareTwoStrings threshold group) indices st) /\
    st.2 ⊆ (fold_left (near_outer compareTwoStrings threshold group) indices st).2 /\
    (forall i j gi gj, i ∈ indices -> i <> j ->
       group !! i = Some gi -> group !! j = Some gj ->
       Qle_bool threshold (compareTwoStrings (f_code gi) (f_code gj)) = true ->
       pairKey gi gj ∈
         (fold_left (near_outer compareTwoStrings threshold group) indices st).2).
Proof.
  intros HG. induction indices as [ | i rest IH]; intros His st Hinv; simpl.
  - split; [exact Hinv | split; [done | ]]. intros i j gi gj Hin. inversion Hin.
  - assert (Hlt : i < length group) by (apply His; left).
    destruct (lookup_lt_is_Some_2 group i Hlt) as [gi Hi].
    destruct (near_outer_step threshold G group st i gi HG Hi Hinv)
      as (Hinv1 & Hsub1 & Hcov1).
    destruct (IH (fun i' Hi' => His i' (list_elem_of_further _ _ _ Hi')) _ Hinv1)
      as (Hinv2 & Hsub2 & Hcov2).
    split; [exact Hinv2 | split; [etrans; eassumption | ]].
    intros i' j gi' gj [-> | Hin]%elem_of_cons Hne Hi' Hj Hsim.
    + rewrite Hi in Hi'. injection Hi' as <-.
      apply Hsub2. eapply Hcov1; eassumption.
    + eapply Hcov2; eassumption.
Qed.

Lemma near_groups_loop threshold (G : list func -> Prop) groups :
  (forall group, group ∈ groups -> G group) ->
  forall st,
    outer_invariant compareTwoStrings threshold G st ->
    outer_invariant compareTwoStrings threshold G
      (fold_left (near_group compareTwoStrings threshold) groups st) /\
    st.2 ⊆ (fold_left (near_group compareTwoStrings threshold) groups st).2 /\
    (forall group gi gj, group ∈ groups ->
       similar_pair compareTwoStrings threshold group gi gj ->
       pairKey gi gj ∈
         (fold_left (near_group compareTwoStrings threshold) groups st).2).
Proof.
  induction groups as [ | group rest IH]; intros HG st Hinv; simpl.
  - split; [exact Hinv | split; [done | ]]. intros group gi gj Hin. inversion Hin.
  - assert (Hgroup : G group) by (apply HG; left).
    destruct (near_outer_loop threshold G group (seq 0 (length group)) Hgroup
                (fun i Hi => proj2 (proj1 (elem_of_seq _ _ _) Hi)) st Hinv)
      as (Hinv1 & Hsub1 & Hcov1).
    fold (near_group compareTwoStrings threshold st group) in *.
    destruct (IH (fun g Hg => HG g (list_elem_of_further _ _ _ Hg)) _ Hinv1)
      as (Hinv2 & Hsub2 & Hcov2).
    split; [exact Hinv2 | split; [etrans; eassumption | ]].
    intros group' gi gj [-> | Hin]%elem_of_cons Hpair.
    + destruct Hpair as (i & j & Hne & Hi & Hj & Hsim).
      apply Hsub2. apply (Hcov1 i j gi gj); auto.
      apply elem_of_seq. apply lookup_lt_Some in Hi. lia.
    + eapply Hcov2; eassumption.
Qed.

(** The comparison as a whole. *)
Lemma near_compare_spec threshold functions :
  let groups := map snd (groupFunctionsBySize functions) in
  let results := near_compare compareTwoStrings threshold functions in
  NoDup (result_keys results) /\
  Forall
    (fun e => Forall
       (fun m => exists group gi gj, group ∈ groups /\
          similar_pair compareTwoStrings threshold group gi gj /\
          r_function e = f_code gi /\ r_file e = f_file gi /\
          m = match_of compareTwoStrings gi gj)
       (r_matches e))
    results /\
  (forall group gi gj, group ∈ groups ->
     similar_pair compareTwoStrings threshold group gi gj ->
     pairKey gi gj ∈ result_keys results).
Proof.
  intros groups results.
  destruct (near_groups_loop threshold (fun g => g ∈ groups) groups
              (fun g Hg => Hg) ([], ∅)) as ((Hnd & Hset & Hall) & _ & Hcov).
  { split; [constructor | split; [ | constructor]]. intros k. simpl.
    rewrite elem_of_empty, elem_of_nil. reflexivity. }
  split; [exact Hnd | split; [exact Hall | ]].
  intros group gi gj Hg Hpair. apply Hset. eapply Hcov; eassumption.
Qed.

(** A bucket holds the functions of its size, in the order they were
    extracted. *)
Lemma groupFunctionsBySize_lookup functions :
  NoDup (map fst (groupFunctionsBySize functions)) /\
  forall bucket,
    assoc bucket (groupFunctionsBySize functions) =
    match filter (fun f => bucket_of f = bucket) functions with
    | [] => None
    | members => Some members
    end.
Proof.
  induction functions as [ | f functions [IHkeys IH]] using rev_ind.
  - split; [constructor | reflexivity].
  - unfold groupFunctionsBySize. rewrite fold_left_app.
    fold (groupFunctionsBySize functions). cbn [fold_left]. cbv zeta.
    fold (bucket_of f). set (b := bucket_of f).
    set (grouped1 := match assoc b (groupFunctionsBySize functions) with
                     | None => assoc_set b [] (groupFunctionsBySize functions)
                     | Some _ => groupFunctionsBySize functions
                     end).
    assert (Hkeys1 : NoDup (map fst grouped1)).
    { unfold grouped1. destruct (assoc b (groupFunctionsBySize functions));
        [exact IHkeys | apply assoc_set_NoDup; exact IHkeys]. }
    assert (H1 : assoc b grouped1 = Some (filter (fun f => bucket_of f = b) functions)).
    { unfold grouped1. rewrite IH.
      destruct (filter (fun f => bucket_of f = b) functions) eqn:Ef.
      - apply assoc_set_eq.
      - rewrite IH, Ef. reflexivity. }
    rewrite H1. split; [apply assoc_set_NoDup; exact Hkeys1 | ].
    intros bucket. rewrite filter_app.
    destruct (decide (b = bucket)) as [<- | Hne].
    + rewrite assoc_set_eq. rewrite filter_cons_True by reflexivity.
      destruct (filter (fun f => bucket_of f = b) functions); reflexivity.
    + rewrite assoc_set_ne by exact Hne.
      rewrite filter_cons_False by exact Hne. rewrite filter_nil, app_nil_r.
      rewrite <- IH. unfold grouped1.
      destruct (assoc b (groupFunctionsBySize functions)); [reflexivity | ].
      apply assoc_set_ne. exact Hne.
Qed.

Lemma groupFunctionsBySize_groups functions group :
  group ∈ map snd (groupFunctionsBySize functions) ->
  exists bucket, group = filter (fun f => bucket_of f = bucket) functions.
Proof.
  intros ([bucket g] & -> & Hin)%list_elem_of_fmap. simpl.
  destruct (groupFunctionsBySize_lookup functions) as [Hkeys Hlookup].
  apply assoc_NoDup_elem_of in Hin; [ | exact Hkeys].
  rewrite Hlookup in Hin. exists bucket.
  destruct (filter (fun f => bucket_of f = bucket) functions); congruence.
Qed.

(** Two places of a filtered list are two places of the list. *)
Lemma filter_lookup_lt {A : Type} (P : A -> Prop) `{forall x, Decision (P x)}
  (l : list A) :
  forall i j x y, i < j ->
    filter P l !! i = Some x -> filter P l !! j = Some y ->
    exists p q, p < q /\ l !! p = Some x /\ l !! q = Some y.
Proof.
  induction l as [ | a l IH]; intros i j x y Hij Hi Hj; [inversion Hi | ].
  destruct (decide (P a)) as [Ha | Ha].
  - rewrite filter_cons_True in Hi, Hj by exact Ha.
    destruct j as [ | j]; [lia | ]. simpl in Hj.
    destruct i as [ | i]; simpl in Hi.
    + injection Hi as <-.
      apply list_elem_of_lookup_2, list_elem_of_filter in Hj as [_ Hy].
      apply list_elem_of_lookup_1 in Hy as [q Hq].
      exists 0, (S q). split; [lia | split; [reflexivity | exact Hq]].
    + destruct (IH i j x y ltac:(lia) Hi Hj) as (p & q & Hpq & Hp & Hq).
      exists (S p), (S q). split; [lia | split; assumption].
  - rewrite filter_cons_False in Hi, Hj by exact Ha.
    destruct (IH i j x y Hij Hi Hj) as (p & q & Hpq & Hp & Hq).
    exists (S p), (S q). split; [lia | split; assumption].
Qed.

Lemma filter_lookup_ne {A : Type} (P : A -> Prop) `{forall x, Decision (P x)}
  (l : list A) i j x y :
  i <> j -> filter P l !! i = Some x -> filter P l !! j = Some y ->
  exists p q, p <> q /\ l !! p = Some x /\ l !! q = Some y.
Proof.
  intros Hij Hi Hj. destruct (decide (i < j)) as [Hlt | Hge].
  - destruct (filter_lookup_lt P l i j x y Hlt Hi Hj) as (p & q & Hpq & Hp & Hq).
    exists p, q. split; [lia | split; assumption].
  - destruct (filter_lookup_lt P l j i y x ltac:(lia) Hj Hi) as (q & p & Hpq & Hq & Hp).
    exists p, q. split; [lia | split; assumption].
Qed.

(** What [findNearDuplicates] returns is the comparison of the functions it
    extracted. *)
Lemma findNearDuplicates_compare files fileMap threshold h
  (P : list func -> Prop) :
  (forall functions, P functions) ->
  match near_functions parse generate files fileMap h with
  | (h', Ret functions) =>
      findNearDuplicates parse generate compareTwoStrings files fileMap threshold h
      = (h', Ret (near_compare compareTwoStrings threshold functions)) /\
      P functions
  | (h', Throw e) =>
      findNearDuplicates parse generate compareTwoStrings files fileMap threshold h
      = (h', Throw e)
  | (_, OutOfFuel) => False
  end.
Proof.
  intros HP. pose proof (well_behaved_near files fileMap threshold h) as [_ Hend].
  unfold findNearDuplicates, prog_bind in *.
  destruct (near_functions parse generate files fileMap h) as [h' [functions | e | ]];
    simpl in *; [split; [reflexivity | apply HP] | reflexivity | congruence].
Qed.

(** C7 (as amended). In [findNearDuplicates] a match is reported only for
    two functions at different places of one size bucket whose similarity is
    at least the threshold, so a pair below it is never reported; and for
    every such pair, one whose similarity is exactly the threshold too, a
    match with the key of the pair is reported: the pair itself, unless a
    match with the same key was reported before it. *)
Theorem near_matches_reach_threshold (files : list string)
  (fileMap : gmap string string) (threshold : Q) (h : heap) :
  match near_functions parse generate files fileMap h with
  | (h', Ret functions) =>
      findNearDuplicates parse generate compareTwoStrings files fileMap threshold h
      = (h', Ret (near_compare compareTwoStrings threshold functions)) /\
      Forall
        (fun e => Forall
           (fun m =>
              Qle_bool threshold (m_similarity m) = true /\
              exists group gi gj,
                group ∈ map snd (groupFunctionsBySize functions) /\
                similar_pair compareTwoStrings threshold group gi gj /\
                r_function e = f_code gi /\ r_file e = f_file gi /\
                m = match_of compareTwoStrings gi gj)
           (r_matches e))
        (near_compare compareTwoStrings threshold functions) /\
      (forall group gi gj,
         group ∈ map snd (groupFunctionsBySize functions) ->
         similar_pair compareTwoStrings threshold group gi gj ->
         pairKey gi gj ∈
           result_keys (near_compare compareTwoStrings threshold functions))
  | (h', Throw e) =>
      findNearDuplicates parse generate compareTwoStrings files fileMap threshold h
      = (h', Throw e)
  | (_, OutOfFuel) => False
  end.
Proof.
  apply (findNearDuplicates_compare files fileMap threshold h
           (fun functions => _ /\ _)).
  intros functions.
  destruct (near_compare_spec threshold functions) as (_ & Hall & Hcov).
  split; [ | exact Hcov].
  eapply Forall_impl; [exact Hall | ]. simpl. intros e He.
  eapply Forall_impl; [exact He | ]. simpl.
  intros m (group & gi & gj & Hg & Hpair & He1 & He2 & ->).
  split; [ | exists group, gi, gj; auto].
  destruct Hpair as (i & j & _ & _ & _ & Hsim). exact Hsim.
Qed.

(** C8. In [findNearDuplicates] the keys of the reported matches (the two
    files sorted, joined with the function of the entry) are all different
    over the whole run: a key that was reported is never reported again, in
    either direction. *)
Theorem near_keys_reported_once (files : list string)
  (fileMap : gmap string string) (threshold : Q) (h : heap) :
  match near_functions parse generate files fileMap h with
  | (h', Ret functions) =>
      findNearDuplicates parse generate compareTwoStrings files fileMap threshold h
      = (h', Ret (near_compare compareTwoStrings threshold functions)) /\
      NoDup (result_keys (near_compare compareTwoStrings threshold functions))
  | (h', Throw e) =>
      findNearDuplicates parse generate compareTwoStrings files fileMap threshold h
      = (h', Throw e)
  | (_, OutOfFuel) => False
  end.
Proof.
  apply (findNearDuplicates_compare files fileMap threshold h
           (fun functions => NoDup (result_keys _))).
  intros functions. apply near_compare_spec.
Qed.

(** C9. [findNearDuplicates] compares no function with itself: the step for
    [j = i] leaves the matches and the seen keys as they are, whatever the
    similarity of a text with itself, and every reported match pairs the
    function of its entry with a function at another place of the list of
    extracted functions. *)
Theorem near_matches_pair_two_records (files : list string)
  (fileMap : gmap string string) (threshold : Q) (h : heap) :
  (forall group i st, near_inner compareTwoStrings threshold group i st i = st) /\
  match near_functions parse generate files fileMap h with
  | (h', Ret functions) =>
      findNearDuplicates parse generate compareTwoStrings files fileMap threshold h
      = (h', Ret (near_compare compareTwoStrings threshold functions)) /\
      Forall
        (fun e => Forall
           (fun m => exists p q gp gq,
              p <> q /\ functions !! p = Some gp /\ functions !! q = Some gq /\
              r_function e = f_code gp /\ r_file e = f_file gp /\
              m = match_of compareTwoStrings gp gq)
           (r_matches e))
        (near_compare compareTwoStrings threshold functions)
  | (h', Throw e) =>
      findNearDuplicates parse generate compareTwoStrings files fileMap threshold h
      = (h', Throw e)
  | (_, OutOfFuel) => False
  end.
Proof.
  split.
  { intros group i [matches seen]. unfold near_inner.
    rewrite bool_decide_eq_false_2; [reflexivity | intros Hne; apply Hne; reflexivity]. }
  apply (findNearDuplicates_compare files fileMap threshold h
           (fun functions => Forall _ _)).
  intros functions.
  destruct (near_compare_spec threshold functions) as (_ & Hall & _).
  eapply Forall_impl; [exact Hall | ]. simpl. intros e He.
  eapply Forall_impl; [exact He | ]. simpl.
  intros m (group & gi & gj & Hg & (i & j & Hij & Hi & Hj & _) & He1 & He2 & ->).
  apply groupFunctionsBySize_groups in Hg as [bucket ->].
  destruct (filter_lookup_ne _ functions i j gi gj Hij Hi Hj) as (p & q & Hpq & Hp & Hq).
  exists p, q, gi, gj. auto 10.
Qed.

(** X2. Each finder comes to an end on every list of files and every
    parser, renderer, digest and similarity: it returns or it throws, and
    the fuel the walks over the parsed trees are given is never used up. *)
Theorem finders_come_to_an_end (files : list string)
  (fileMap : gmap string string) (threshold : Q) (h : heap) :
  (findExactDuplicates parse generate hashCode files fileMap h).2 <> OutOfFuel /\
  (findNearDuplicates parse generate compareTwoStrings files fileMap threshold h).2
  <> OutOfFuel /\
  (findStructuralDuplicates parse generate hashCode files fileMap h).2
  <> OutOfFuel.
Proof.
  split; [apply well_behaved_exact | split].
  - apply well_behaved_near.
  - apply well_behaved_structural.
Qed.

(** *** Canonicalization *)

(** X3. On a well-formed tree [normalizeAST] returns the text the generator
    gives for the canonical tree: the tree with ["placeholder"] for the name
    of every [Identifier], for the value of every [Literal] and
    [StringLiteral] and for the raw and cooked text of every element of a
    [TemplateLiteral], and everything else as it was (number literals
    too); the empty string when the generator throws. So the result is the
    same for a tree that differs in those names and texts only. *)
Theorem normalizeAST_canonical (rho : string -> string) (t : json) (h h' : heap) :
  well_formed t = true ->
  (normalizeAST generate (alloc t h).2 (alloc t h).1).2
  = Ret (match generate (canon t) with inr code => code | inl _ => "" end) /\
  (normalizeAST generate (alloc (relabel rho t) h').2 (alloc (relabel rho t) h').1).2
  = (normalizeAST generate (alloc t h).2 (alloc t h).1).2.
Proof.
  assert (Hone : forall t h, well_formed t = true ->
            (normalizeAST generate (alloc t h).2 (alloc t h).1).2
            = Ret (match generate (canon t) with inr code => code | inl _ => "" end)).
  { clear. intros t h Hwf. unfold normalizeAST. rewrite stringify_alloc.
    pose proof (alloc_tree_at t (alloc t h).1) as [Ht _].
    destruct (alloc t (alloc t h).1) as [h1 clonedNode]. cbn [fst snd] in Ht.
    destruct (normalize_traverse_canon (S (length h1)) h1 _ _ _ _ Ht Hwf
                ltac:(lia)) as (h2 & -> & Ht2 & Hl2 & _).
    unfold nodeToString, stringify.
    rewrite (proj1 (tree_at_readback h2) _ _ _ _ Ht2);
      [ | lia | intros s Hs; inversion Hs].
    destruct (generate (canon t)); reflexivity. }
  intros Hwf. split; [apply Hone, Hwf | ].
  rewrite !Hone by (try apply well_formed_relabel; exact Hwf).
  rewrite canon_relabel by exact Hwf. reflexivity.
Qed.

End EngineProperties.


Section Pipeline.
#[local] Set Default Proof Using "Type".
Variable parse : string -> exn + json.
Variable generate : json -> exn + string.
Variable hashCode : string -> string.
Variable compareTwoStrings : string -> string -> Q.

(** Parsing a file and extracting its functions: what goes on is what
    [file_texts] says, on a store that has grown. *)
Lemma file_extract_run {B : Type} (fileMap : gmap string string) (file : string)
  (k : list string -> prog B) (h : heap) :
  exists h1,
    preserves h h1 /\
    (run ast := parse_file parse fileMap file in
     run functions := extract generate ast in k functions) h
    = match file_texts parse generate fileMap file with
      | Ret texts => k texts h1
      | Throw e => (h1, Throw e)
      | OutOfFuel => (h1, OutOfFuel)
      end.
Proof.
  unfold file_texts, parse_file. destruct (fileMap !! file) as [text | ].
  - unfold prog_bind, parse_text. destruct (parse text) as [e | t].
    + exists h. split; [apply preserves_refl | reflexivity].
    + destruct (alloc_ordered (length h) t h (le_n _) (ordered_fresh h))
        as (_ & _ & Hp).
      pose proof (extract_traverse_alloc generate t h (alloc t h).1
                    (S (S (length (alloc t h).1))) [] (preserves_refl _)
                    ltac:(lia)) as Hx.
      destruct (alloc t h) as [h1 ast]. cbn [fst snd] in *.
      exists h1. split; [exact Hp | ].
      unfold extract, prog_lift, extractFunctions. rewrite Hx.
      destruct (render_into generate [] (function_nodes t)); reflexivity.
  - exists h. split; [apply preserves_refl | reflexivity].
Qed.

Lemma fold_left_records file texts functions :
  fold_left
    (fun functions func => functions ++ [{| f_code := trim func; f_file := file |}])
    texts functions
  = functions ++ records_of file texts.
Proof.
  revert functions. induction texts as [ | text texts IH]; intros functions; simpl.
  - rewrite app_nil_r. reflexivity.
  - rewrite IH, <- app_assoc. reflexivity.
Qed.

Lemma near_functions_from files fileMap :
  forall functions h,
    (prog_fold (near_file parse generate fileMap) files functions h).2
    = functions_of parse generate fileMap files functions.
Proof.
  induction files as [ | file files IH]; intros functions h; [reflexivity | ].
  cbn [prog_fold functions_of]. unfold prog_bind at 1. unfold near_file.
  destruct (file_extract_run fileMap file
              (fun extracted =>
                 prog_ret
                   (fold_left
                      (fun functions func =>
                         functions ++ [{| f_code := trim func; f_file := file |}])
                      extracted functions)) h) as (h1 & _ & ->).
  destruct (file_texts parse generate fileMap file) as [texts | e | ];
    [ | reflexivity ..].
  cbn [prog_ret outcome_bind]. rewrite fold_left_records. apply IH.
Qed.

Lemma exact_of_snoc functions file texts :
  fold_left (record_exact hashCode file) texts (exact_of hashCode functions)
  = exact_of hashCode (functions ++ records_of file texts).
Proof.
  unfold exact_of, records_of. rewrite fold_left_app.
  generalize (fold_left
                (fun hashes f => record_code hashCode (f_file f) hashes (f_code f))
                functions []).
  induction texts as [ | text texts IH]; intros hashes; [reflexivity | ].
  simpl. apply IH.
Qed.

Lemma exact_table_from files fileMap :
  forall functions h,
    (prog_fold (exact_file parse generate hashCode fileMap) files
       (exact_of hashCode functions) h).2
    = let* functions' := functions_of parse generate fileMap files functions in
      Ret (exact_of hashCode functions').
Proof.
  induction files as [ | file files IH]; intros functions h; [reflexivity | ].
  cbn [prog_fold functions_of]. unfold prog_bind at 1. unfold exact_file.
  destruct (file_extract_run fileMap file
              (fun functions0 =>
                 prog_ret
                   (fold_left (record_exact hashCode file) functions0
                      (exact_of hashCode functions))) h) as (h1 & _ & ->).
  destruct (file_texts parse generate fileMap file) as [texts | e | ];
    [ | reflexivity ..].
  cbn [prog_ret outcome_bind]. rewrite exact_of_snoc. apply IH.
Qed.

(** *** The files of an entry *)

Lemma first_seen_snoc xs x :
  first_seen (xs ++ [x])
  = if bool_decide (x ∈ first_seen xs) then first_seen xs else first_seen xs ++ [x].
Proof. unfold first_seen. rewrite fold_left_app. reflexivity. Qed.

Lemma first_seen_spec xs :
  NoDup (first_seen xs) /\ forall x, x ∈ first_seen xs <-> x ∈ xs.
Proof.
  induction xs as [ | y xs [IHnd IH]] using rev_ind.
  - split; [constructor | reflexivity].
  - rewrite first_seen_snoc. case_bool_decide as Hin.
    + split; [exact IHnd | ]. intros x. rewrite elem_of_app, list_elem_of_singleton, IH.
      split; [auto | ]. intros [Hx | ->]; [exact Hx | apply IH, Hin].
    + split.
      * apply NoDup_app. split; [exact IHnd | split; [ | apply NoDup_singleton]].
        intros x Hx ->%list_elem_of_singleton. contradiction.
      * intros x. rewrite !elem_of_app, IH. reflexivity.
Qed.

(** Two files at least are listed when, and only when, two different files
    were met. *)
Lemma first_seen_two xs :
  2 <= length (first_seen xs) <-> exists x y, x ∈ xs /\ y ∈ xs /\ x <> y.
Proof.
  destruct (first_seen_spec xs) as [Hnd Hin]. split.
  - destruct (first_seen xs) as [ | x [ | y rest]] eqn:E; simpl; try lia.
    intros _. exists x, y. rewrite <- !Hin.
    split; [left | split; [right; left | ]].
    apply NoDup_cons in Hnd as [Hx _]. intros ->. apply Hx. left.
  - intros (x & y & Hx & Hy & Hne). apply Hin in Hx, Hy.
    destruct (first_seen xs) as [ | a [ | b rest]]; simpl; try lia.
    + inversion Hx.
    + apply list_elem_of_singleton in Hx, Hy. congruence.
Qed.

Lemma same_hash_snoc hash functions f :
  same_hash hashCode hash (functions ++ [f])
  = same_hash hashCode hash functions ++
      (if decide (hashCode (f_code f) = hash) then [f] else []).
Proof. unfold same_hash. rewrite filter_app. reflexivity. Qed.

(** The entry of a digest in the table of [findExactDuplicates]: the text of
    the first record that has the digest, and the files of all of them. *)
Lemma exact_of_lookup functions :
  NoDup (map fst (exact_of hashCode functions)) /\
  forall hash,
    assoc hash (exact_of hashCode functions)
    = match same_hash hashCode hash functions with
      | [] => None
      | f :: _ =>
          Some {| e_code := f_code f;
                  e_files :=
                    first_seen (map f_file (same_hash hashCode hash functions)) |}
      end.
Proof.
  induction functions as [ | [code file] functions [IHkeys IH]] using rev_ind.
  - split; [constructor | reflexivity].
  - unfold exact_of. rewrite fold_left_app. fold (exact_of hashCode functions).
    cbn [fold_left f_code f_file]. unfold record_code.
    set (hash := hashCode code).
    set (table1 := match assoc hash (exact_of hashCode functions) with
                    | None => assoc_set hash {| e_code := code; e_files := [] |}
                                (exact_of hashCode functions)
                    | Some _ => exact_of hashCode functions
                    end).
    assert (Hkeys1 : NoDup (map fst table1)).
    { unfold table1. destruct (assoc hash (exact_of hashCode functions));
        [exact IHkeys | apply assoc_set_NoDup; exact IHkeys]. }
    assert (H1 : assoc hash table1
                 = Some match same_hash hashCode hash functions with
                        | [] => {| e_code := code; e_files := [] |}
                        | f :: _ =>
                            {| e_code := f_code f;
                               e_files :=
                                 first_seen
                                   (map f_file (same_hash hashCode hash functions)) |}
                        end).
    { unfold table1. rewrite IH.
      destruct (same_hash hashCode hash functions) as [ | f rest] eqn:E.
      - apply assoc_set_eq.
      - rewrite IH, E. reflexivity. }
    assert (Hother : forall k, k <> hash ->
              assoc k table1 = assoc k (exact_of hashCode functions)).
    { intros k Hk. unfold table1.
      destruct (assoc hash (exact_of hashCode functions)); [reflexivity | ].
      apply assoc_set_ne. congruence. }
    rewrite H1. split.
    + destruct (same_hash hashCode hash functions); cbn [e_files];
        case_bool_decide; first [exact Hkeys1 | apply assoc_set_NoDup, Hkeys1].
    + intros k. rewrite same_hash_snoc. cbn [f_code].
      destruct (decide (hashCode code = k)) as [Hk | Hk].
      * fold hash in Hk. subst k.
        destruct (same_hash hashCode hash functions) as [ | f rest] eqn:E.
        -- cbn [e_files e_code app map f_file]. rewrite bool_decide_eq_false_2
             by (intros Hin; inversion Hin).
           rewrite assoc_set_eq. reflexivity.
        -- cbn [e_files e_code]. rewrite <- app_comm_cons.
           change (f :: rest ++ [{| f_code := code; f_file := file |}])
             with ((f :: rest) ++ [{| f_code := code; f_file := file |}]).
           rewrite map_app.
           change (map f_file [{| f_code := code; f_file := file |}]) with [file].
           rewrite first_seen_snoc.
           case_bool_decide as Hin; [exact H1 | apply assoc_set_eq].
      * fold hash in Hk. rewrite app_nil_r, <- IH, <- Hother by congruence.
        destruct (same_hash hashCode hash functions); cbn [e_files];
          (case_bool_decide; [reflexivity | ]); apply assoc_set_ne; exact Hk.
Qed.

Lemma prog_bind_ret_result {A B : Type} (m : prog A) (g : A -> B) h :
  (prog_bind m (fun a => prog_ret (g a)) h).2 = let* a := (m h).2 in Ret (g a).
Proof. unfold prog_bind. destruct (m h) as [h1 [a | e | ]]; reflexivity. Qed.

Lemma functions_of_throws fileMap before file after e :
  forall functions,
    Forall (fun f => exists texts, file_texts parse generate fileMap f = Ret texts)
      before ->
    file_texts parse generate fileMap file = Throw e ->
    functions_of parse generate fileMap (before ++ file :: after) functions
    = Throw e.
Proof.
  induction before as [ | f before IH]; intros functions Hall Hthrow; simpl.
  - rewrite Hthrow. reflexivity.
  - apply Forall_cons in Hall as [[texts ->] Hall]. simpl. apply IH; assumption.
Qed.

Lemma functions_of_returns fileMap files textss :
  forall functions,
    Forall2 (fun f texts => file_texts parse generate fileMap f = Ret texts)
      files textss ->
    functions_of parse generate fileMap files functions
    = Ret (functions ++ concat (zip_with records_of files textss)).
Proof.
  intros functions Hall. revert functions.
  induction Hall as [ | f texts files textss Hf _ IH]; intros functions; simpl.
  - rewrite app_nil_r. reflexivity.
  - rewrite Hf. simpl. rewrite IH, <- app_assoc. reflexivity.
Qed.


Lemma first_seen_head x xs : head (first_seen (x :: xs)) = Some x.
Proof.
  unfold first_seen. cbn [fold_left]. rewrite bool_decide_eq_false_2
    by (intros Hin; inversion Hin).
  cbn [app].
  assert (Hpre : forall ys seen,
            head (fold_left
                    (fun seen x => if bool_decide (x ∈ seen) then seen else seen ++ [x])
                    ys (x :: seen)) = Some x).
  { induction ys as [ | y ys IH]; intros seen; [reflexivity | ].
    cbn [fold_left]. case_bool_decide; [apply IH | ].
    rewrite <- app_comm_cons. apply IH. }
  apply Hpre.
Qed.

Lemma exact_groups_keys (table : list (string * exact_entry)) :
  NoDup (map fst table) ->
  Forall (fun kv => hashCode (e_code kv.2) = kv.1) table ->
  NoDup (map (fun g => hashCode (g_function g)) (exact_groups table)).
Proof.
  unfold exact_groups. induction table as [ | [k entry] table IH]; simpl;
    intros Hnd Hall; [constructor | ].
  apply NoDup_cons in Hnd as [Hk Hnd]. apply Forall_cons in Hall as [Hhash Hall].
  rewrite filter_cons. destruct (decide (1 < length (e_files entry))).
  - simpl. apply NoDup_cons. split; [ | apply IH; assumption].
    simpl in Hhash. rewrite Hhash. intros Hin. apply Hk.
    apply list_elem_of_fmap in Hin as (g & Hg & Hin).
    apply list_elem_of_fmap in Hin as (entry' & -> & Hin).
    apply list_elem_of_filter in Hin as [_ Hin].
    apply list_elem_of_fmap in Hin as ([k' entry''] & -> & Hin).
    rewrite Forall_forall in Hall. pose proof (Hall _ Hin) as Hk'. simpl in *.
    apply list_elem_of_fmap. exists (k', entry''). split; [simpl; congruence | exact Hin].
  - apply IH; assumption.
Qed.

Lemma exact_reads_records files fileMap h :
  (findExactDuplicates parse generate hashCode files fileMap h).2
  = (let* functions := functions_of parse generate fileMap files [] in
     Ret (exact_groups (exact_of hashCode functions))).
Proof.
  unfold findExactDuplicates. rewrite prog_bind_ret_result.
  unfold exact_table. pose proof (exact_table_from files fileMap [] h) as E.
  change (exact_of hashCode []) with (@nil (string * exact_entry)) in E.
  rewrite E. destruct (functions_of parse generate fileMap files []); reflexivity.
Qed.

Lemma near_reads_records files fileMap threshold h :
  (findNearDuplicates parse generate compareTwoStrings files fileMap threshold h).2
  = (let* functions := functions_of parse generate fileMap files [] in
     Ret (near_compare compareTwoStrings threshold functions)).
Proof.
  unfold findNearDuplicates. rewrite prog_bind_ret_result.
  unfold near_functions. rewrite near_functions_from. reflexivity.
Qed.

Lemma render_into_ends nodes :
  forall functions, render_into generate functions nodes <> OutOfFuel.
Proof.
  induction nodes as [ | t nodes IH]; intros functions; simpl; [discriminate | ].
  destruct (generate t); simpl; [discriminate | apply IH].
Qed.

Lemma functions_of_ends files fileMap :
  forall functions,
    functions_of parse generate fileMap files functions <> OutOfFuel.
Proof.
  induction files as [ | file files IH]; intros functions; simpl; [discriminate | ].
  unfold file_texts. destruct (fileMap !! file) as [text | ]; [ | discriminate].
  destruct (parse text) as [e | t]; [discriminate | ].
  pose proof (render_into_ends (function_nodes t) []) as Hr.
  destruct (render_into generate [] (function_nodes t)); simpl;
    [apply IH | discriminate | contradiction].
Qed.

(** X4. The exact and the near finder work on the same records, and these
    do not depend on the store: for each file, in the order of [files], the
    trimmed text the generator gives for every function node of the tree of
    the file, a node before the nodes below it. The first file that is not
    in [fileMap] or does not parse, or whose functions the generator throws
    on, ends the run with that error: no later file is read and nothing is
    returned. *)
Theorem finders_work_on_the_function_nodes (files : list string)
  (fileMap : gmap string string) (threshold : Q) (h : heap) :
  (findExactDuplicates parse generate hashCode files fileMap h).2
  = (let* functions := functions_of parse generate fileMap files [] in
     Ret (exact_groups (exact_of hashCode functions))) /\
  (findNearDuplicates parse generate compareTwoStrings files fileMap threshold h).2
  = (let* functions := functions_of parse generate fileMap files [] in
     Ret (near_compare compareTwoStrings threshold functions)) /\
  (forall textss,
     Forall2 (fun f texts => file_texts parse generate fileMap f = Ret texts)
       files textss ->
     functions_of parse generate fileMap files []
     = Ret (concat (zip_with records_of files textss))) /\
  (forall before file after e,
     files = before ++ file :: after ->
     Forall (fun f => exists texts, file_texts parse generate fileMap f = Ret texts)
       before ->
     file_texts parse generate fileMap file = Throw e ->
     functions_of parse generate fileMap files [] = Throw e).
Proof.
  split; [apply exact_reads_records | split; [apply near_reads_records | split]].
  - intros textss Hall. apply (functions_of_returns fileMap files textss [] Hall).
  - intros before file after e -> Hall Hthrow.
    apply functions_of_throws; assumption.
Qed.

(** X5. What [findExactDuplicates] returns, from the records it works on:
    one group for every digest that records of two different files have, and
    no other; the function of the group is the text of the first record with
    the digest, and its files are the files of all records with the digest. *)
Theorem exact_groups_hold_all_files (files : list string)
  (fileMap : gmap string string) (h : heap) :
  match functions_of parse generate fileMap files [] with
  | Ret functions =>
      exists groups,
        (findExactDuplicates parse generate hashCode files fileMap h).2
        = Ret groups /\
        NoDup (map (fun g => hashCode (g_function g)) groups) /\
        (forall g, g ∈ groups ->
           head (same_hash hashCode (hashCode (g_function g)) functions)
           = Some {| f_code := g_function g;
                     f_file := default "" (head (g_files g)) |} /\
           forall file, file ∈ g_files g <->
             exists f, f ∈ functions /\ f_file f = file /\
               hashCode (f_code f) = hashCode (g_function g)) /\
        (forall f1 f2, f1 ∈ functions -> f2 ∈ functions ->
           hashCode (f_code f1) = hashCode (f_code f2) ->
           f_file f1 <> f_file f2 ->
           exists g, g ∈ groups /\ hashCode (g_function g) = hashCode (f_code f1))
  | Throw e =>
      (findExactDuplicates parse generate hashCode files fileMap h).2 = Throw e
  | OutOfFuel => False
  end.
Proof.
  rewrite exact_reads_records. pose proof (functions_of_ends files fileMap []) as Hend.
  destruct (functions_of parse generate fileMap files []) as [functions | e | ];
    [ | reflexivity | contradiction].
  exists (exact_groups (exact_of hashCode functions)). split; [reflexivity | ].
  destruct (exact_of_lookup functions) as [Hkeys Hlookup].
  assert (Hentry : forall hash entry, (hash, entry) ∈ exact_of hashCode functions ->
            exists f rest,
              same_hash hashCode hash functions = f :: rest /\
              hashCode (f_code f) = hash /\
              entry = {| e_code := f_code f;
                         e_files :=
                           first_seen (map f_file (same_hash hashCode hash functions)) |}).
  { intros hash entry Hin. apply assoc_NoDup_elem_of in Hin; [ | exact Hkeys].
    rewrite Hlookup in Hin.
    destruct (same_hash hashCode hash functions) as [ | f rest] eqn:Es;
      [discriminate | ].
    injection Hin as <-. exists f, rest. split; [reflexivity | split; [ | reflexivity]].
    assert (Hf : f ∈ same_hash hashCode hash functions) by (rewrite Es; left).
    apply list_elem_of_filter in Hf as [Hf _]. exact Hf. }
  assert (Hgroup : forall g, g ∈ exact_groups (exact_of hashCode functions) <->
            exists hash entry, (hash, entry) ∈ exact_of hashCode functions /\
              2 <= length (e_files entry) /\
              g = {| g_function := e_code entry; g_files := e_files entry |}).
  { intros g. unfold exact_groups. rewrite list_elem_of_fmap. split.
    - intros (entry & -> & Hin). apply list_elem_of_filter in Hin as [Hlen Hin].
      apply list_elem_of_fmap in Hin as ([hash entry'] & -> & Hin).
      exists hash, entry'. split; [exact Hin | split; [simpl in Hlen; lia | reflexivity]].
    - intros (hash & entry & Hin & Hlen & ->). exists entry. split; [reflexivity | ].
      apply list_elem_of_filter. split; [simpl; lia | ].
      apply list_elem_of_fmap. exists (hash, entry). split; [reflexivity | exact Hin]. }
  split; [ | split].
  - apply exact_groups_keys; [exact Hkeys | ].
    rewrite Forall_forall. intros [hash entry] Hin.
    destruct (Hentry _ _ Hin) as (f & rest & _ & Hf & ->). exact Hf.
  - intros g (hash & entry & Hin & Hlen & ->)%Hgroup.
    destruct (Hentry _ _ Hin) as (f & rest & Es & Hf & ->). cbn [g_function g_files e_code e_files].
    rewrite Hf. split.
    + rewrite Es. cbn [map]. rewrite first_seen_head. destruct f; reflexivity.
    + intros file. destruct (first_seen_spec (map f_file (same_hash hashCode hash functions)))
        as [_ Hseen].
      rewrite Hseen, list_elem_of_fmap. split.
      * intros (f0 & -> & Hf0). apply list_elem_of_filter in Hf0 as [Hh Hf0].
        exists f0. auto.
      * intros (f0 & Hf0 & <- & Hh). exists f0. split; [reflexivity | ].
        apply list_elem_of_filter. split; [exact Hh | exact Hf0].
  - intros f1 f2 Hf1 Hf2 Hsame Hfiles.
    set (hash := hashCode (f_code f1)).
    assert (H1 : f1 ∈ same_hash hashCode hash functions)
      by (apply list_elem_of_filter; split; [reflexivity | exact Hf1]).
    assert (H2 : f2 ∈ same_hash hashCode hash functions)
      by (apply list_elem_of_filter; split; [symmetry; exact Hsame | exact Hf2]).
    pose proof (Hlookup hash) as Hl.
    destruct (same_hash hashCode hash functions) as [ | f rest] eqn:Es;
      [inversion H1 | ].
    eexists. split.
    + apply Hgroup. eexists hash, _. split; [apply assoc_elem_of, Hl | ].
      split; [ | reflexivity]. cbn [e_files]. apply first_seen_two.
      exists (f_file f1), (f_file f2).
      split; [ | split; [ | exact Hfiles]]; apply list_elem_of_fmap;
        eexists; split; try reflexivity; assumption.
    + cbn [g_function e_code].
      assert (Hf : f ∈ same_hash hashCode hash functions) by (rewrite Es; left).
      apply list_elem_of_filter in Hf as [Hf _]. exact Hf.
Qed.

End Pipeline.


(** ** More on the near finder *)





Section Near.
#[local] Set Default Proof Using "Type".
Variable parse : string -> exn + json.
Variable generate : json -> exn + string.
Variable compareTwoStrings : string -> string -> Q.







End Near.


(** ** The buckets *)

Lemma concat_assoc_set_new {K A : Type} `{EqDecision K} (key : K) (v : list A)
  (props : list (K * list A)) :
  assoc key props = None ->
  concat (map snd (assoc_set key v props)) = concat (map snd props) ++ v.
Proof.
  induction props as [ | [k w] rest IH]; simpl; intros Hnone.
  - apply app_nil_r.
  - case_bool_decide; [discriminate | ]. simpl. rewrite IH by exact Hnone.
    apply app_assoc.
Qed.

Lemma concat_assoc_set_old {K A : Type} `{EqDecision K} (key : K) (m x : list A)
  (props : list (K * list A)) :
  assoc key props = Some m ->
  concat (map snd (assoc_set key (m ++ x) props)) ≡ₚ concat (map snd props) ++ x.
Proof.
  induction props as [ | [k w] rest IH]; simpl; intros Hsome; [discriminate | ].
  case_bool_decide.
  - injection Hsome as ->. simpl. rewrite <- !app_assoc.
    apply Permutation_app_head, Permutation_app_comm.
  - simpl. rewrite IH by exact Hsome. rewrite app_assoc. reflexivity.
Qed.

Lemma assoc_set_overwrite {K A : Type} `{EqDecision K} (key : K) (v w : A)
  (props : list (K * A)) :
  assoc_set key v (assoc_set key w props) = assoc_set key v props.
Proof.
  induction props as [ | [k u] rest IH]; simpl.
  - rewrite bool_decide_eq_true_2; reflexivity.
  - case_bool_decide as Hk; simpl.
    + rewrite bool_decide_eq_true_2; [reflexivity | exact Hk].
    + rewrite bool_decide_eq_false_2; [ | exact Hk]. f_equal. exact IH.
Qed.

Lemma groupFunctionsBySize_snoc functions f :
  concat (map snd (groupFunctionsBySize (functions ++ [f])))
  ≡ₚ concat (map snd (groupFunctionsBySize functions)) ++ [f].
Proof.
  unfold groupFunctionsBySize. rewrite fold_left_app.
  fold (groupFunctionsBySize functions). cbn [fold_left]. cbv zeta.
  fold (bucket_of f).
  destruct (assoc (bucket_of f) (groupFunctionsBySize functions)) as [m | ] eqn:E.
  - rewrite E. apply concat_assoc_set_old. exact E.
  - rewrite assoc_set_eq, assoc_set_overwrite.
    rewrite concat_assoc_set_new by exact E. reflexivity.
Qed.

(** X8. [groupFunctionsBySize] sorts the records into buckets and loses
    none: a bucket is listed once, with all the records of its size class
    and only them, in the order they came in, and never empty; the groups
    together hold every record as often as the records do. *)
Theorem groupFunctionsBySize_partitions (functions : list func) :
  NoDup (map fst (groupFunctionsBySize functions)) /\
  (forall bucket group,
     (bucket, group) ∈ groupFunctionsBySize functions ->
     group <> [] /\ group = filter (fun f => bucket_of f = bucket) functions) /\
  (forall f, f ∈ functions ->
     exists group,
       (bucket_of f, group) ∈ groupFunctionsBySize functions /\ f ∈ group) /\
  concat (map snd (groupFunctionsBySize functions)) ≡ₚ functions.
Proof.
  destruct (groupFunctionsBySize_lookup functions) as [Hkeys Hlookup].
  split; [exact Hkeys | split; [ | split]].
  - intros bucket group Hin. apply assoc_NoDup_elem_of in Hin; [ | exact Hkeys].
    rewrite Hlookup in Hin.
    destruct (filter (fun f => bucket_of f = bucket) functions); [discriminate | ].
    injection Hin as <-. split; [discriminate | reflexivity].
  - intros f Hf. specialize (Hlookup (bucket_of f)).
    assert (Hin : f ∈ filter (fun f0 => bucket_of f0 = bucket_of f) functions)
      by (apply list_elem_of_filter; split; [reflexivity | exact Hf]).
    destruct (filter (fun f0 => bucket_of f0 = bucket_of f) functions)
      as [ | f0 rest] eqn:E; [inversion Hin | ].
    exists (f0 :: rest). split; [apply assoc_elem_of, Hlookup | exact Hin].
  - clear. induction functions as [ | f functions IH] using rev_ind; [reflexivity | ].
    rewrite groupFunctionsBySize_snoc, IH. reflexivity.
Qed.


(** ** More on [normalizeAST] and the structural finder *)

Section Structural.
#[local] Set Default Proof Using "Type".
Variable parse : string -> exn + json.
Variable generate : json -> exn + string.
Variable hashCode : string -> string.

(** X10. [normalizeAST] returns a string whatever it is given: it never
    throws and always comes to an end, also on a structure that contains
    itself. For what [JSON.stringify]
    cannot write as a tree ([undefined], a structure that contains itself)
    the string is empty and nothing is added to the store. *)
Theorem normalizeAST_always_returns (node : value) (h : heap) :
  exists code h',
    normalizeAST generate node h = (h', Ret code) /\
    ((forall t, stringify h node <> Ret (Some t)) -> h' = h /\ code = "").
Proof.
  pose proof (well_behaved_normalizeAST generate node h) as [_ Hend].
  unfold normalizeAST in *.
  destruct (stringify h node) as [[t | ] | e | ] eqn:Es.
  - destruct (alloc t h) as [h1 clonedNode].
    destruct (normalize_traverse (S (length h1)) h1 clonedNode) as [h2 | ];
      [ | contradiction].
    destruct (nodeToString generate h2 clonedNode) as [code | e | ];
      [ | | contradiction].
    + exists code, h2. split; [reflexivity | ]. intros Hno. destruct (Hno t eq_refl).
    + exists "", h2. split; [reflexivity | ]. intros Hno. destruct (Hno t eq_refl).
  - exists "", h. auto.
  - exists "", h. auto.
  - contradiction.
Qed.

(** [normalizeAST] on a well-formed tree. *)
Lemma normalizeAST_tree t h :
  well_formed t = true ->
  (normalizeAST generate (alloc t h).2 (alloc t h).1).2
  = Ret (match generate (canon t) with inr code => code | inl _ => "" end).
Proof.
  intros Hwf. unfold normalizeAST. rewrite stringify_alloc.
  pose proof (alloc_tree_at t (alloc t h).1) as [Ht _].
  destruct (alloc t (alloc t h).1) as [h1 clonedNode]. cbn [fst snd] in Ht.
  destruct (normalize_traverse_canon (S (length h1)) h1 _ _ _ _ Ht Hwf
              ltac:(lia)) as (h2 & -> & Ht2 & Hl2 & _).
  unfold nodeToString, stringify.
  rewrite (proj1 (tree_at_readback h2) _ _ _ _ Ht2);
    [ | lia | intros s Hs; inversion Hs].
  destruct (generate (canon t)); reflexivity.
Qed.

(** What one function adds to the occurrences: nothing, or itself. *)
Lemma occurrences_function_adds file text occs h :
  exists h' more,
    occurrences_function parse generate file text occs h = (h', Ret (occs ++ more)) /\
    Forall (fun occ => occ.1 <> "" /\
              occ.2 = {| o_file := file; o_function := text |} /\
              exists t, parse text = inr t) more /\
    forall t code,
      parse text = inr t -> well_formed t = true ->
      generate (canon t) = inr code -> code <> "" ->
      more = [(code, {| o_file := file; o_function := text |})].
Proof.
  unfold occurrences_function, prog_bind, parse_text.
  destruct (parse text) as [e | t] eqn:Ep.
  { exists h, []. rewrite app_nil_r. split; [reflexivity | split; [constructor | ]].
    intros t code [=]. }
  pose proof (normalizeAST_tree t h) as Hwf.
  pose proof (well_behaved_normalizeAST generate (alloc t h).2 (alloc t h).1)
    as [_ Hend].
  destruct (alloc t h) as [h1 ast]. cbn [fst snd] in *.
  destruct (normalizeAST generate ast h1) as [h2 [code | e | ]]; cbn [fst snd] in *;
    [ | | contradiction].
  - destruct (String.eqb code "") eqn:Ec.
    + apply String.eqb_eq in Ec. subst code. exists h2, []. rewrite app_nil_r.
      split; [reflexivity | split; [constructor | ]].
      intros t0 code [= <-] Ht Hgen Hne. specialize (Hwf Ht). rewrite Hgen in Hwf.
      injection Hwf as <-. contradiction.
    + apply String.eqb_neq in Ec. exists h2, [(code, {| o_file := file; o_function := text |})].
      split; [reflexivity | split].
      * constructor; [ | constructor]. split; [exact Ec | split; [reflexivity | eauto]].
      * intros t0 code0 [= <-] Ht Hgen Hne. specialize (Hwf Ht). rewrite Hgen in Hwf.
        injection Hwf as ->. reflexivity.
  - exists h2, []. rewrite app_nil_r. split; [reflexivity | split; [constructor | ]].
    intros t0 code [= <-] Ht Hgen Hne. specialize (Hwf Ht). discriminate.
Qed.

(** What the functions of one file add. *)
Lemma occurrences_texts_add file texts :
  forall occs h,
    exists h' more,
      prog_fold (occurrences_function parse generate file) texts occs h
      = (h', Ret (occs ++ more)) /\
      Forall (fun occ => occ.1 <> "" /\ o_file occ.2 = file /\
                o_function occ.2 ∈ texts /\
                exists t, parse (o_function occ.2) = inr t) more /\
      forall text t code,
        text ∈ texts -> parse text = inr t -> well_formed t = true ->
        generate (canon t) = inr code -> code <> "" ->
        (code, {| o_file := file; o_function := text |}) ∈ more.
Proof.
  induction texts as [ | text texts IH]; intros occs h.
  - exists h, []. rewrite app_nil_r. split; [reflexivity | split; [constructor | ]].
    intros text t code Hin. inversion Hin.
  - cbn [prog_fold]. unfold prog_bind at 1.
    destruct (occurrences_function_adds file text occs h)
      as (h1 & more1 & -> & Hsound1 & Hcover1).
    destruct (IH (occs ++ more1) h1) as (h2 & more2 & -> & Hsound2 & Hcover2).
    exists h2, (more1 ++ more2). rewrite app_assoc. split; [reflexivity | split].
    + apply Forall_app. split.
      * apply Forall_impl with (1 := Hsound1).
        intros occ (Hne & -> & t & Ht). cbn [o_file o_function].
        split; [exact Hne | split; [reflexivity | split; [left | eauto]]].
      * apply Forall_impl with (1 := Hsound2).
        intros occ (Hne & Hfile & Hin & Ht).
        split; [exact Hne | split; [exact Hfile | split; [right; exact Hin | exact Ht]]].
    + intros text0 t code [-> | Hin]%elem_of_cons Hp Hwf Hgen Hne; apply elem_of_app.
      * left. rewrite (Hcover1 t code Hp Hwf Hgen Hne). left.
      * right. eapply Hcover2; eassumption.
Qed.

Lemma occurrences_file_run fileMap file occs h :
  exists h1,
    occurrences_file parse generate fileMap file occs h
    = match file_texts parse generate fileMap file with
      | Ret texts =>
          prog_fold (occurrences_function parse generate file) texts occs h1
      | Throw e => (h1, Throw e)
      | OutOfFuel => (h1, OutOfFuel)
      end.
Proof.
  destruct (file_extract_run parse generate fileMap file
              (fun functions =>
                 prog_fold (occurrences_function parse generate file) functions occs)
              h) as (h1 & _ & E).
  exists h1. exact E.
Qed.

(** What the files add to the occurrences: where an occurrence comes from,
    and what must be among them. *)
Lemma occurrences_files_add fileMap files :
  forall occs h,
    match prog_fold (occurrences_file parse generate fileMap) files occs h with
    | (_, Ret occs') =>
        exists more,
          occs' = occs ++ more /\
          Forall (fun occ =>
                    occ.1 <> "" /\ o_file occ.2 ∈ files /\
                    (exists texts,
                       file_texts parse generate fileMap (o_file occ.2) = Ret texts /\
                       o_function occ.2 ∈ texts) /\
                    exists t, parse (o_function occ.2) = inr t) more /\
          forall file texts text t code,
            file ∈ files ->
            file_texts parse generate fileMap file = Ret texts -> text ∈ texts ->
            parse text = inr t -> well_formed t = true ->
            generate (canon t) = inr code -> code <> "" ->
            (code, {| o_file := file; o_function := text |}) ∈ more
    | (_, Throw _) => True
    | (_, OutOfFuel) => False
    end.
Proof.
  induction files as [ | file files IH]; intros occs h.
  - cbn [prog_fold prog_ret]. exists []. rewrite app_nil_r.
    split; [reflexivity | split; [constructor | ]].
    intros file texts text t code Hin. inversion Hin.
  - cbn [prog_fold]. unfold prog_bind at 1.
    destruct (occurrences_file_run fileMap file occs h) as (h1 & ->).
    destruct (file_texts parse generate fileMap file) as [texts | e | ] eqn:Et;
      [ | exact I | ].
    2:{ unfold file_texts in Et. destruct (fileMap !! file); [ | discriminate].
        destruct (parse s); [discriminate | ].
        exact (render_into_ends generate _ _ Et). }
    destruct (occurrences_texts_add file texts occs h1)
      as (h2 & more1 & -> & Hsound1 & Hcover1).
    specialize (IH (occs ++ more1) h2).
    destruct (prog_fold (occurrences_file parse generate fileMap) files
                (occs ++ more1) h2) as [h3 [occs' | e | ]]; [ | exact I | exact IH].
    destruct IH as (more2 & -> & Hsound2 & Hcover2).
    exists (more1 ++ more2). rewrite app_assoc. split; [reflexivity | split].
    + apply Forall_app. split.
      * apply Forall_impl with (1 := Hsound1).
        intros occ (Hne & Hfile & Hin & Ht). rewrite Hfile.
        split; [exact Hne | split; [left | split; [eauto | exact Ht]]].
      * apply Forall_impl with (1 := Hsound2).
        intros occ (Hne & Hfile & Hin & Ht).
        split; [exact Hne | split; [right; exact Hfile | split; assumption]].
    + intros file0 texts0 text t code [-> | Hin]%elem_of_cons Htexts Htext Hp Hwf
        Hgen Hne; apply elem_of_app.
      * left. rewrite Et in Htexts. injection Htexts as <-.
        eapply Hcover1; eassumption.
      * right. eapply Hcover2; eassumption.
Qed.

Lemma structural_from_occurrences files fileMap h groups :
  (findStructuralDuplicates parse generate hashCode files fileMap h).2 = Ret groups ->
  exists occs,
    (occurrences parse generate files fileMap h).2 = Ret occs /\
    groups = structural_groups (table_of hashCode occs).
Proof.
  pose proof (structural_table_occurrences parse generate hashCode files fileMap h)
    as [_ Hr].
  unfold findStructuralDuplicates. rewrite prog_bind_ret_result.
  destruct (occurrences parse generate files fileMap h) as [h1 r1],
    (structural_table parse generate hashCode files fileMap h) as [h2 r2];
    cbn [fst snd] in *.
  destruct r1 as [occs | e | ], r2 as [table | e2 | ]; try contradiction;
    try discriminate.
  cbn [outcome_bind]. intros [= <-]. exists occs. subst table. auto.
Qed.

Lemma structural_groups_spec occs g :
  g ∈ structural_groups (table_of hashCode occs) <->
  exists hash, group_of hashCode hash occs = Some g /\
    2 <= length (with_hash hashCode hash occs).
Proof.
  destruct (table_of_lookup hashCode occs) as [Hkeys Hlookup].
  assert (Horig : forall hash g, group_of hashCode hash occs = Some g ->
            originalFunctions g = map snd (with_hash hashCode hash occs)).
  { intros hash g0. unfold group_of.
    destruct (with_hash hashCode hash occs) as [ | [c o] rest]; [discriminate | ].
    intros [= <-]. reflexivity. }
  unfold structural_groups. rewrite list_elem_of_filter, list_elem_of_fmap. split.
  - intros (Hlen & [hash g'] & -> & Hin). cbn [snd] in *.
    apply assoc_NoDup_elem_of in Hin; [ | exact Hkeys].
    rewrite Hlookup in Hin. exists hash. split; [exact Hin | ].
    rewrite (Horig _ _ Hin), length_map in Hlen. lia.
  - intros (hash & Hg & Hlen). split.
    + rewrite (Horig _ _ Hg), length_map. lia.
    + exists (hash, g). split; [reflexivity | ].
      apply assoc_elem_of. rewrite Hlookup. exact Hg.
Qed.

Lemma two_elements {A : Type} (x y : A) (l : list A) :
  x ∈ l -> y ∈ l -> x <> y -> 2 <= length l.
Proof.
  destruct l as [ | a [ | b l]]; simpl; intros Hx Hy Hne; try lia.
  - inversion Hx.
  - apply list_elem_of_singleton in Hx, Hy. congruence.
Qed.

(** X11. Two functions that are the same, or differ in the names of their
    identifiers and in the texts of their strings and templates only, are
    one structural group. When the run returns, a function of one file and
    a function of another (or another function of the same file) whose
    trees are well formed and are the same tree, or the same but for such
    names and texts ([relabel]), and whose canonical text is not empty, are
    both among the originals of one returned group, the group of the digest
    of that text. *)
Theorem renamed_functions_share_a_group (files : list string)
  (fileMap : gmap string string) (h : heap) (groups : list structural_group)
  (file1 file2 : string) (texts1 texts2 : list string) (text1 text2 : string)
  (t1 t2 : json) (code : string) :
  (findStructuralDuplicates parse generate hashCode files fileMap h).2 = Ret groups ->
  file1 ∈ files -> file_texts parse generate fileMap file1 = Ret texts1 ->
  text1 ∈ texts1 ->
  file2 ∈ files -> file_texts parse generate fileMap file2 = Ret texts2 ->
  text2 ∈ texts2 ->
  (file1, text1) <> (file2, text2) ->
  parse text1 = inr t1 -> parse text2 = inr t2 ->
  well_formed t1 = true ->
  (t2 = t1 \/ exists rho, t2 = relabel rho t1) ->
  generate (canon t1) = inr code -> code <> "" ->
  exists g,
    g ∈ groups /\
    hashCode (normalizedFunction g) = hashCode code /\
    {| o_file := file1; o_function := text1 |} ∈ originalFunctions g /\
    {| o_file := file2; o_function := text2 |} ∈ originalFunctions g.
Proof.
  intros Hrun Hf1 Ht1 Hx1 Hf2 Ht2 Hx2 Hne Hp1 Hp2 Hwf Hsame Hgen Hcode.
  assert (Hwf2 : well_formed t2 = true /\ canon t2 = canon t1).
  { destruct Hsame as [-> | [rho ->]]; [auto | ].
    split; [apply well_formed_relabel, Hwf | apply canon_relabel, Hwf]. }
  destruct Hwf2 as [Hwf2 Hcanon].
  destruct (structural_from_occurrences _ _ _ _ Hrun) as (occs & Hoccs & ->).
  pose proof (occurrences_files_add fileMap files [] h) as Hadd.
  unfold occurrences in Hoccs.
  destruct (prog_fold (occurrences_file parse generate fileMap) files [] h)
    as [h' r]. cbn [snd] in Hoccs. subst r.
  destruct Hadd as (more & -> & _ & Hcover). cbn [app].
  pose proof (Hcover file1 texts1 text1 t1 code Hf1 Ht1 Hx1 Hp1 Hwf Hgen Hcode) as H1.
  assert (Hgen2 : generate (canon t2) = inr code) by (rewrite Hcanon; exact Hgen).
  pose proof (Hcover file2 texts2 text2 t2 code Hf2 Ht2 Hx2 Hp2 Hwf2 Hgen2 Hcode)
    as H2.
  set (o1 := {| o_file := file1; o_function := text1 |}) in *.
  set (o2 := {| o_file := file2; o_function := text2 |}) in *.
  assert (Hw1 : (code, o1) ∈ with_hash hashCode (hashCode code) more)
    by (apply list_elem_of_filter; split; [reflexivity | exact H1]).
  assert (Hw2 : (code, o2) ∈ with_hash hashCode (hashCode code) more)
    by (apply list_elem_of_filter; split; [reflexivity | exact H2]).
  assert (Hlen : 2 <= length (with_hash hashCode (hashCode code) more)).
  { apply (two_elements (code, o1) (code, o2)); [exact Hw1 | exact Hw2 | ].
    intros Heq. apply Hne. unfold o1, o2 in Heq. congruence. }
  destruct (group_of hashCode (hashCode code) more) as [g | ] eqn:Eg.
  2:{ unfold group_of in Eg.
      destruct (with_hash hashCode (hashCode code) more) as [ | [c o] rest];
        [inversion Hw1 | discriminate]. }
  exists g. split; [apply structural_groups_spec; eauto | ].
  unfold group_of in Eg.
  destruct (with_hash hashCode (hashCode code) more) as [ | [c o] rest] eqn:Ew;
    [discriminate | ].
  injection Eg as <-. cbn [normalizedFunction originalFunctions].
  split; [ | split].
  - assert (Hc : (c, o) ∈ with_hash hashCode (hashCode code) more)
      by (rewrite Ew; left).
    apply list_elem_of_filter in Hc as [Hc _]. exact Hc.
  - change (o1 ∈ map snd ((c, o) :: rest)).
    apply list_elem_of_fmap. exists (code, o1). auto.
  - change (o2 ∈ map snd ((c, o) :: rest)).
    apply list_elem_of_fmap. exists (code, o2). auto.
Qed.

(** X12. What a structural group holds: at least two originals; each is a
    function of one of the files, as [extractFunctions] gave it, whose text
    parsed again (a function whose text does not parse is in no group); and
    the normalized function of a group is never the empty string. *)
Theorem structural_groups_hold_functions_of_the_files (files : list string)
  (fileMap : gmap string string) (h : heap) (groups : list structural_group) :
  (findStructuralDuplicates parse generate hashCode files fileMap h).2 = Ret groups ->
  Forall
    (fun g =>
       normalizedFunction g <> "" /\
       2 <= length (originalFunctions g) /\
       Forall
         (fun o =>
            o_file o ∈ files /\
            (exists texts,
               file_texts parse generate fileMap (o_file o) = Ret texts /\
               o_function o ∈ texts) /\
            exists t, parse (o_function o) = inr t)
         (originalFunctions g))
    groups.
Proof.
  intros Hrun.
  destruct (structural_from_occurrences _ _ _ _ Hrun) as (occs & Hoccs & ->).
  pose proof (occurrences_files_add fileMap files [] h) as Hadd.
  unfold occurrences in Hoccs.
  destruct (prog_fold (occurrences_file parse generate fileMap) files [] h)
    as [h' r]. cbn [snd] in Hoccs. subst r.
  destruct Hadd as (more & -> & Hsound & _). cbn [app].
  pose proof (proj1 (Forall_forall _ _) Hsound) as Hs. clear Hsound.
  apply Forall_forall.
  intros g (hash & Hg & Hlen)%structural_groups_spec.
  unfold group_of in Hg.
  destruct (with_hash hashCode hash more) as [ | [c o] rest] eqn:Ew;
    [discriminate | ].
  injection Hg as <-. cbn [normalizedFunction originalFunctions].
  assert (Hsub : forall occ, occ ∈ (c, o) :: rest -> occ ∈ more).
  { intros occ Hin. rewrite <- Ew in Hin.
    apply list_elem_of_filter in Hin as [_ Hin]. exact Hin. }
  split; [ | split].
  - destruct (Hs (c, o) (Hsub _ ltac:(left))) as (Hne & _). exact Hne.
  - cbn [length] in *. rewrite length_map. exact Hlen.
  - change (o :: map snd rest) with (map snd ((c, o) :: rest)).
    apply Forall_forall. intros o' (occ & -> & Hin)%list_elem_of_fmap.
    destruct (Hs occ (Hsub _ Hin)) as (_ & Hfile & Htexts & Hparse).
    auto.
Qed.




End Structural.


(** ** The command of the extension *)

Lemma item_nested_ind (P : item -> Prop) :
  (forall name content, P (File name content)) ->
  (forall name e, P (Directory name (inl e))) ->
  (forall name items, Forall P items -> P (Directory name (inr items))) ->
  forall it, P it.
Proof.
  intros Hfile Hfail Hdir. fix IH 1. intros [name content | name [e | items]].
  - apply Hfile.
  - apply Hfail.
  - apply Hdir. induction items as [ | it rest IHrest]; constructor.
    + apply IH.
    + exact IHrest.
Qed.

Section Walking.
#[local] Set Default Proof Using "Type".
Variable path_join : string -> string -> string.

Lemma read_item_directory dir name items st :
  read_item path_join dir (Directory name (inr items)) st
  = read_items path_join (path_join dir name) items st.
Proof.
  cbn [read_item]. revert st. induction items as [ | it rest IH]; intros st;
    [reflexivity | ].
  cbn [read_items]. destruct (read_item path_join (path_join dir name) it st);
    [reflexivity | apply IH].
Qed.

Lemma walked_ext (L L' : string -> string -> Prop) (U U' : exn -> Prop) st r :
  (forall path text, L path text <-> L' path text) ->
  (forall e, U e <-> U' e) ->
  walked L U st r -> walked L' U' st r.
Proof.
  intros HL HU. destruct r as [e | [files fileMap]]; simpl; [apply HU | ].
  intros (paths & Hfiles & Hin & Hmap & Hout & Hno).
  exists paths. split; [exact Hfiles | split; [ | split; [ | split]]].
  - intros path. rewrite Hin. split; intros [text Ht]; exists text; apply HL, Ht.
  - intros path Hp. destruct (Hmap path Hp) as (text & Hl & Ht).
    exists text. split; [exact Hl | apply HL, Ht].
  - exact Hout.
  - intros e He. apply (Hno e), HU, He.
Qed.

Lemma listed_cons dir it rest path text :
  listed path_join dir (it :: rest) path text <->
  listed path_join dir [it] path text \/ listed path_join dir rest path text.
Proof.
  split.
  - intros Hl. inversion Hl as [? ? name ? Hin Hw | ? ? name items' ? ? Hin Hbelow];
      subst; apply elem_of_cons in Hin as [<- | Hin].
    + left. apply listed_here; [left | exact Hw].
    + right. apply listed_here; assumption.
    + left. eapply listed_below; [left | exact Hbelow].
    + right. eapply listed_below; eassumption.
  - intros [Hl | Hl];
      inversion Hl as [? ? name ? Hin Hw | ? ? name items' ? ? Hin Hbelow]; subst.
    + apply list_elem_of_singleton in Hin as <-. apply listed_here; [left | exact Hw].
    + apply list_elem_of_singleton in Hin as <-.
      eapply listed_below; [left | exact Hbelow].
    + apply listed_here; [right; exact Hin | exact Hw].
    + eapply listed_below; [right; exact Hin | exact Hbelow].
Qed.

Lemma unreadable_cons it rest e :
  unreadable (it :: rest) e <-> unreadable [it] e \/ unreadable rest e.
Proof.
  split.
  - intros Hu. inversion Hu as [? name ? Hin Hw | ? name ? Hin
                                | ? name items' ? Hin Hbelow];
      subst; apply elem_of_cons in Hin as [<- | Hin].
    + left. eapply unreadable_file; [left | exact Hw].
    + right. eapply unreadable_file; eassumption.
    + left. eapply unreadable_directory. left.
    + right. eapply unreadable_directory. eassumption.
    + left. eapply unreadable_below; [left | exact Hbelow].
    + right. eapply unreadable_below; eassumption.
  - intros [Hu | Hu];
      inversion Hu as [? name ? Hin Hw | ? name ? Hin
                       | ? name items' ? Hin Hbelow]; subst.
    + apply list_elem_of_singleton in Hin as <-.
      eapply unreadable_file; [left | exact Hw].
    + apply list_elem_of_singleton in Hin as <-. eapply unreadable_directory. left.
    + apply list_elem_of_singleton in Hin as <-.
      eapply unreadable_below; [left | exact Hbelow].
    + eapply unreadable_file; [right; exact Hin | exact Hw].
    + eapply unreadable_directory. right. exact Hin.
    + eapply unreadable_below; [right; exact Hin | exact Hbelow].
Qed.

Lemma read_items_walked dir items :
  Forall (fun it => forall dir st,
            walked (listed path_join dir [it]) (unreadable [it]) st
              (read_item path_join dir it st)) items ->
  forall st,
    walked (listed path_join dir items) (unreadable items) st
      (read_items path_join dir items st).
Proof.
  induction 1 as [ | it rest Hit _ IH]; intros [files0 fileMap0].
  - unfold walked. cbn [read_items fst snd]. exists []. rewrite app_nil_r. split; [reflexivity | split; [ | split; [ | split]]].
    + intros path. split; [intros Hin; inversion Hin | ].
      intros [text Hl]. inversion Hl as [? ? ? ? Hin | ? ? ? ? ? ? Hin]; inversion Hin.
    + intros path Hin. inversion Hin.
    + reflexivity.
    + intros e Hu. inversion Hu as [? ? ? Hin | ? ? ? Hin | ? ? ? ? Hin]; inversion Hin.
  - cbn [read_items]. specialize (Hit dir (files0, fileMap0)).
    destruct (read_item path_join dir it (files0, fileMap0))
      as [e | [files1 fileMap1]].
    + simpl in *. apply unreadable_cons. left. exact Hit.
    + specialize (IH (files1, fileMap1)).
      destruct (read_items path_join dir rest (files1, fileMap1))
        as [e | [files2 fileMap2]]; simpl in *.
      * apply unreadable_cons. right. exact IH.
      * destruct Hit as (paths1 & -> & Hin1 & Hmap1 & Hout1 & Hno1).
        destruct IH as (paths2 & -> & Hin2 & Hmap2 & Hout2 & Hno2).
        exists (paths1 ++ paths2). rewrite app_assoc.
        split; [reflexivity | split; [ | split; [ | split]]].
        -- intros path. rewrite elem_of_app, Hin1, Hin2. split.
           ++ intros [[text Hl] | [text Hl]]; exists text; apply listed_cons; auto.
           ++ intros [text [Hl | Hl]%listed_cons]; eauto.
        -- intros path Hin. destruct (decide (path ∈ paths2)) as [Hp2 | Hp2].
           ++ destruct (Hmap2 path Hp2) as (text & Hl & Ht).
              exists text. split; [exact Hl | apply listed_cons; auto].
           ++ apply elem_of_app in Hin as [Hp1 | Hp2']; [ | contradiction].
              destruct (Hmap1 path Hp1) as (text & Hl & Ht).
              exists text. rewrite Hout2 by exact Hp2.
              split; [exact Hl | apply listed_cons; auto].
        -- intros path Hout. apply not_elem_of_app in Hout as [Ho1 Ho2].
           rewrite Hout2 by exact Ho2. apply Hout1, Ho1.
        -- intros e [Hu | Hu]%unreadable_cons; [apply (Hno1 e Hu) | apply (Hno2 e Hu)].
Qed.

Lemma read_item_walked it :
  forall dir st,
    walked (listed path_join dir [it]) (unreadable [it]) st
      (read_item path_join dir it st).
Proof.
  induction it as [name content | name e | name items IH] using item_nested_ind;
    intros dir [files0 fileMap0].
  - cbn [read_item]. destruct (wanted name) eqn:Hw.
    + destruct content as [e | text]; simpl.
      * eapply unreadable_file; [left | exact Hw].
      * exists [path_join dir name].
        split; [reflexivity | split; [ | split; [ | split]]].
        -- intros path. rewrite list_elem_of_singleton. split.
           ++ intros ->. exists text. apply listed_here; [left | exact Hw].
           ++ intros [text' Hl].
              inversion Hl as [? ? ? ? Hin | ? ? ? ? ? ? Hin]; subst;
                apply list_elem_of_singleton in Hin; [ | discriminate].
              injection Hin as -> _. reflexivity.
        -- intros path ->%list_elem_of_singleton. exists text.
           split; [apply lookup_insert_eq | apply listed_here; [left | exact Hw]].
        -- intros path Hout. apply lookup_insert_ne. intros <-. apply Hout. left.
        -- intros e Hu.
           inversion Hu as [? ? ? Hin | ? ? ? Hin | ? ? ? ? Hin]; subst;
             apply list_elem_of_singleton in Hin; discriminate.
    + simpl. exists []. rewrite app_nil_r.
      split; [reflexivity | split; [ | split; [ | split]]].
      * intros path. split; [intros Hin; inversion Hin | ].
        intros [text Hl].
        inversion Hl as [? ? ? ? Hin Hw' | ? ? ? ? ? ? Hin]; subst;
          apply list_elem_of_singleton in Hin; [ | discriminate].
        injection Hin as -> _. congruence.
      * intros path Hin. inversion Hin.
      * reflexivity.
      * intros e Hu.
        inversion Hu as [? ? ? Hin Hw' | ? ? ? Hin | ? ? ? ? Hin]; subst;
          apply list_elem_of_singleton in Hin; try discriminate.
        injection Hin as -> _. congruence.
  - simpl. eapply unreadable_directory. left.
  - rewrite read_item_directory.
    eapply walked_ext; [ | | apply (read_items_walked (path_join dir name) items IH (files0, fileMap0))].
    + intros path text. split.
      * intros Hl. eapply listed_below; [left | exact Hl].
      * intros Hl.
        inversion Hl as [? ? ? ? Hin | ? ? ? ? ? ? Hin Hbelow]; subst;
          apply list_elem_of_singleton in Hin; [discriminate | ].
        injection Hin as -> ->. exact Hbelow.
    + intros e. split.
      * intros Hu. eapply unreadable_below; [left | exact Hu].
      * intros Hu.
        inversion Hu as [? ? ? Hin | ? ? ? Hin | ? ? ? ? Hin Hbelow]; subst;
          apply list_elem_of_singleton in Hin; try discriminate.
        injection Hin as -> ->. exact Hbelow.
Qed.

End Walking.


(** *** The names the walk wants *)

Lemma append_cons c s1 s2 : String c s1 +:+ s2 = String c (s1 +:+ s2).
Proof. reflexivity. Qed.

Lemma length_append_sum s1 s2 :
  String.length (s1 +:+ s2) = String.length s1 + String.length s2.
Proof.
  induction s1 as [ | c s1 IH]; [reflexivity | ].
  rewrite append_cons. simpl. rewrite IH. reflexivity.
Qed.

Lemma substring_whole s : substring 0 (String.length s) s = s.
Proof. induction s as [ | c s IH]; simpl; [reflexivity | rewrite IH; reflexivity]. Qed.

Lemma substring_after pre ext :
  substring (String.length pre) (String.length ext) (pre +:+ ext) = ext.
Proof.
  induction pre as [ | c pre IH]; [apply substring_whole | ].
  rewrite append_cons. simpl. exact IH.
Qed.

Lemma substring_split s :
  forall k, k <= String.length s ->
    s = substring 0 k s +:+ substring k (String.length s - k) s.
Proof.
  induction s as [ | c s IH]; intros k Hk.
  - destruct k; reflexivity.
  - destruct k as [ | k].
    + simpl. rewrite substring_whole. reflexivity.
    + simpl in Hk. simpl. rewrite append_cons. f_equal. apply IH. lia.
Qed.

(** [endsWith] is what its name says. *)
Lemma endsWith_spec s ext :
  endsWith s ext = true <-> exists stem, s = stem +:+ ext.
Proof.
  unfold endsWith. rewrite andb_true_iff, Nat.leb_le, String.eqb_eq. split.
  - intros [Hle Hsub]. exists (substring 0 (String.length s - String.length ext) s).
    pose proof (substring_split s (String.length s - String.length ext)
                  ltac:(lia)) as Hs.
    replace (String.length s - (String.length s - String.length ext))
      with (String.length ext) in Hs by lia.
    rewrite Hsub in Hs. exact Hs.
  - intros [stem ->]. rewrite length_append_sum. split; [lia | ].
    replace (String.length stem + String.length ext - String.length ext)
      with (String.length stem) by lia.
    apply substring_after.
Qed.

Lemma wanted_spec name :
  wanted name = true <->
  exists stem ext, ext ∈ extensions /\ name = stem +:+ ext.
Proof.
  unfold wanted. rewrite existsb_exists. split.
  - intros (ext & Hin & [stem ->]%endsWith_spec). exists stem, ext.
    split; [apply list_elem_of_In, Hin | reflexivity].
  - intros (stem & ext & Hin & ->). exists ext.
    split; [apply list_elem_of_In, Hin | apply endsWith_spec; eauto].
Qed.


Section Commanding.
#[local] Set Default Proof Using "Type".
Variable parse : string -> exn + json.
Variable generate : json -> exn + string.
Variable hashCode : string -> string.
Variable compareTwoStrings : string -> string -> Q.
Variable path_join : string -> string -> string.
Variable error_text : exn -> string.
Variable formatted : report -> string.

(** X13. What [readFilesRecursively] collects. It returns when, and only
    when, it can read every directory below the folder and every file it
    wants; [files] are then the paths of all the items, at any depth, that
    are no directory and whose name ends with [.js], [.ts], [.tsx] or
    [.jsx], and [fileMap] has a text for exactly these paths, the text of
    such an item: no file of [files] is missing from [fileMap]. Otherwise it
    throws what [fs] threw. *)
Theorem readFilesRecursively_collects (dir : string) (listing : exn + list item) :
  (forall name,
     wanted name = true <->
     exists stem ext,
       ext ∈ [".js"; ".ts"; ".tsx"; ".jsx"] /\ name = stem +:+ ext) /\
  match readFilesRecursively path_join dir listing ([], ∅) with
  | inr (files, fileMap) =>
      exists items,
        listing = inr items /\
        (forall e, ~ unreadable items e) /\
        (forall path,
           path ∈ files <-> exists text, listed path_join dir items path text) /\
        (forall path, path ∈ files <-> is_Some (fileMap !! path)) /\
        (forall path text,
           fileMap !! path = Some text -> listed path_join dir items path text)
  | inl e =>
      listing = inl e \/
      exists items, listing = inr items /\ unreadable items e
  end.
Proof.
  split; [apply wanted_spec | ].
  destruct listing as [e | items]; [left; reflexivity | ].
  cbn [readFilesRecursively].
  assert (Hall : Forall (fun it => forall dir st,
                           walked (listed path_join dir [it]) (unreadable [it]) st
                             (read_item path_join dir it st)) items).
  { apply Forall_forall. intros it _. apply read_item_walked. }
  pose proof (read_items_walked path_join dir items Hall ([], ∅)) as Hw.
  destruct (read_items path_join dir items ([], ∅)) as [e | [files fileMap]];
    simpl in Hw.
  - right. exists items. auto.
  - destruct Hw as (paths & -> & Hin & Hmap & Hout & Hno). cbn [app].
    exists items. split; [reflexivity | split; [exact Hno | split; [exact Hin | ]]].
    assert (Hsome : forall path text, fileMap !! path = Some text -> path ∈ paths).
    { intros path text Hl. destruct (decide (path ∈ paths)) as [Hp | Hp];
        [exact Hp | ]. rewrite (Hout path Hp), lookup_empty in Hl. discriminate. }
    split.
    + intros path. split.
      * intros Hp. destruct (Hmap path Hp) as (text & Hl & _). eauto.
      * intros [text Hl]. eapply Hsome, Hl.
    + intros path text Hl. destruct (Hmap path (Hsome _ _ Hl)) as (text' & Hl' & Ht).
      congruence.
Qed.

Lemma analyze_throws choice files fileMap file text e h :
  file ∈ files -> fileMap !! file = Some text -> parse text = inl e ->
  choice ∈ ["Exact"; "Near"; "Structural"] ->
  exists e',
    (analyze parse generate hashCode compareTwoStrings choice files fileMap h).2
    = Throw e'.
Proof.
  intros Hin Hfile Hparse Hchoice. unfold analyze.
  assert (Hthrow : forall {A B : Type} (m : prog A) (g : A -> B),
            (exists e', (m h).2 = Throw e') ->
            exists e', (prog_bind m (fun a => prog_ret (g a)) h).2 = Throw e').
  { intros A B m g [e' He]. exists e'. rewrite prog_bind_ret_result, He. reflexivity. }
  repeat (apply elem_of_cons in Hchoice as [-> | Hchoice]);
    [ | | | inversion Hchoice];
    cbn [String.eqb Ascii.eqb Bool.eqb andb]; apply Hthrow;
    apply prog_bind_throws; apply (prog_fold_throws _ _ file Hin).
  - intros acc h0. exists e. unfold exact_file.
    rewrite (parse_file_throws parse fileMap file text e); auto.
  - intros y acc. apply well_behaved_file_extract. intros; apply well_behaved_ret.
  - intros acc h0. exists e. unfold near_file.
    rewrite (parse_file_throws parse fileMap file text e); auto.
  - intros y acc. apply well_behaved_file_extract. intros; apply well_behaved_ret.
  - intros acc h0. exists e. unfold structural_file.
    rewrite (parse_file_throws parse fileMap file text e); auto.
  - intros y acc. apply well_behaved_file_extract. intros functions.
    apply well_behaved_fold. intros; apply well_behaved_structural_function.
Qed.

(** X14. One file that does not parse, and the user gets no results: when
    one of the files the command collected has a text the parser throws on,
    then for each of the three kinds of analysis the command shows the
    message that it analyzes, then one error message with what was thrown,
    and writes nothing to the output channel; the command itself does not
    throw. *)
Theorem analyzeCommand_shows_the_error (folderPath : string)
  (others : list string) (listing : exn + list item) (choice : string)
  (h : heap) (files : list string) (fileMap : gmap string string)
  (file text : string) (e : exn) :
  readFilesRecursively path_join folderPath listing ([], ∅) = inr (files, fileMap) ->
  file ∈ files -> fileMap !! file = Some text -> parse text = inl e ->
  choice ∈ ["Exact"; "Near"; "Structural"] ->
  exists e',
    analyzeCommand parse generate hashCode compareTwoStrings path_join error_text
      formatted (Some (folderPath :: others)) listing (Some choice) h
    = ([showInformationMessage
          ("Analyzing " +:+ pretty (length files) +:+ " files for " +:+ choice
             +:+ " duplicates...");
        showErrorMessage ("Error analyzing duplicates: " +:+ error_text e');
        consoleError "Error analyzing duplicates:" e'],
       None).
Proof.
  intros Hwalk Hin Hfile Hparse Hchoice.
  destruct (analyze_throws choice files fileMap file text e h Hin Hfile Hparse
              Hchoice) as [e' He].
  exists e'. unfold analyzeCommand. rewrite Hwalk.
  destruct files as [ | f files]; [inversion Hin | ].
  cbn [length Nat.eqb]. unfold on_choice. rewrite He.
  replace (String.eqb choice "") with false; [reflexivity | ].
  repeat (apply elem_of_cons in Hchoice as [-> | Hchoice]);
    [reflexivity .. | inversion Hchoice].
Qed.

(** X15. What [fs] throws ends the command without a word: when a
    directory below the folder cannot be read, or a file the walk wants
    cannot, the command throws what one of them threw and shows nothing,
    whatever else the folder holds and whatever the user would pick. *)
Theorem analyzeCommand_throws_what_fs_throws (folderPath : string)
  (others : list string) (items : list item) (choice : option string)
  (h : heap) (e : exn) :
  unreadable items e ->
  exists e',
    unreadable items e' /\
    analyzeCommand parse generate hashCode compareTwoStrings path_join error_text
      formatted (Some (folderPath :: others)) (inr items) choice h
    = ([], Some e').
Proof.
  intros Hu. unfold analyzeCommand. cbn [readFilesRecursively].
  assert (Hall : Forall (fun it => forall dir st,
                           walked (listed path_join dir [it]) (unreadable [it]) st
                             (read_item path_join dir it st)) items).
  { apply Forall_forall. intros it _. apply read_item_walked. }
  pose proof (read_items_walked path_join folderPath items Hall ([], ∅)) as Hw.
  destruct (read_items path_join folderPath items ([], ∅)) as [e' | [files fileMap]];
    simpl in Hw.
  - exists e'. auto.
  - destruct Hw as (paths & _ & _ & _ & _ & Hno). destruct (Hno e Hu).
Qed.

End Commanding.

(** ** The engine on the examples *)

(** C1, the claim refuted: with one file that does not parse ([bad.js])
    between two files that hold the same function, each finder throws the
    parse error instead of returning the group of the two other files, which
    [findExactDuplicates] returns when [bad.js] is not in the list. *)
Lemma one_bad_file_aborts_the_run :
  (findExactDuplicates Demo.parse Demo.generate Demo.hashCode
     ["a.js"; "bad.js"; "e.js"] Demo.fileMap []).2
  = Throw (ParseError "Unexpected token") /\
  (findNearDuplicates Demo.parse Demo.generate Demo.compareTwoStrings
     ["a.js"; "bad.js"; "e.js"] Demo.fileMap default_threshold []).2
  = Throw (ParseError "Unexpected token") /\
  (findStructuralDuplicates Demo.parse Demo.generate Demo.hashCode
     ["a.js"; "bad.js"; "e.js"] Demo.fileMap []).2
  = Throw (ParseError "Unexpected token") /\
  (findExactDuplicates Demo.parse Demo.generate Demo.hashCode
     ["a.js"; "e.js"] Demo.fileMap []).2
  = Ret [{| g_function := Demo.show Demo.return_1; g_files := ["a.js"; "e.js"] |}].
Proof. repeat split; vm_compute; reflexivity. Qed.

Lemma parse_error_escapes_witness :
  ("bad.js" ∈ ["a.js"; "bad.js"; "e.js"] /\
   Demo.fileMap !! "bad.js" = Some "function (" /\
   Demo.parse "function (" = inl (ParseError "Unexpected token")) /\
  (forall h, exists e1,
     (findExactDuplicates Demo.parse Demo.generate Demo.hashCode
        ["a.js"; "bad.js"; "e.js"] Demo.fileMap h).2 = Throw e1) /\
  (forall h, exists e2,
     (findNearDuplicates Demo.parse Demo.generate Demo.compareTwoStrings
        ["a.js"; "bad.js"; "e.js"] Demo.fileMap default_threshold h).2
     = Throw e2) /\
  (forall h, exists e3,
     (findStructuralDuplicates Demo.parse Demo.generate Demo.hashCode
        ["a.js"; "bad.js"; "e.js"] Demo.fileMap h).2 = Throw e3) /\
  (forall f table h,
     structural_function Demo.parse Demo.generate Demo.hashCode f "function ("
       table h = (h, Ret table)).
Proof.
  assert (Hin : "bad.js" ∈ ["a.js"; "bad.js"; "e.js"]) by (right; left).
  assert (Hmap : Demo.fileMap !! "bad.js" = Some "function (")
    by (vm_compute; reflexivity).
  assert (Hparse : Demo.parse "function (" = inl (ParseError "Unexpected token"))
    by reflexivity.
  split; [auto | ].
  exact (parse_error_escapes Demo.parse Demo.generate Demo.hashCode
           Demo.compareTwoStrings ["a.js"; "bad.js"; "e.js"] Demo.fileMap
           default_threshold "bad.js" "function (" _ Hin Hmap Hparse).
Defined.

(** C2, the claim refuted: on an object that is its own [body] the walker
    of [extractFunctions] has no end, whatever the fuel. *)
Lemma extractFunctions_cyclic :
  never_ends
    (fun fuel => extractFunctions Demo.generate fuel Demo.cyclic_store (VRef 0)).
Proof.
  unfold never_ends, extractFunctions. generalize (@nil string).
  intros functions fuel. revert functions.
  induction fuel as [ | fuel IH]; intros functions; [reflexivity | ].
  simpl. rewrite IH. reflexivity.
Qed.

(** C3, at the failing input: two functions of the same shape that differ in
    a name and in a number are in no group, as the number is not rewritten;
    with a string in the place of the number they are in one group. *)
Lemma numbers_are_not_rewritten :
  (findStructuralDuplicates Demo.parse Demo.generate Demo.hashCode
     ["a.js"; "b.js"] Demo.fileMap []).2 = Ret [] /\
  map (fun g => map o_file (originalFunctions g))
    match (findStructuralDuplicates Demo.parse Demo.generate Demo.hashCode
             ["c.js"; "d.js"] Demo.fileMap []).2 with
    | Ret groups => groups
    | _ => []
    end = [["c.js"; "d.js"]].
Proof. split; vm_compute; reflexivity. Qed.


(** C6 on an example: two occurrences in one file make a group. *)
Example repeats_in_one_file_count :
  map (fun g => map o_file (originalFunctions g))
    match (findStructuralDuplicates Demo.parse Demo.generate Demo.hashCode
             ["twice.js"] Demo.fileMap []).2 with
    | Ret groups => groups
    | _ => []
    end = [["twice.js"; "twice.js"]].
Proof. vm_compute. reflexivity. Qed.

(** C7, the claim refuted: [fA] and [fC] are in one bucket and their
    similarity is [1], yet no entry pairs them, in either direction: under
    [fA] the key of the pair was reported for [fB], and under [fC] it was
    reported for [fD] and [fB]. *)
Lemma similar_pair_not_reported :
  similar_pair Demo.compareTwoStrings default_threshold
    [Demo.fA; Demo.fB; Demo.fD; Demo.fC] Demo.fA Demo.fC /\
  map snd (groupFunctionsBySize [Demo.fA; Demo.fB; Demo.fD; Demo.fC])
  = [[Demo.fA; Demo.fB; Demo.fD; Demo.fC]] /\
  near_compare Demo.compareTwoStrings default_threshold
    [Demo.fA; Demo.fB; Demo.fD; Demo.fC]
  = [{| r_function := "x y"; r_file := "f1";
        r_matches :=
          [{| m_function := "xy"; m_similarity := 1; m_files := ["f2"] |};
           {| m_function := "x  y"; m_similarity := 1; m_files := ["f1"] |}] |};
     {| r_function := "xy"; r_file := "f2";
        r_matches :=
          [{| m_function := "x y"; m_similarity := 1; m_files := ["f1"] |};
           {| m_function := "x  y"; m_similarity := 1; m_files := ["f2"] |}] |};
     {| r_function := "x  y"; r_file := "f1";
        r_matches :=
          [{| m_function := "x y"; m_similarity := 1; m_files := ["f1"] |};
           {| m_function := "xy"; m_similarity := 1; m_files := ["f2"] |}] |};
     {| r_function := "x  y"; r_file := "f2";
        r_matches :=
          [{| m_function := "xy"; m_similarity := 1; m_files := ["f2"] |}] |}].
Proof.
  split; [ | split; vm_compute; reflexivity].
  exists 0, 3. split; [lia | ]. repeat split; vm_compute; reflexivity.
Qed.

(** C7 on an example: the same function in two files is a similar pair
    (its similarity is [1]), and its key is among the reported keys. *)
Lemma near_matches_reach_threshold_witness :
  let fa := {| f_code := Demo.show Demo.return_1; f_file := "a.js" |} in
  let fe := {| f_code := Demo.show Demo.return_1; f_file := "e.js" |} in
  ([fa; fe] ∈ map snd (groupFunctionsBySize [fa; fe]) /\
   similar_pair Demo.compareTwoStrings default_threshold [fa; fe] fa fe) /\
  pairKey fa fe ∈
    result_keys (near_compare Demo.compareTwoStrings default_threshold [fa; fe]).
Proof.
  intros fa fe.
  assert (Hgroup : [fa; fe] ∈ map snd (groupFunctionsBySize [fa; fe]))
    by (vm_compute; left).
  assert (Hpair : similar_pair Demo.compareTwoStrings default_threshold
                    [fa; fe] fa fe).
  { exists 0, 1. split; [lia | ]. repeat split; vm_compute; reflexivity. }
  split; [split; assumption | ].
  pose proof (near_matches_reach_threshold Demo.parse Demo.generate
                Demo.compareTwoStrings ["a.js"; "e.js"] Demo.fileMap
                default_threshold []) as Hthm.
  destruct (near_functions Demo.parse Demo.generate ["a.js"; "e.js"]
              Demo.fileMap []) as [h' r] eqn:E.
  vm_compute in E. injection E as <- <-.
  destruct Hthm as (_ & _ & Hcov). exact (Hcov [fa; fe] fa fe Hgroup Hpair).
Defined.

(** X3 on an example: [function f() { return 'a'; }], and the same with
    [x] for every name and text. *)
Lemma normalizeAST_canonical_witness :
  let t := Demo.file_of [Demo.return_a] in
  well_formed t = true /\
  relabel (fun _ => "x") t
  = Demo.file_of
      [Demo.function_declaration "x"
         [Demo.returns (Demo.node "StringLiteral" [("value", JStr "x")])]] /\
  (normalizeAST Demo.generate (alloc t []).2 (alloc t []).1).2
  = Ret (Demo.show
           (Demo.file_of
              [Demo.function_declaration "placeholder"
                 [Demo.returns
                    (Demo.node "StringLiteral" [("value", JStr "placeholder")])]])) /\
  (normalizeAST Demo.generate (alloc (relabel (fun _ => "x") t) []).2
     (alloc (relabel (fun _ => "x") t) []).1).2
  = (normalizeAST Demo.generate (alloc t []).2 (alloc t []).1).2.
Proof.
  intros t.
  assert (Hwf : well_formed t = true) by (vm_compute; reflexivity).
  split; [exact Hwf | ]. split; [vm_compute; reflexivity | ].
  destruct (normalizeAST_canonical Demo.generate (fun _ => "x") t [] [] Hwf)
    as [Htext Hsame].
  split; [ | exact Hsame]. rewrite Htext. vm_compute. reflexivity.
Defined.




(** X11 on an example: [function f() { return 'a'; }] in [c.js] and
    [function g() { return 'b'; }] in [d.js]. *)
Lemma renamed_functions_share_a_group_witness :
  let t := Demo.file_of [Demo.return_a] in
  let text1 := Demo.show Demo.return_a in
  let text2 := Demo.show Demo.return_b in
  let groups :=
    match (findStructuralDuplicates Demo.parse Demo.generate Demo.hashCode
             ["c.js"; "d.js"] Demo.fileMap []).2 with
    | Ret groups => groups
    | _ => []
    end in
  (Demo.parse text1 = inr t /\
   Demo.parse text2 = inr (relabel DemoCommand.rho t) /\
   relabel DemoCommand.rho t = Demo.file_of [Demo.return_b] /\
   well_formed t = true /\
   Demo.generate (canon t) = inr (Demo.show (canon t))) /\
  exists g,
    g ∈ groups /\
    Demo.hashCode (normalizedFunction g) = Demo.hashCode (Demo.show (canon t)) /\
    {| o_file := "c.js"; o_function := text1 |} ∈ originalFunctions g /\
    {| o_file := "d.js"; o_function := text2 |} ∈ originalFunctions g.
Proof.
  intros t text1 text2 groups.
  assert (Hp1 : Demo.parse text1 = inr t) by (vm_compute; reflexivity).
  assert (Hp2 : Demo.parse text2 = inr (relabel DemoCommand.rho t))
    by (vm_compute; reflexivity).
  assert (Hwf : well_formed t = true) by (vm_compute; reflexivity).
  assert (Hgen : Demo.generate (canon t) = inr (Demo.show (canon t)))
    by (vm_compute; reflexivity).
  split; [repeat split; try assumption; vm_compute; reflexivity | ].
  apply (renamed_functions_share_a_group Demo.parse Demo.generate Demo.hashCode
           ["c.js"; "d.js"] Demo.fileMap [] groups "c.js" "d.js" [text1] [text2]
           text1 text2 t (relabel DemoCommand.rho t) (Demo.show (canon t)));
    try assumption.
  - vm_compute. reflexivity.
  - left.
  - vm_compute. reflexivity.
  - left.
  - right. left.
  - vm_compute. reflexivity.
  - left.
  - discriminate.
  - right. exists DemoCommand.rho. reflexivity.
  - vm_compute. discriminate.
Defined.

(** X12 on an example: the group of [c.js] and [d.js]. *)
Lemma structural_groups_hold_functions_of_the_files_witness :
  let groups :=
    match (findStructuralDuplicates Demo.parse Demo.generate Demo.hashCode
             ["c.js"; "d.js"] Demo.fileMap []).2 with
    | Ret groups => groups
    | _ => []
    end in
  length groups = 1 /\
  Forall
    (fun g =>
       normalizedFunction g <> "" /\
       2 <= length (originalFunctions g) /\
       Forall
         (fun o =>
            o_file o ∈ ["c.js"; "d.js"] /\
            (exists texts,
               file_texts Demo.parse Demo.generate Demo.fileMap (o_file o)
               = Ret texts /\
               o_function o ∈ texts) /\
            exists t, Demo.parse (o_function o) = inr t)
         (originalFunctions g))
    groups.
Proof.
  intros groups. split; [vm_compute; reflexivity | ].
  apply (structural_groups_hold_functions_of_the_files Demo.parse Demo.generate
           Demo.hashCode ["c.js"; "d.js"] Demo.fileMap [] groups).
  vm_compute. reflexivity.
Defined.

(** X14 on an example: a folder with [a.js] and, in a directory, [bad.js]. *)
Lemma analyzeCommand_shows_the_error_witness :
  let files := ["/p/a.js"; "/p/lib/bad.js"] in
  let fileMap : gmap string string :=
    <["/p/lib/bad.js" := "function ("]>
      (<["/p/a.js" := "function f() { return 1; }"]> ∅) in
  readFilesRecursively DemoCommand.path_join "/p" (inr DemoCommand.folder) ([], ∅)
  = inr (files, fileMap) /\
  exists e',
    analyzeCommand Demo.parse Demo.generate Demo.hashCode Demo.compareTwoStrings
      DemoCommand.path_join DemoCommand.error_text DemoCommand.formatted
      (Some ["/p"]) (inr DemoCommand.folder) (Some "Structural") []
    = ([showInformationMessage "Analyzing 2 files for Structural duplicates...";
        showErrorMessage
          ("Error analyzing duplicates: " +:+ DemoCommand.error_text e');
        consoleError "Error analyzing duplicates:" e'],
       None).
Proof.
  intros files fileMap.
  assert (Hwalk : readFilesRecursively DemoCommand.path_join "/p"
                    (inr DemoCommand.folder) ([], ∅) = inr (files, fileMap))
    by (vm_compute; reflexivity).
  split; [exact Hwalk | ].
  apply (analyzeCommand_shows_the_error Demo.parse Demo.generate Demo.hashCode
           Demo.compareTwoStrings DemoCommand.path_join DemoCommand.error_text
           DemoCommand.formatted "/p" [] (inr DemoCommand.folder) "Structural" []
           files fileMap "/p/lib/bad.js" "function ("
           (ParseError "Unexpected token") Hwalk).
  - right. left.
  - vm_compute. reflexivity.
  - vm_compute. reflexivity.
  - right. right. left.
Defined.

(** X15 on an example: a folder whose directory [lib] cannot be read. *)
Lemma analyzeCommand_throws_what_fs_throws_witness :
  let items :=
    [File "a.js" (inr "function f() { return 1; }");
     Directory "lib" (inl (TypeError "EACCES: permission denied"))] in
  unreadable items (TypeError "EACCES: permission denied") /\
  exists e',
    unreadable items e' /\
    analyzeCommand Demo.parse Demo.generate Demo.hashCode Demo.compareTwoStrings
      DemoCommand.path_join DemoCommand.error_text DemoCommand.formatted
      (Some ["/p"]) (inr items) (Some "Exact") []
    = ([], Some e').
Proof.
  intros items.
  assert (Hu : unreadable items (TypeError "EACCES: permission denied"))
    by (eapply unreadable_directory; right; left).
  split; [exact Hu | ].
  exact (analyzeCommand_throws_what_fs_throws Demo.parse Demo.generate
           Demo.hashCode Demo.compareTwoStrings DemoCommand.path_join
           DemoCommand.error_text DemoCommand.formatted "/p" [] items
           (Some "Exact") [] _ Hu).
Defined.

